(** * go-etl: the batching engine, the pipeline orchestrator and the manager

    A shallow embedding of [pkg/bucket/bucket.go], [pkg/etl/etl.go] and
    [pkg/etl/manager.go], and of the program that uses them,
    [cmd/benchmark].  Goroutines are modelled by explicit interleaving:
    every [select] alternative that can be taken is an action, a schedule is
    a list of actions, and the code of each alternative is a function on the
    state of the running system. *)

From Stdlib Require Import ZArith Lia.
From stdpp Require Import base list strings pretty.

Open Scope string_scope.
Open Scope list_scope.

(** ** Go values used by the three files *)

(** Go [error] values.  [fmt.Errorf] with a [%w] verb keeps the wrapped error
    reachable through [Unwrap]; an error made from a plain message does not
    wrap anything. *)
Inductive error : Type :=
| ErrorString (msg : string)
| WrapError (prefix : string) (err : error).

Fixpoint Error (e : error) : string :=
  match e with
  | ErrorString msg => msg
  | WrapError prefix err => prefix +:+ Error err
  end.

Definition Unwrap (e : error) : option error :=
  match e with
  | ErrorString _ => None
  | WrapError _ err => Some err
  end.

(** [wraps e target]: [target] is on the [Unwrap] chain of [e]
    (what [errors.Is] follows). *)
Fixpoint wraps (e target : error) : Prop :=
  e = target \/
  match e with
  | ErrorString _ => False
  | WrapError _ err => wraps err target
  end.

(** The result of an operation that may block or panic. *)
Inductive res (A : Type) : Type :=
| Ok (a : A)
| Blocks
| Panics.
Arguments Ok {A} a.
Arguments Blocks {A}.
Arguments Panics {A}.

(** A buffered Go channel: the queued elements, the capacity given to [make]
    and whether [close] has been called.  Every channel of the three files
    is made with a positive capacity ([New] and [NewManager] see to it, and
    [RunAll] makes [results] only when there are pipelines), so neither the
    rendezvous of capacity 0 nor the panic of [make] on a negative size is
    modelled. *)
Record chan (A : Type) : Type := Chan {
  buf : list A;
  cap : Z;
  closed : bool
}.
Arguments Chan {A} buf cap closed.
Arguments buf {A} c.
Arguments cap {A} c.
Arguments closed {A} c.

Definition make_chan (A : Type) (n : Z) : chan A := Chan [] n false.

(** [ch <- x] *)
Definition chan_send {A} (ch : chan A) (x : A) : res (chan A) :=
  if closed ch then Panics
  else if (Z.of_nat (length (buf ch)) <? cap ch)%Z
       then Ok (Chan (buf ch ++ [x]) (cap ch) false)
       else Blocks.

(** [x, ok := <-ch]; [None] is the [ok == false] of a closed, drained
    channel. *)
Definition chan_recv {A} (ch : chan A) : res (option A * chan A) :=
  match buf ch with
  | x :: rest => Ok (Some x, Chan rest (cap ch) (closed ch))
  | [] => if closed ch then Ok (None, ch) else Blocks
  end.

(** [close(ch)] *)
Definition chan_close {A} (ch : chan A) : res (chan A) :=
  if closed ch then Panics else Ok (Chan (buf ch) (cap ch) true).

(** [time.Duration] counts nanoseconds. *)
Definition Second : Z := 1000000000.

(** ** pkg/bucket *)

Module bucket.

Record Config : Type := mkConfig {
  BatchSize : Z;
  Timeout : Z;
  WorkerNum : Z
}.

Record Bucket (T : Type) : Type := mkBucket {
  cfg : Config;
  consumer : chan T
}.
Arguments mkBucket {T} cfg consumer.
Arguments cfg {T} b.
Arguments consumer {T} b.

(** [New] writes the defaults through the [*Config] it is given and copies
    the result into the bucket: the first component is the caller's
    configuration after the call. *)
Definition New (T : Type) (c : Config) : Config * Bucket T * option error :=
  let c1 := if (BatchSize c <=? 0)%Z
            then mkConfig 100 (Timeout c) (WorkerNum c) else c in
  let c2 := if (Timeout c1 <=? 0)%Z
            then mkConfig (BatchSize c1) (5 * Second) (WorkerNum c1) else c1 in
  let c3 := if (WorkerNum c2 <=? 0)%Z
            then mkConfig (BatchSize c2) (Timeout c2) 1 else c2 in
  (c3, mkBucket c3 (make_chan T (BatchSize c3)), None).

Definition Consume {T} (b : Bucket T) (item : T) : res (Bucket T) :=
  match chan_send (consumer b) item with
  | Ok ch => Ok (mkBucket (cfg b) ch)
  | Blocks => Blocks
  | Panics => Panics
  end.

Definition Close {T} (b : Bucket T) : res (Bucket T) :=
  match chan_close (consumer b) with
  | Ok ch => Ok (mkBucket (cfg b) ch)
  | Blocks => Blocks
  | Panics => Panics
  end.

(** *** [Bucket.Run] and [Bucket.worker]

    [processFunc] is the caller's batch handler.  It receives whether its
    context is already cancelled and the batch, and may keep state of its own
    (type [H]): a sink, a counter, a recording stub.  A call of the handler
    is one step of the system: the calls made by different workers are
    taken one after the other. *)

Section Run.
Context {T H : Type}.

Definition ProcessFunc : Type := bool -> list T -> H -> H * option error.

Variable processFunc : ProcessFunc.

(** The [flush] closure of [worker]: it reads and resets the captured
    [queue].  The result is the queue after the call and the returned
    error. *)
Definition flush (ctx_done : bool) (queue : list T) (h : H)
  : list T * option error * H :=
  if (0 <? length queue)%nat then
    match processFunc ctx_done queue h with
    | (h', Some err) => (queue, Some err, h')
    | (h', None) => ([], None, h')
    end
  else (queue, None, h).

(** Where the goroutine of one worker stands: inside the [for]/[select] loop
    of [worker] with its local [queue]; back from [worker] with its result,
    before the goroutine has looked at it; or finished ([wg.Done] has
    run). *)
Inductive wstate : Type :=
| Looping (queue : list T)
| Returned (queue : list T) (r : option error)
| Exited.

(** History variable: one entry per call of [processFunc]. *)
Record invocation : Type := mkInvocation {
  inv_worker : nat;
  inv_batch : list T;
  inv_result : option error
}.

Record state : Type := mkState {
  st_bucket : Bucket T;
  ctx_done : bool;        (* the caller's ctx is cancelled *)
  cancel_called : bool;   (* [cancel()] of [procCtx] has been called *)
  workers : list wstate;
  errCh : list error;     (* buffered, capacity [WorkerNum] *)
  hstate : H;
  history : list invocation;      (* ghost *)
  consumed : list T               (* ghost: items accepted by [Consume] *)
}.

Definition procCtx_done (st : state) : bool := ctx_done st || cancel_called st.

Definition set_bucket (st : state) (b : Bucket T) : state :=
  mkState b (ctx_done st) (cancel_called st) (workers st) (errCh st)
          (hstate st) (history st) (consumed st).

(** The state after worker [i] has called [flush] on [queue] and moved to
    [w]; [w] is computed from the result of the flush by [k]. *)
Definition after_flush (st : state) (b : Bucket T) (i : nat) (queue : list T)
    (k : list T -> option error -> wstate) : state :=
  let '(queue', r, h') := flush (procCtx_done st) queue (hstate st) in
  mkState b (ctx_done st) (cancel_called st)
          (<[i := k queue' r]> (workers st)) (errCh st) h'
          (match queue with
           | [] => history st
           | _ => history st ++ [mkInvocation i queue r]
           end)
          (consumed st).

(** [if err := flush(); err != nil { return err }] inside the loop. *)
Definition continue_unless_error (queue : list T) (r : option error) : wstate :=
  match r with
  | Some err => Returned queue (Some err)
  | None => Looping queue
  end.

(** Actions of the running system.  The first three come from outside the
    engine, the others are the alternatives of the [select] in [worker] and
    the code of the worker goroutine after [worker] has returned. *)
Inductive action : Type :=
| AConsume (item : T)   (* a [Consume(item)] whose send goes through *)
| AClose                (* [Close()] *)
| ACancel               (* the caller cancels ctx *)
| WCtxDone (i : nat)    (* worker i: [case <-ctx.Done()] *)
| WTick (i : nat)       (* worker i: [case <-ticker.C] *)
| WRecv (i : nat)       (* worker i: [case item, ok := <-b.consumer] *)
| WReport (i : nat).    (* goroutine i: error to [errCh], [cancel()], [wg.Done()] *)

Definition step (a : action) (st : state) : res state :=
  match a with
  | AConsume item =>
      match Consume (st_bucket st) item with
      | Ok b => Ok (mkState b (ctx_done st) (cancel_called st) (workers st)
                            (errCh st) (hstate st) (history st)
                            (consumed st ++ [item]))
      | Blocks => Blocks
      | Panics => Panics
      end
  | AClose =>
      match Close (st_bucket st) with
      | Ok b => Ok (set_bucket st b)
      | Blocks => Blocks
      | Panics => Panics
      end
  | ACancel =>
      Ok (mkState (st_bucket st) true (cancel_called st) (workers st)
                  (errCh st) (hstate st) (history st) (consumed st))
  | WCtxDone i =>
      match workers st !! i with
      | Some (Looping queue) =>
          if procCtx_done st
          then Ok (after_flush st (st_bucket st) i queue Returned)
          else Blocks
      | _ => Blocks
      end
  | WTick i =>
      match workers st !! i with
      | Some (Looping queue) =>
          Ok (after_flush st (st_bucket st) i queue continue_unless_error)
      | _ => Blocks
      end
  | WRecv i =>
      match workers st !! i with
      | Some (Looping queue) =>
          match chan_recv (consumer (st_bucket st)) with
          | Ok (None, _) =>
              Ok (after_flush st (st_bucket st) i queue Returned)
          | Ok (Some item, ch) =>
              let b := mkBucket (cfg (st_bucket st)) ch in
              let queue' := queue ++ [item] in
              if (BatchSize (cfg (st_bucket st)) <=? Z.of_nat (length queue'))%Z
              then Ok (after_flush st b i queue' continue_unless_error)
              else Ok (mkState b (ctx_done st) (cancel_called st)
                               (<[i := Looping queue']> (workers st))
                               (errCh st) (hstate st) (history st)
                               (consumed st))
          | Blocks => Blocks
          | Panics => Panics
          end
      | _ => Blocks
      end
  | WReport i =>
      match workers st !! i with
      | Some (Returned _ r) =>
          match r with
          | Some err =>
              let e := WrapError ("worker " +:+ pretty i +:+ ": ") err in
              Ok (mkState (st_bucket st) (ctx_done st) true
                          (<[i := Exited]> (workers st))
                          (if (Z.of_nat (length (errCh st))
                               <? WorkerNum (cfg (st_bucket st)))%Z
                           then errCh st ++ [e] else errCh st)
                          (hstate st) (history st) (consumed st))
          | None =>
              Ok (mkState (st_bucket st) (ctx_done st) (cancel_called st)
                          (<[i := Exited]> (workers st))
                          (errCh st) (hstate st) (history st) (consumed st))
          end
      | _ => Blocks
      end
  end.

(** A schedule is run action by action; a schedule naming an action that
    cannot be taken does not describe an execution ([Blocks]). *)
Fixpoint exec (sched : list action) (st : state) : res state :=
  match sched with
  | [] => Ok st
  | a :: rest =>
      match step a st with
      | Ok st' => exec rest st'
      | Blocks => Blocks
      | Panics => Panics
      end
  end.

(** [Run] starts [WorkerNum] workers on a fresh [procCtx] and [errCh]. *)
Definition Run_start (b : Bucket T) (ctx : bool) (h : H) : state :=
  mkState b ctx false
          (replicate (Z.to_nat (WorkerNum (cfg b))) (Looping []))
          [] h [] [].

Definition is_exited (w : wstate) : bool :=
  match w with Exited => true | _ => false end.

(** [wg.Wait()] is over when every worker goroutine has finished; [Run] then
    returns the first error queued in [errCh], or nil. *)
Definition Run_result (st : state) : option (option error) :=
  if forallb is_exited (workers st) then Some (head (errCh st)) else None.

(** [Run] under a schedule: the returned error and the final state, when the
    schedule is an execution at whose end [wg.Wait()] has returned. *)
Definition Run (sched : list action) (b : Bucket T) (ctx : bool) (h : H)
  : res (option error * state) :=
  match exec sched (Run_start b ctx h) with
  | Ok st =>
      match Run_result st with
      | Some r => Ok (r, st)
      | None => Blocks
      end
  | Blocks => Blocks
  | Panics => Panics
  end.

End Run.

End bucket.

(** ** pkg/etl *)

Module etl.

(** *** etl.go *)

Record Payload (E : Type) : Type := mkPayload {
  Data : E;
  Err : option error
}.
Arguments mkPayload {E} Data Err.
Arguments Data {E} p.
Arguments Err {E} p.

(** The processor interface.  Every method receives whether its context is
    already cancelled and works on the processor's world [S] (its receiver,
    the databases behind it).  The channel returned by [Extract] is the
    sequence of payloads it will deliver before it is closed. *)
Record ETLProcessor (E T S : Type) : Type := mkProcessor {
  Extract : bool -> S -> S * (list (Payload E) * option error);
  Transform : bool -> E -> S -> S * T;
  Load : bool -> list T -> S -> S * option error;
  PreProcess : bool -> S -> S * option error;
  PostProcess : bool -> S -> S * option error
}.
Arguments mkProcessor {E T S}.
Arguments Extract {E T S} _.
Arguments Transform {E T S} _.
Arguments Load {E T S} _.
Arguments PreProcess {E T S} _.
Arguments PostProcess {E T S} _.

Record ETL (E T S : Type) : Type := mkETL {
  processor : ETLProcessor E T S
}.
Arguments mkETL {E T S} processor.
Arguments processor {E T S} _.

Definition NewETL {E T S} (p : ETLProcessor E T S) : ETL E T S := mkETL p.

Section ETLRun.
Context {E T S : Type}.
Variable e : ETL E T S.

(** The loop of the batch handler: [transformed = append(transformed, t)]. *)
Fixpoint transform_all (ctx : bool) (items : list E) (s : S) : S * list T :=
  match items with
  | [] => (s, [])
  | item :: rest =>
      let '(s1, t) := Transform (processor e) ctx item s in
      let '(s2, ts) := transform_all ctx rest s1 in
      (s2, t :: ts)
  end.

(** The function literal passed to [b.Run]. *)
Definition handler : @bucket.ProcessFunc E S :=
  fun ctx items s =>
    let '(s1, transformed) := transform_all ctx items s in
    Load (processor e) ctx transformed s1.

(** The feeder goroutine: at its [select]; inside [b.Consume(payload.Data)];
    or returned. *)
Inductive fstate : Type :=
| Selecting (extractor : list (Payload E))
| Sending (item : E) (extractor : list (Payload E))
| Stopped.

Record sys : Type := mkSys {
  feeder : fstate;
  stdout : list string;
  engine : @bucket.state E S
}.

Inductive action : Type :=
| FCtxDone            (* feeder: [case <-ctx.Done()] *)
| FRecv               (* feeder: [case payload, ok := <-extractor] *)
| FSend               (* feeder: the send inside [b.Consume] goes through *)
| Engine (a : @bucket.action E).  (* a worker, or the caller cancelling ctx *)

Definition feeder_closes (st : sys) (out : list string) : res sys :=
  match bucket.step handler bucket.AClose (engine st) with
  | Ok en => Ok (mkSys Stopped out en)
  | Blocks => Blocks
  | Panics => Panics
  end.

Definition step (a : action) (st : sys) : res sys :=
  match a with
  | FCtxDone =>
      match feeder st with
      | Selecting _ =>
          if bucket.ctx_done (engine st)
          then feeder_closes st (stdout st)
          else Blocks
      | _ => Blocks
      end
  | FRecv =>
      match feeder st with
      | Selecting [] => feeder_closes st (stdout st)
      | Selecting (payload :: rest) =>
          match Err payload with
          | Some err =>
              feeder_closes st
                (stdout st ++ ["ERROR: Failed to extract: " +:+ Error err])
          | None => Ok (mkSys (Sending (Data payload) rest) (stdout st) (engine st))
          end
      | _ => Blocks
      end
  | FSend =>
      match feeder st with
      | Sending item rest =>
          match bucket.step handler (bucket.AConsume item) (engine st) with
          | Ok en => Ok (mkSys (Selecting rest) (stdout st) en)
          | Blocks => Blocks
          | Panics => Panics
          end
      | _ => Blocks
      end
  | Engine (bucket.AConsume _) => Blocks
  | Engine bucket.AClose => Blocks
  | Engine a =>
      match bucket.step handler a (engine st) with
      | Ok en => Ok (mkSys (feeder st) (stdout st) en)
      | Blocks => Blocks
      | Panics => Panics
      end
  end.

Fixpoint exec (sched : list action) (st : sys) : res sys :=
  match sched with
  | [] => Ok st
  | a :: rest =>
      match step a st with
      | Ok st' => exec rest st'
      | Blocks => Blocks
      | Panics => Panics
      end
  end.

(** [ETL.Run].  What it hands back besides the error: the processor's world, the
    caller's bucket configuration (written through by [bucket.New]) and
    whether ctx has been cancelled by then. *)
Definition ETL_Run (sched : list action) (ctx : bool) (bucketCfg : bucket.Config)
    (s : S) : res (S * bucket.Config * bool * option error) :=
  match PreProcess (processor e) ctx s with
  | (s1, Some err) =>
      Ok (s1, bucketCfg, ctx, Some (WrapError "failed to pre-process: " err))
  | (s1, None) =>
      match bucket.New E bucketCfg with
      | (cfg', _, Some err) =>
          Ok (s1, cfg', ctx, Some (WrapError "failed to create bucket: " err))
      | (cfg', b, None) =>
          match Extract (processor e) ctx s1 with
          | (s2, (_, Some err)) =>
              Ok (s2, cfg', ctx, Some (WrapError "failed to extract: " err))
          | (s2, (extractor, None)) =>
              match exec sched (mkSys (Selecting extractor) []
                                      (bucket.Run_start b ctx s2)) with
              | Ok st =>
                  let ctx' := bucket.ctx_done (engine st) in
                  match bucket.Run_result (engine st) with
                  | None => Blocks
                  | Some (Some err) =>
                      Ok (bucket.hstate (engine st), cfg', ctx',
                          Some (WrapError "failed to run ETL: " err))
                  | Some None =>
                      match PostProcess (processor e) ctx'
                                        (bucket.hstate (engine st)) with
                      | (s3, Some err) =>
                          Ok (s3, cfg', ctx',
                              Some (WrapError "failed to post-process: " err))
                      | (s3, None) => Ok (s3, cfg', ctx', None)
                      end
                  end
              | Blocks => Blocks
              | Panics => Panics
              end
          end
      end
  end.

(** [ETL.PreProcess] and [ETL.PostProcess] call the processor's hooks. *)
Definition ETL_PreProcess (ctx : bool) (s : S) : S * option error :=
  PreProcess (processor e) ctx s.

Definition ETL_PostProcess (ctx : bool) (s : S) : S * option error :=
  PostProcess (processor e) ctx s.

End ETLRun.

(** *** manager.go *)

(** The [ETLRunner] interface.  [Run] works on the world [W] shared by the
    pipelines of a manager and on the bucket configuration behind the pointer
    it is given, and is told whether ctx is already cancelled; [Blocks] is a
    run that never returns.  Cancelling ctx is an action of the caller: while
    a pipeline runs it is part of the interleaving of that run, between runs
    it is an action of the manager's schedule. *)
Record ETLRunner (W : Type) : Type := mkRunner {
  Name : string;
  Run : bool -> bucket.Config -> W -> res (W * bucket.Config * option error)
}.
Arguments mkRunner {W} Name Run.
Arguments Name {W} _.
Arguments Run {W} _.

Record Config : Type := mkConfig {
  WorkerNum : Z
}.

Record Manager (W : Type) : Type := mkManager {
  pipelines : list (ETLRunner W);
  cfg : Config;
  bucketConfig : bucket.Config
}.
Arguments mkManager {W} pipelines cfg bucketConfig.
Arguments pipelines {W} _.
Arguments cfg {W} _.
Arguments bucketConfig {W} _.

(** [NewManager] writes the default through its [*Config]: the first
    component is the caller's configuration after the call. *)
Definition NewManager (W : Type) (c : Config) (bucketConfig : bucket.Config)
  : Config * Manager W :=
  let c' := if (WorkerNum c <=? 0)%Z then mkConfig 4 else c in
  (c', mkManager [] c' bucketConfig).

Definition addPipelineInternal {W} (m : Manager W) (runner : ETLRunner W)
  : Manager W :=
  mkManager (pipelines m ++ [runner]) (cfg m) (bucketConfig m).

Definition AddRunner {W} (m : Manager W) (runner : ETLRunner W) : Manager W :=
  mkManager (pipelines m ++ [runner]) (cfg m) (bucketConfig m).

Record pipelineAdapter (E T S : Type) : Type := mkAdapter {
  etl : ETL E T S;
  name : string
}.
Arguments mkAdapter {E T S} etl name.
Arguments etl {E T S} _.
Arguments name {E T S} _.

Definition pipelineAdapter_Name {E T S} (a : pipelineAdapter E T S) : string :=
  name a.

(** [pipelineAdapter.Run]; [sched] is the interleaving of the goroutines
    inside [a.etl.Run]. *)
Definition pipelineAdapter_Run {E T S} (sched : list (@action E))
    (a : pipelineAdapter E T S) (ctx : bool) (c : bucket.Config) (s : S)
  : res (S * bucket.Config * option error) :=
  match ETL_PreProcess (etl a) ctx s with
  | (s1, Some err) => Ok (s1, c, Some (WrapError "pre-process failed: " err))
  | (s1, None) =>
      match ETL_Run (etl a) sched ctx c s1 with
      | Ok (s2, c', ctx', Some err) =>
          Ok (s2, c', Some (WrapError "ETL run failed: " err))
      | Ok (s2, c', ctx', None) =>
          match ETL_PostProcess (etl a) ctx' s2 with
          | (s3, Some err) =>
              Ok (s3, c', Some (WrapError "post-process failed: " err))
          | (s3, None) => Ok (s3, c', None)
          end
      | Blocks => Blocks
      | Panics => Panics
      end
  end.

(** [AddPipelineGeneric]; the adapter is stored as an [ETLRunner], with the
    interleaving its run will follow. *)
Definition AddPipelineGeneric {E T S} (m : Manager S)
    (processor : ETLProcessor E T S) (name : string)
    (sched : list (@action E)) : Manager S :=
  let adapter := mkAdapter (NewETL processor) name in
  addPipelineInternal m
    (mkRunner (pipelineAdapter_Name adapter) (pipelineAdapter_Run sched adapter)).

Section RunAll.
Context {W : Type}.

(** The goroutine of one pipeline: waiting for a slot of [sem], holding one,
    or finished. *)
Inductive gstate : Type :=
| Waiting
| Active
| Finished.

(** History variable: one entry per call of a pipeline's [Run]. *)
Record ran : Type := mkRan {
  ran_index : nat;
  ran_ctx : bool;
  ran_result : option error
}.

Record mstate : Type := mkMState {
  sem : chan unit;
  results : chan (option error);
  tasks : list gstate;
  world : W;
  bcfg : bucket.Config;     (* what [m.bucketConfig] points to *)
  mctx : bool;              (* the caller's ctx is cancelled *)
  runs : list ran           (* ghost *)
}.

(** Actions of a running [RunAll].  The [Run] of a pipeline is one step:
    the runs of the pipelines are taken one after the other, in the order in
    which they finish. *)
Inductive maction : Type :=
| MCancel               (* the caller cancels ctx *)
| Acquire (i : nat)     (* goroutine i: [sem <- struct{}{}] goes through *)
| Finish (i : nat).     (* goroutine i: [p.Run], the result, the deferred calls *)

Variable m : Manager W.

Definition mstep (a : maction) (st : mstate) : res mstate :=
  match a with
  | MCancel =>
      Ok (mkMState (sem st) (results st) (tasks st) (world st) (bcfg st) true
                   (runs st))
  | Acquire i =>
      match tasks st !! i with
      | Some Waiting =>
          match chan_send (sem st) () with
          | Ok sem' =>
              Ok (mkMState sem' (results st) (<[i := Active]> (tasks st))
                           (world st) (bcfg st) (mctx st) (runs st))
          | Blocks => Blocks
          | Panics => Panics
          end
      | _ => Blocks
      end
  | Finish i =>
      match tasks st !! i, pipelines m !! i with
      | Some Active, Some p =>
          match Run p (mctx st) (bcfg st) (world st) with
          | Ok (w', c', r) =>
              let out :=
                match r with
                | Some err =>
                    Some (WrapError ("pipeline " +:+ Name p +:+ " failed: ") err)
                | None => None
                end in
              match chan_send (results st) out with
              | Ok results' =>
                  match chan_recv (sem st) with
                  | Ok (_, sem') =>
                      Ok (mkMState sem' results' (<[i := Finished]> (tasks st))
                                   w' c' (mctx st)
                                   (runs st ++ [mkRan i (mctx st) r]))
                  | Blocks => Blocks
                  | Panics => Panics
                  end
              | Blocks => Blocks
              | Panics => Panics
              end
          | Blocks => Blocks
          | Panics => Panics
          end
      | _, _ => Blocks
      end
  end.

Fixpoint mexec (sched : list maction) (st : mstate) : res mstate :=
  match sched with
  | [] => Ok st
  | a :: rest =>
      match mstep a st with
      | Ok st' => mexec rest st'
      | Blocks => Blocks
      | Panics => Panics
      end
  end.

Definition RunAll_start (ctx : bool) (w : W) : mstate :=
  mkMState (make_chan unit (WorkerNum (cfg m)))
           (make_chan (option error) (Z.of_nat (length (pipelines m))))
           (replicate (length (pipelines m)) Waiting)
           w (bucketConfig m) ctx [].

Definition is_finished (g : gstate) : bool :=
  match g with Finished => true | _ => false end.

(** [for err := range results { if err != nil { return err } }] *)
Fixpoint first_error (rs : list (option error)) : option error :=
  match rs with
  | [] => None
  | Some err :: _ => Some err
  | None :: rest => first_error rest
  end.

(** What a call of [RunAll] leaves behind: the error it returns, the world,
    the bucket configuration and ctx after it, and as history the number of
    pipeline goroutines it started and the calls of [Run] they made. *)
Record outcome : Type := mkOutcome {
  returned : option error;
  final_world : W;
  final_bcfg : bucket.Config;
  final_ctx : bool;
  launched : nat;
  completed : list ran
}.

(** [RunAll] under a schedule of the pipeline goroutines. *)
Definition RunAll (sched : list maction) (ctx : bool) (w : W) : res outcome :=
  if (length (pipelines m) =? 0)%nat
  then Ok (mkOutcome (Some (ErrorString "no pipelines registered"))
                     w (bucketConfig m) ctx 0 [])
  else
    match mexec sched (RunAll_start ctx w) with
    | Ok st =>
        if forallb is_finished (tasks st)
        then Ok (mkOutcome (first_error (buf (results st)))
                           (world st) (bcfg st) (mctx st)
                           (length (tasks st)) (runs st))
        else Blocks
    | Blocks => Blocks
    | Panics => Panics
    end.

End RunAll.

End etl.

(** ** cmd/benchmark

    The processor of the benchmark program, which moves users from MongoDB
    to PostgreSQL: its models, [Transform] and [Load]. *)

(** [int64] arithmetic wraps around. *)
Definition int64 (z : Z) : Z := ((z + 2 ^ 63) mod 2 ^ 64 - 2 ^ 63)%Z.

Module benchmark.

(** *** models_mongo.go *)

Module Coordinates.
Section Fields.
Context {float64 : Type}.
Record t : Type := mk {
  Lat : float64;
  Lng : float64
}.
End Fields.
Arguments t : clear implicits.
End Coordinates.

Module Address.
Section Fields.
Context {float64 : Type}.
Record t : Type := mk {
  Street : string;
  City : string;
  State : string;
  ZipCode : string;
  Country : string;
  Coordinates : Coordinates.t float64
}.
End Fields.
Arguments t : clear implicits.
End Address.

Module Education.
Record t : Type := mk {
  Institution : string;
  Degree : string;
  Year : Z;
  Description : string
}.
End Education.

Module Experience.
Record t : Type := mk {
  Company : string;
  Position : string;
  Duration : string;
  Description : string
}.
End Experience.

Module Profile.
Record t : Type := mk {
  Bio : string;
  Interests : list string;
  Skills : list string;
  Education : list Education.t;
  Experience : list Experience.t
}.
End Profile.

Module NotificationSettings.
Record t : Type := mk {
  Email : bool;
  Push : bool;
  SMS : bool
}.
End NotificationSettings.

Module Setting.
Section Fields.
Context {Time : Type}.
Record t : Type := mk {
  Key : string;
  Value : string;
  Timestamp : Time;
  Metadata : string
}.
End Fields.
Arguments t : clear implicits.
End Setting.

Module Preferences.
Section Fields.
Context {Time : Type}.
Record t : Type := mk {
  Language : string;
  Timezone : string;
  Notifications : NotificationSettings.t;
  Settings : list (Setting.t Time)
}.
End Fields.
Arguments t : clear implicits.
End Preferences.

Module DataEntry.
Section Fields.
Context {Time : Type}.
Record t : Type := mk {
  Key : string;
  Value : string;
  Timestamp : Time;
  Metadata : string
}.
End Fields.
Arguments t : clear implicits.
End DataEntry.

Module Attachment.
Record t : Type := mk {
  Name : string;
  Size : Z;
  FileType : string
}.
End Attachment.

Module Message.
Section Fields.
Context {Time : Type}.
Record t : Type := mk {
  ID : string;
  From : string;
  To : string;
  Subject : string;
  Body : string;
  Timestamp : Time;
  Read : bool;
  Attachments : list Attachment.t
}.
End Fields.
Arguments t : clear implicits.
End Message.

Module Group.
Section Fields.
Context {Time : Type}.
Record t : Type := mk {
  ID : string;
  Name : string;
  Joined : Time
}.
End Fields.
Arguments t : clear implicits.
End Group.

Module SocialMedia.
Section Fields.
Context {Time : Type}.
Record t : Type := mk {
  Posts : list (DataEntry.t Time);
  Connections : list string;
  Groups : list (Group.t Time)
}.
End Fields.
Arguments t : clear implicits.
End SocialMedia.

Module LargeData.
Record t : Type := mk {
  Blob1 : string;
  Blob2 : string;
  Blob3 : string;
  Blob4 : string;
  Blob5 : string
}.
End LargeData.

Module User.
Section Fields.
Context {Time float64 : Type}.
Record t : Type := mk {
  ID : Z;
  Username : string;
  Email : string;
  FirstName : string;
  LastName : string;
  Age : Z;
  CreatedAt : Time;
  UpdatedAt : Time;
  Address : Address.t float64;
  Profile : Profile.t;
  Preferences : Preferences.t Time;
  ActivityLog : list (DataEntry.t Time);
  Transactions : list (DataEntry.t Time);
  Messages : list (Message.t Time);
  SocialMedia : SocialMedia.t Time;
  LargeData : LargeData.t
}.
End Fields.
Arguments t : clear implicits.
End User.

(** *** The PostgreSQL models (pipeline.go) *)

Module PGUser.
Section Fields.
Context {Time : Type}.
Record t : Type := mk {
  ID : Z;
  Username : string;
  Email : string;
  FirstName : string;
  LastName : string;
  Age : Z;
  CreatedAt : Time;
  UpdatedAt : Time
}.
End Fields.
Arguments t : clear implicits.
End PGUser.

Module PGAddress.
Section Fields.
Context {JSON : Type}.
Record t : Type := mk {
  ID : Z;
  UserID : Z;
  Street : string;
  City : string;
  State : string;
  ZipCode : string;
  Country : string;
  Coordinates : JSON
}.
End Fields.
Arguments t : clear implicits.
End PGAddress.

Module PGProfile.
Section Fields.
Context {JSON : Type}.
Record t : Type := mk {
  ID : Z;
  UserID : Z;
  Bio : string;
  Interests : JSON;
  Skills : JSON
}.
End Fields.
Arguments t : clear implicits.
End PGProfile.

Module PGEducation.
Record t : Type := mk {
  ID : Z;
  ProfileID : Z;
  Institution : string;
  Degree : string;
  Year : Z;
  Description : string
}.
End PGEducation.

Module PGExperience.
Record t : Type := mk {
  ID : Z;
  ProfileID : Z;
  Company : string;
  Position : string;
  Duration : string;
  Description : string
}.
End PGExperience.

Module PGPreferences.
Section Fields.
Context {JSON : Type}.
Record t : Type := mk {
  ID : Z;
  UserID : Z;
  Language : string;
  Timezone : string;
  Notifications : JSON
}.
End Fields.
Arguments t : clear implicits.
End PGPreferences.

Module PGSettings.
Section Fields.
Context {Time : Type}.
Record t : Type := mk {
  ID : Z;
  PreferenceID : Z;
  Key : string;
  Value : string;
  Timestamp : Time;
  Metadata : string
}.
End Fields.
Arguments t : clear implicits.
End PGSettings.

Module PGActivityLog.
Section Fields.
Context {Time : Type}.
Record t : Type := mk {
  ID : Z;
  UserID : Z;
  Key : string;
  Value : string;
  Timestamp : Time;
  Metadata : string
}.
End Fields.
Arguments t : clear implicits.
End PGActivityLog.

Module PGTransactions.
Section Fields.
Context {Time : Type}.
Record t : Type := mk {
  ID : Z;
  UserID : Z;
  Key : string;
  Value : string;
  Timestamp : Time;
  Metadata : string
}.
End Fields.
Arguments t : clear implicits.
End PGTransactions.

Module PGMessages.
Section Fields.
Context {Time : Type}.
Record t : Type := mk {
  ID : string;
  UserID : Z;
  From : string;
  To : string;
  Subject : string;
  Body : string;
  Timestamp : Time;
  Read : bool
}.
End Fields.
Arguments t : clear implicits.
End PGMessages.

Module PGAttachments.
Record t : Type := mk {
  ID : Z;
  MessageID : string;
  Name : string;
  Size : Z;
  FileType : string
}.
End PGAttachments.

Module PGSocialMedia.
Section Fields.
Context {JSON : Type}.
Record t : Type := mk {
  ID : Z;
  UserID : Z;
  Connections : JSON
}.
End Fields.
Arguments t : clear implicits.
End PGSocialMedia.

Module PGPosts.
Section Fields.
Context {Time : Type}.
Record t : Type := mk {
  ID : Z;
  SocialMediaID : Z;
  Key : string;
  Value : string;
  Timestamp : Time;
  Metadata : string
}.
End Fields.
Arguments t : clear implicits.
End PGPosts.

Module PGGroups.
Section Fields.
Context {Time : Type}.
Record t : Type := mk {
  ID : string;
  SocialMediaID : Z;
  Name : string;
  Joined : Time
}.
End Fields.
Arguments t : clear implicits.
End PGGroups.

Module PGLargeData.
Record t : Type := mk {
  ID : Z;
  UserID : Z;
  Blob1 : string;
  Blob2 : string;
  Blob3 : string;
  Blob4 : string;
  Blob5 : string
}.
End PGLargeData.

(** [TransformedUser] holds the rows of one user for the 15 tables. *)
Module TransformedUser.
Section Fields.
Context {Time JSON : Type}.
Record t : Type := mk {
  User : PGUser.t Time;
  Address : PGAddress.t JSON;
  Profile : PGProfile.t JSON;
  Education : list PGEducation.t;
  Experience : list PGExperience.t;
  Preferences : PGPreferences.t JSON;
  Settings : list (PGSettings.t Time);
  ActivityLog : list (PGActivityLog.t Time);
  Transactions : list (PGTransactions.t Time);
  Messages : list (PGMessages.t Time);
  Attachments : list PGAttachments.t;
  SocialMedia : PGSocialMedia.t JSON;
  Posts : list (PGPosts.t Time);
  Groups : list (PGGroups.t Time);
  LargeData : PGLargeData.t
}.
End Fields.
Arguments t : clear implicits.
End TransformedUser.

(** *** pipeline.go: [UserETL] *)

Section UserETL.
(** [time.Time], [float64] and the bytes of [datatypes.JSON] are only copied
    by this code; the MongoDB client and the state of the PostgreSQL
    database belong to the drivers. *)
Context {Time float64 JSON Mongo DB : Type}.

(** The three uses of [json.Marshal] in [Transform]; the error it returns is
    dropped there. *)
Variable json_Marshal_coordinates : float64 -> float64 -> JSON.
Variable json_Marshal_strings : list string -> JSON.
Variable json_Marshal_notifications : NotificationSettings.t -> JSON.

(** The slice handed to [CreateInBatches]. *)
Inductive Rows : Type :=
| Users (rows : list (PGUser.t Time))
| Addresses (rows : list (PGAddress.t JSON))
| Profiles (rows : list (PGProfile.t JSON))
| EducationRows (rows : list PGEducation.t)
| ExperienceRows (rows : list PGExperience.t)
| PreferencesRows (rows : list (PGPreferences.t JSON))
| SettingsRows (rows : list (PGSettings.t Time))
| ActivityLogRows (rows : list (PGActivityLog.t Time))
| TransactionsRows (rows : list (PGTransactions.t Time))
| MessagesRows (rows : list (PGMessages.t Time))
| AttachmentsRows (rows : list PGAttachments.t)
| SocialMediaRows (rows : list (PGSocialMedia.t JSON))
| PostsRows (rows : list (PGPosts.t Time))
| GroupsRows (rows : list (PGGroups.t Time))
| LargeDataRows (rows : list PGLargeData.t).

(** [db.CreateInBatches(rows, batchSize).Error] and [db.AutoMigrate(...)]. *)
Variable CreateInBatches : Rows -> Z -> DB -> DB * option error.
Variable AutoMigrate : DB -> DB * option error.

Record UserETL : Type := mkUserETL {
  mongoClient : Mongo;
  postgresDB : DB
}.

Definition NewUserETL (mongoClient : Mongo) (postgresDB : DB) : UserETL :=
  mkUserETL mongoClient postgresDB.

(** What the methods work on: the receiver and the standard output. *)
Record World : Type := mkWorld {
  receiver : UserETL;
  stdout : list string
}.

Definition Print (w : World) (text : string) : World :=
  mkWorld (receiver w) (stdout w ++ [text]).

Definition with_postgres (w : World) (db : DB) : World :=
  mkWorld (mkUserETL (mongoClient (receiver w)) db) (stdout w).

Definition AutoMigrateAll (db : DB) : DB * option error := AutoMigrate db.

Definition PreProcess (ctx : bool) (w : World) : World * option error :=
  let w1 := Print w "Starting ETL pipeline...
" in
  let '(db, r) := AutoMigrateAll (postgresDB (receiver w1)) in
  (with_postgres w1 db, r).

(** [user.ID*10000 + int64(idx)], in [int64] arithmetic. *)
Definition child_ID (user_ID : Z) (idx : nat) : Z :=
  int64 (int64 (user_ID * 10000) + Z.of_nat idx).

(** The loop over [user.Messages]: one [PGMessages] row per message, and one
    [PGAttachments] row per attachment, numbered from 0 within its
    message. *)
Definition messages_and_attachments (user : User.t Time float64)
  : list (PGMessages.t Time) * list PGAttachments.t :=
  fold_left
    (fun '(messages, attachments) msg =>
       (messages ++ [PGMessages.mk (Message.ID msg) (User.ID user)
                       (Message.From msg) (Message.To msg)
                       (Message.Subject msg) (Message.Body msg)
                       (Message.Timestamp msg) (Message.Read msg)],
        attachments
        ++ imap (fun idx att =>
                   PGAttachments.mk (child_ID (User.ID user) idx)
                     (Message.ID msg) (Attachment.Name att)
                     (Attachment.Size att) (Attachment.FileType att))
                (Message.Attachments msg)))
    (User.Messages user) ([], []).

Definition Transform (ctx : bool) (user : User.t Time float64)
  : TransformedUser.t Time JSON :=
  let pgUser :=
    PGUser.mk (User.ID user) (User.Username user) (User.Email user)
      (User.FirstName user) (User.LastName user) (User.Age user)
      (User.CreatedAt user) (User.UpdatedAt user) in
  let coordsJSON :=
    json_Marshal_coordinates
      (Coordinates.Lat (Address.Coordinates (User.Address user)))
      (Coordinates.Lng (Address.Coordinates (User.Address user))) in
  let pgAddress :=
    PGAddress.mk (User.ID user) (User.ID user)
      (Address.Street (User.Address user)) (Address.City (User.Address user))
      (Address.State (User.Address user))
      (Address.ZipCode (User.Address user))
      (Address.Country (User.Address user)) coordsJSON in
  let interestsJSON :=
    json_Marshal_strings (Profile.Interests (User.Profile user)) in
  let skillsJSON :=
    json_Marshal_strings (Profile.Skills (User.Profile user)) in
  let pgProfile :=
    PGProfile.mk (User.ID user) (User.ID user)
      (Profile.Bio (User.Profile user)) interestsJSON skillsJSON in
  let education :=
    imap (fun idx edu =>
            PGEducation.mk (child_ID (User.ID user) idx) (User.ID user)
              (Education.Institution edu) (Education.Degree edu)
              (Education.Year edu) (Education.Description edu))
         (Profile.Education (User.Profile user)) in
  let experience :=
    imap (fun idx exp =>
            PGExperience.mk (child_ID (User.ID user) idx) (User.ID user)
              (Experience.Company exp) (Experience.Position exp)
              (Experience.Duration exp) (Experience.Description exp))
         (Profile.Experience (User.Profile user)) in
  let notifJSON :=
    json_Marshal_notifications
      (Preferences.Notifications (User.Preferences user)) in
  let pgPreferences :=
    PGPreferences.mk (User.ID user) (User.ID user)
      (Preferences.Language (User.Preferences user))
      (Preferences.Timezone (User.Preferences user)) notifJSON in
  let settings :=
    imap (fun idx setting =>
            PGSettings.mk (child_ID (User.ID user) idx) (User.ID user)
              (Setting.Key setting) (Setting.Value setting)
              (Setting.Timestamp setting) (Setting.Metadata setting))
         (Preferences.Settings (User.Preferences user)) in
  let activityLog :=
    imap (fun idx log =>
            PGActivityLog.mk (child_ID (User.ID user) idx) (User.ID user)
              (DataEntry.Key log) (DataEntry.Value log)
              (DataEntry.Timestamp log) (DataEntry.Metadata log))
         (User.ActivityLog user) in
  let transactions :=
    imap (fun idx tx =>
            PGTransactions.mk (child_ID (User.ID user) idx) (User.ID user)
              (DataEntry.Key tx) (DataEntry.Value tx)
              (DataEntry.Timestamp tx) (DataEntry.Metadata tx))
         (User.Transactions user) in
  let '(messages, attachments) := messages_and_attachments user in
  let connectionsJSON :=
    json_Marshal_strings (SocialMedia.Connections (User.SocialMedia user)) in
  let pgSocialMedia :=
    PGSocialMedia.mk (User.ID user) (User.ID user) connectionsJSON in
  let posts :=
    imap (fun idx post =>
            PGPosts.mk (child_ID (User.ID user) idx) (User.ID user)
              (DataEntry.Key post) (DataEntry.Value post)
              (DataEntry.Timestamp post) (DataEntry.Metadata post))
         (SocialMedia.Posts (User.SocialMedia user)) in
  let groups :=
    map (fun group =>
           PGGroups.mk (Group.ID group) (User.ID user) (Group.Name group)
             (Group.Joined group))
        (SocialMedia.Groups (User.SocialMedia user)) in
  let pgLargeData :=
    PGLargeData.mk (User.ID user) (User.ID user)
      (LargeData.Blob1 (User.LargeData user))
      (LargeData.Blob2 (User.LargeData user))
      (LargeData.Blob3 (User.LargeData user))
      (LargeData.Blob4 (User.LargeData user))
      (LargeData.Blob5 (User.LargeData user)) in
  TransformedUser.mk pgUser pgAddress pgProfile education experience
    pgPreferences settings activityLog transactions messages attachments
    pgSocialMedia posts groups pgLargeData.

(** One step of [Load]: the line printed before the insert, the insert, and
    the early return with the tagged error when it fails. *)
Definition insert (rows : Rows) (count : nat) (what table : string)
    (next : World -> World * option error) (w : World)
  : World * option error :=
  let w1 := Print w ("Batch inserting " +:+ pretty count +:+ " " +:+ what
                     +:+ "...
") in
  match CreateInBatches rows 500 (postgresDB (receiver w1)) with
  | (db, Some err) =>
      (with_postgres w1 db,
       Some (WrapError ("failed to insert " +:+ table +:+ ": ") err))
  | (db, None) => next (with_postgres w1 db)
  end.

(** [if len(rows) > 0 { ... }] around such a step. *)
Definition insert_if_any (rows : Rows) (count : nat) (what table : string)
    (next : World -> World * option error) (w : World)
  : World * option error :=
  if (0 <? count)%nat then insert rows count what table next w else next w.

Definition Load (ctx : bool) (items : list (TransformedUser.t Time JSON))
    (w : World) : World * option error :=
  if (length items =? 0)%nat then (w, None)
  else
    let users := map TransformedUser.User items in
    let addresses := map TransformedUser.Address items in
    let profiles := map TransformedUser.Profile items in
    let allEducation := flat_map TransformedUser.Education items in
    let allExperience := flat_map TransformedUser.Experience items in
    let preferences := map TransformedUser.Preferences items in
    let allSettings := flat_map TransformedUser.Settings items in
    let allActivityLog := flat_map TransformedUser.ActivityLog items in
    let allTransactions := flat_map TransformedUser.Transactions items in
    let allMessages := flat_map TransformedUser.Messages items in
    let allAttachments := flat_map TransformedUser.Attachments items in
    let socialMedia := map TransformedUser.SocialMedia items in
    let allPosts := flat_map TransformedUser.Posts items in
    let allGroups := flat_map TransformedUser.Groups items in
    let largeData := map TransformedUser.LargeData items in
    (insert (Users users) (length users) "users" "users"
    (insert (Addresses addresses) (length addresses) "addresses" "addresses"
    (insert (Profiles profiles) (length profiles) "profiles" "profiles"
    (insert_if_any (EducationRows allEducation) (length allEducation)
       "education records" "education"
    (insert_if_any (ExperienceRows allExperience) (length allExperience)
       "experience records" "experience"
    (insert (PreferencesRows preferences) (length preferences)
       "preferences" "preferences"
    (insert_if_any (SettingsRows allSettings) (length allSettings)
       "settings" "settings"
    (insert_if_any (ActivityLogRows allActivityLog) (length allActivityLog)
       "activity logs" "activity log"
    (insert_if_any (TransactionsRows allTransactions)
       (length allTransactions) "transactions" "transactions"
    (insert_if_any (MessagesRows allMessages) (length allMessages)
       "messages" "messages"
    (insert_if_any (AttachmentsRows allAttachments) (length allAttachments)
       "attachments" "attachments"
    (insert (SocialMediaRows socialMedia) (length socialMedia)
       "social media records" "social media"
    (insert_if_any (PostsRows allPosts) (length allPosts) "posts" "posts"
    (insert_if_any (GroupsRows allGroups) (length allGroups)
       "groups" "groups"
    (insert (LargeDataRows largeData) (length largeData)
       "large data records" "large data"
    (fun w1 =>
       (Print w1 ("✓ Batch inserted " +:+ pretty (length items)
                  +:+ " users with all related data!
"), None))))))))))))))))) w.

Definition PostProcess (ctx : bool) (w : World) : World * option error :=
  (Print w "ETL pipeline completed successfully!
", None).

End UserETL.

(** *** main.go *)

Section Main.
Context {E T S : Type}.

(** What [main] gets from outside: the environment, the drivers, the file
    system and the profiler.  The lines of the performance report, which
    [main] and [generateComparisonReport] format from the row counts of the
    tables and the elapsed time, are kept as they come. *)
Record Env : Type := mkEnv {
  godotenv_Load : option error;
  MONGODB_URL : string;
  POSTGRES_URL : string;
  mongo_Connect : option error;
  client_Ping : option error;
  gorm_Open : option error;
  os_Create_cpu_prof : option error;
  pprof_StartCPUProfile : option error;
  runtime_NumCPU : Z;
  os_Create_mem_prof : option error;
  performance_report : list string
}.

Definition connectMongoDB (env : Env) : option error :=
  match mongo_Connect env with
  | Some err => Some err
  | None => client_Ping env
  end.

Definition connectPostgres (env : Env) : option error := gorm_Open env.

(** How [main] ends: the exit status and what [main] itself has printed. *)
Record Exit : Type := mkExit {
  status : Z;
  printed : list string
}.

Definition Println (out : list string) (text : string) : list string :=
  out ++ [text +:+ "
"].

(** [main]; [userETL] is the processor made by [NewUserETL], [sched] the
    interleaving of the pipeline goroutines of [RunAll] and [run] that of
    the goroutines of the pipeline.  The deferred calls and the calls of the
    profiler and of the garbage collector that return nothing to [main] are
    left out. *)
Definition main (env : Env) (userETL : etl.ETLProcessor E T S)
    (sched : list etl.maction) (run : list (@etl.action E)) (world : S)
  : res Exit :=
  let out := Println [] "ETL with Database Example (Go)" in
  let out := Println out "================================
" in
  let out :=
    match godotenv_Load env with
    | Some _ =>
        out ++ ["Warning: .env file not found, using environment variables
"]
    | None => out
    end in
  let mongoURL := MONGODB_URL env in
  let postgresURL := POSTGRES_URL env in
  if (String.eqb mongoURL "" || String.eqb postgresURL "")%bool then
    Ok (mkExit 1 (Println out "ERROR: MONGODB_URL and POSTGRES_URL must be set"))
  else
  let ctx := false in
  let out := Println out "Connecting to databases..." in
  match connectMongoDB env with
  | Some err =>
      Ok (mkExit 1 (out ++ ["Failed to connect to MongoDB: " +:+ Error err
                            +:+ "
"]))
  | None =>
  match connectPostgres env with
  | Some err =>
      Ok (mkExit 1 (out ++ ["Failed to connect to PostgreSQL: " +:+ Error err
                            +:+ "
"]))
  | None =>
  let out := Println out "Connected successfully!
" in
  match os_Create_cpu_prof env with
  | Some err =>
      Ok (mkExit 1 (out ++ ["Failed to create CPU profile: " +:+ Error err
                            +:+ "
"]))
  | None =>
  match pprof_StartCPUProfile env with
  | Some err =>
      Ok (mkExit 1 (out ++ ["Failed to start CPU profile: " +:+ Error err
                            +:+ "
"]))
  | None =>
  let numCPUs := runtime_NumCPU env in
  let bucketConfig :=
    bucket.mkConfig 500 (5 * Second) (int64 (numCPUs * 2)) in
  let '(managerConfig, manager) :=
    etl.NewManager S (etl.mkConfig 1) bucketConfig in
  let manager :=
    etl.AddPipelineGeneric manager userETL "user_migration_pipeline" run in
  let out :=
    out ++ ["✓ Adding User ETL Pipeline (MongoDB -> PostgreSQL)
"] in
  let out :=
    out ++ ["  - Batch Size: " +:+ pretty (bucket.BatchSize bucketConfig)
            +:+ "
"] in
  let out :=
    out ++ ["  - Workers: " +:+ pretty (bucket.WorkerNum bucketConfig)
            +:+ " (CPUs: " +:+ pretty numCPUs +:+ ")
"] in
  let out :=
    out ++ ["  - Manager Workers: " +:+ pretty (etl.WorkerNum managerConfig)
            +:+ "

"] in
  let out := Println out "--- Starting ETL pipeline ---
" in
  match etl.RunAll manager sched ctx world with
  | Ok outcome =>
      (* [err = manager.RunAll(ctx)], and then
         [memFile, err := os.Create("mem.prof")]: the same [err] *)
      let err := etl.returned outcome in
      let err := os_Create_mem_prof env in
      match err with
      | Some err =>
          Ok (mkExit 1 (out ++ ["
=== Error running pipeline: " +:+ Error err +:+ " ===
"]))
      | None => Ok (mkExit 0 (out ++ performance_report env))
      end
  | Blocks => Blocks
  | Panics => Panics
  end
  end end end end.

End Main.

End benchmark.

Import bucket etl.

(** * Vocabulary of the properties, and small concrete systems *)

(** A handler that refuses every batch, and one that accepts every batch. *)
Definition refuse : @ProcessFunc Z unit :=
  fun _ _ h => (h, Some (ErrorString "load failed")).

Definition accept : @ProcessFunc Z unit :=
  fun _ _ h => (h, None).

(** The system reached by submitting 7 to a fresh one-worker engine of batch
    size 1 whose handler refuses every batch. *)
Definition seven_queued : @bucket.state Z unit :=
  mkState (mkBucket (bucket.mkConfig 1 (5 * Second) 1) (Chan [7%Z] 1 false))
          false false [Looping []] [] () [] [7%Z].

Definition seven_refused : @bucket.state Z unit :=
  mkState (mkBucket (bucket.mkConfig 1 (5 * Second) 1) (Chan [] 1 false))
          false false [Returned [7%Z] (Some (ErrorString "load failed"))] [] ()
          [mkInvocation 0 [7%Z] (Some (ErrorString "load failed"))] [7%Z].

(** What a worker still holds in its buffer for a later flush. *)
Definition pending {T} (w : @wstate T) : list T :=
  match w with
  | Looping queue => queue
  | _ => []
  end.

(** The batches handed to the handler so far, in the order of the calls. *)
Definition delivered {T H} (st : @bucket.state T H) : list (list T) :=
  map inv_batch (history st).

(** Every item accepted by [Consume] is in exactly one place: in a batch
    already handed to the handler, in the buffer of a worker still in its
    loop, or in the intake. *)
Definition conserved {T H} (st : @bucket.state T H) : Prop :=
  consumed st ≡ₚ concat (delivered st) ++ concat (map pending (workers st))
                 ++ buf (consumer (st_bucket st)).

(** The error a worker goroutine puts into [errCh]. *)
Definition reported (i : nat) (err : error) : error :=
  WrapError ("worker " +:+ pretty i +:+ ": ") err.

Definition exited_count {T} (ws : list (@wstate T)) : nat :=
  length (List.filter is_exited ws).

(** The bookkeeping of failures: a refused batch is known either to the
    worker that has just returned with the error or, once its goroutine has
    finished, to [errCh]; and [errCh] holds nothing else. *)
Definition accounted {T H} (st : @bucket.state T H) : Prop :=
  (Z.of_nat (length (workers st))
   <= bucket.WorkerNum (bucket.cfg (st_bucket st)))%Z /\
  length (errCh st) <= exited_count (workers st) /\
  (forall inv err, inv ∈ history st -> inv_result inv = Some err ->
     workers st !! inv_worker inv
       = Some (Returned (inv_batch inv) (Some err)) \/
     (workers st !! inv_worker inv = Some Exited /\
      reported (inv_worker inv) err ∈ errCh st)) /\
  (forall i queue err, workers st !! i = Some (Returned queue (Some err)) ->
     mkInvocation i queue (Some err) ∈ history st) /\
  (forall e, e ∈ errCh st ->
     exists i queue err, e = reported i err /\
                         mkInvocation i queue (Some err) ∈ history st) /\
  (cancel_called st = true <-> errCh st <> []).

(** A worker that is still in its loop, or has returned nil, has no refused
    batch on record. *)
Definition blameless {T} (w : @wstate T) : Prop :=
  is_exited w = false /\ forall queue err, w <> Returned queue (Some err).

(** No call of the handler has returned an error. *)
Definition no_failure {T H} (st : @bucket.state T H) : Prop :=
  forall inv, inv ∈ history st -> inv_result inv = None.

Definition all_looping {T H} (st : @bucket.state T H) : Prop :=
  forall i w, workers st !! i = Some w -> exists queue, w = Looping queue.

Definition drained {T H} (st : @bucket.state T H) : Prop :=
  closed (consumer (st_bucket st)) = true /\ buf (consumer (st_bucket st)) = [].

(** Without cancellation and without a refused batch, a worker leaves its
    loop only on a closed and drained intake. *)
Definition leaves_on_drained {T H} (st : @bucket.state T H) : Prop :=
  ctx_done st = false -> no_failure st -> all_looping st \/ drained st.

(** The schedule that winds the workers down once [procCtx] is cancelled:
    a worker in its loop takes [<-ctx.Done()], and every goroutine whose
    [worker] has returned finishes. *)
Fixpoint wind_down {T} (i : nat) (ws : list (@wstate T))
  : list (@bucket.action T) :=
  match ws with
  | [] => []
  | w :: rest =>
      match w with
      | Looping _ => [WCtxDone i; WReport i]
      | Returned _ _ => [WReport i]
      | Exited => []
      end ++ wind_down (S i) rest
  end.

(** The invariant of a running engine. *)
Definition sound {T H} (st : @bucket.state T H) : Prop :=
  conserved st /\ accounted st /\ leaves_on_drained st.

(** A two-worker engine of batch size 2 that received 1, 2 and 3 and was
    closed: the state when [Run] returns. *)
Definition three_delivered : @bucket.state Z unit :=
  mkState (mkBucket (bucket.mkConfig 2 (5 * Second) 2) (Chan [] 2 true))
          false false [Exited; Exited] [] ()
          [mkInvocation 0 [1; 3]%Z None; mkInvocation 1 [2%Z] None]
          [1; 2; 3]%Z.

(** A one-worker engine whose context was cancelled while 1 was waiting in
    the intake: the state when [Run] returns. *)
Definition one_left_behind : @bucket.state Z unit :=
  mkState (mkBucket (bucket.mkConfig 2 (5 * Second) 1) (Chan [1%Z] 2 false))
          true false [Exited] [] () [] [1%Z].

(** A two-worker engine of batch size 1 whose handler refused 1 (worker 0)
    and 2 (worker 1), worker 1 being the first to report; 3 is still in the
    intake when [Run] returns. *)
Definition both_refused : @bucket.state Z unit :=
  mkState (mkBucket (bucket.mkConfig 1 (5 * Second) 2) (Chan [3%Z] 1 false))
          false true [Exited; Exited]
          [reported 1 (ErrorString "load failed");
           reported 0 (ErrorString "load failed")] ()
          [mkInvocation 0 [1%Z] (Some (ErrorString "load failed"));
           mkInvocation 1 [2%Z] (Some (ErrorString "load failed"))]
          [1; 2; 3]%Z.

(** The part of a schedule that comes from outside the engine. *)
Definition is_external {T} (a : @bucket.action T) : bool :=
  match a with
  | AConsume _ | AClose | ACancel => true
  | _ => false
  end.

Definition external {T} (sched : list (@bucket.action T)) : list (@bucket.action T) :=
  List.filter is_external sched.

Definition is_tick {T} (a : @bucket.action T) : bool :=
  match a with
  | WTick _ => true
  | _ => false
  end.

(** The items of the [Consume] calls of a schedule, in order. *)
Definition submitted {T} (sched : list (@bucket.action T)) : list T :=
  flat_map (fun a => match a with AConsume item => [item] | _ => [] end) sched.

Definition cancels {T} (sched : list (@bucket.action T)) : bool :=
  existsb (fun a => match a with ACancel => true | _ => false end) sched.

(** With one worker the order is kept: the accepted items are the batches
    handed to the handler, then the worker's buffer, then the intake. *)
Definition in_order {T H} (st : @bucket.state T H) : Prop :=
  consumed st = concat (delivered st) ++ concat (map pending (workers st))
                ++ buf (consumer (st_bucket st)).

(** [full B batches]: every batch has [B] items. *)
Definition full {T} (B : nat) (batches : list (list T)) : Prop :=
  Forall (fun batch => length batch = B) batches.

(** Full batches, then at most one shorter, non-empty batch. *)
Definition chunked {T} (B : nat) (batches : list (list T)) : Prop :=
  full B batches \/
  exists front last, batches = front ++ [last] /\ full B front /\
                     0 < length last < B.

(** With one worker, no tick, no cancellation and no refused batch, the
    batches are full while the worker is in its loop, and chunked once it has
    left it. *)
Definition sized {T H} (st : @bucket.state T H) : Prop :=
  let B := Z.to_nat (BatchSize (bucket.cfg (st_bucket st))) in
  ctx_done st = false -> no_failure st ->
  match workers st with
  | [Looping queue] => full B (delivered st) /\ length queue < B
  | [_] => chunked B (delivered st)
  | _ => True
  end.

(** The example of the specification: one worker, batch size 3, the items
    1 to 7 and then [Close]; the schedule and the state when [Run] returns. *)
Definition seven_items_schedule : list (@bucket.action Z) :=
  [AConsume 1; AConsume 2; AConsume 3; WRecv 0; WRecv 0; WRecv 0;
   AConsume 4; AConsume 5; AConsume 6; WRecv 0; WRecv 0; WRecv 0;
   AConsume 7; AClose; WRecv 0; WRecv 0; WReport 0]%Z.

Definition seven_items_done : @bucket.state Z unit :=
  mkState (mkBucket (bucket.mkConfig 3 100000000 1) (Chan [] 3 true))
          false false [Exited] [] ()
          [mkInvocation 0 [1; 2; 3]%Z None; mkInvocation 0 [4; 5; 6]%Z None;
           mkInvocation 0 [7%Z] None]
          [1; 2; 3; 4; 5; 6; 7]%Z.

(** A schedule that serves the client of one worker: every item is received
    as soon as it is submitted. *)
Definition lockstep {T} (items : list T) : list (@bucket.action T) :=
  flat_map (fun item => [AConsume item; WRecv 0]) items
  ++ [AClose; WRecv 0; WReport 0].

(** What goroutine [ran_index] sends to [results] after its [Run]. *)
Definition sent_result {W} (m : Manager W) (r : @ran) : option error :=
  match ran_result r, pipelines m !! ran_index r with
  | Some err, Some p =>
      Some (WrapError ("pipeline " +:+ Name p +:+ " failed: ") err)
  | _, _ => None
  end.

Definition mcancels (sched : list maction) : bool :=
  existsb (fun a => match a with MCancel => true | _ => false end) sched.

(** The schedule in which the pipelines run one after the other. *)
Definition one_by_one (first count : nat) : list maction :=
  flat_map (fun i => [Acquire i; Finish i]) (seq first count).

(** The invariant of a running [RunAll]: the calls of [Run] made so far are
    those of the finished goroutines, one each; [results] holds what they
    sent, in the order of the calls; and a call saw ctx cancelled only if
    ctx is cancelled. *)
Definition managed {W} (m : Manager W) (st : @mstate W) : Prop :=
  length (tasks st) = length (pipelines m) /\
  NoDup (map ran_index (runs st)) /\
  (forall i, i ∈ map ran_index (runs st) <-> tasks st !! i = Some Finished) /\
  buf (results st) = map (sent_result m) (runs st) /\
  (forall r, r ∈ runs st -> ran_ctx r = true -> mctx st = true).

(** Counting the calls of the two hooks of a processor, as a test double
    does: [counting k p] behaves like [p] and counts every call of
    [PreProcess] and of [PostProcess] in slot [k] of a tally kept next to the
    world of [p]. *)
Record counters : Type := mkCounters {
  pre_calls : nat;
  post_calls : nat
}.

Definition tally : Type := nat -> counters.

Definition count_pre (k : nat) (t : tally) : tally :=
  fun j => if decide (j = k)
           then mkCounters (S (pre_calls (t j))) (post_calls (t j))
           else t j.

Definition count_post (k : nat) (t : tally) : tally :=
  fun j => if decide (j = k)
           then mkCounters (pre_calls (t j)) (S (post_calls (t j)))
           else t j.

Definition counting {E T U} (k : nat) (p : ETLProcessor E T U)
  : ETLProcessor E T (U * tally) :=
  mkProcessor
    (fun ctx w => let '(u, r) := Extract p ctx w.1 in ((u, w.2), r))
    (fun ctx e w => let '(u, t) := Transform p ctx e w.1 in ((u, w.2), t))
    (fun ctx data w => let '(u, r) := Load p ctx data w.1 in ((u, w.2), r))
    (fun ctx w => let '(u, r) := PreProcess p ctx w.1 in
                  ((u, count_pre k w.2), r))
    (fun ctx w => let '(u, r) := PostProcess p ctx w.1 in
                  ((u, count_post k w.2), r)).

(** One call of [AddPipelineGeneric]: the processor with its type
    arguments, the name, and the interleaving its run will follow. *)
Record registration (U : Type) : Type := mkRegistration {
  reg_E : Type;
  reg_T : Type;
  reg_processor : ETLProcessor reg_E reg_T U;
  reg_name : string;
  reg_sched : list (@etl.action reg_E)
}.
Arguments mkRegistration {U} reg_E reg_T reg_processor reg_name reg_sched.
Arguments reg_E {U} _.
Arguments reg_T {U} _.
Arguments reg_processor {U} _.
Arguments reg_name {U} _.
Arguments reg_sched {U} _.

(** Registering a counted processor; its slot is its position among the
    pipelines of the manager. *)
Definition register_counting {U} (m : Manager (U * tally))
    (r : registration U) : Manager (U * tally) :=
  AddPipelineGeneric m (counting (length (pipelines m)) (reg_processor r))
                     (reg_name r) (reg_sched r).

Definition register_all {U} (regs : list (registration U))
    (m : Manager (U * tally)) : Manager (U * tally) :=
  fold_left register_counting regs m.

(** What a runner in slot [k] may do to the tally: nothing outside its slot,
    and two calls of each hook when its [Run] returns nil. *)
Definition counts_in_slot {U} (k : nat) (p : ETLRunner (U * tally)) : Prop :=
  forall ctx c w w' c' r,
    Run p ctx c w = Ok (w', c', r) ->
    (forall j, j <> k -> w'.2 j = w.2 j) /\
    (r = None ->
     w'.2 k = mkCounters (2 + pre_calls (w.2 k)) (2 + post_calls (w.2 k))).

(** A processor that writes what it does into a log; it extracts the single
    item 1, and its [Load] fails when [fails] is set. *)
Definition logging (n : string) (fails : bool)
  : ETLProcessor Z Z (list string) :=
  mkProcessor
    (fun _ u => (u ++ [n +:+ ":extract"], ([mkPayload 1%Z None], None)))
    (fun _ e u => (u, e))
    (fun _ data u =>
       (u ++ [n +:+ ":load"],
        if fails then Some (ErrorString "load failed") else None))
    (fun _ u => (u ++ [n +:+ ":pre"], None))
    (fun _ u => (u ++ [n +:+ ":post"], None)).

(** The interleaving of a run that extracts one item: the feeder submits it
    and closes, the only worker receives it, flushes on the closed intake and
    finishes. *)
Definition one_item_run : list (@etl.action Z) :=
  [FRecv; FSend; FRecv; Engine (WRecv 0); Engine (WRecv 0);
   Engine (WReport 0)].

(** A processor whose extraction breaks after the first item: the stream
    delivers 1, then a payload carrying "cursor error". *)
Definition interrupted : ETLProcessor Z Z (list string) :=
  mkProcessor
    (fun _ u =>
       (u ++ ["extract"],
        ([mkPayload 1%Z None;
          mkPayload 0%Z (Some (ErrorString "cursor error"));
          mkPayload 2%Z None], None)))
    (fun _ e u => (u, e))
    (fun _ data u => (u ++ ["load"], None))
    (fun _ u => (u ++ ["pre"], None))
    (fun _ u => (u ++ ["post"], None)).

(** The manager of the example of the specification: pipelines A, B and C,
    where the load step of B fails; at most two run at a time. *)
Definition three_pipelines : Manager (list string) :=
  AddPipelineGeneric
    (AddPipelineGeneric
       (AddPipelineGeneric
          (NewManager (list string) (etl.mkConfig 2) (bucket.mkConfig 2 0 1)).2
          (logging "A" false) "A" one_item_run)
       (logging "B" true) "B" one_item_run)
    (logging "C" false) "C" one_item_run.

Definition three_pipelines_schedule : list maction :=
  [Acquire 0; Acquire 1; Finish 1; Acquire 2; Finish 0; Finish 2].

Definition three_pipelines_outcome : @outcome (list string) :=
  mkOutcome
    (Some (WrapError "pipeline B failed: "
             (WrapError "ETL run failed: "
                (WrapError "failed to run ETL: "
                   (WrapError "worker 0: " (ErrorString "load failed"))))))
    ["B:pre"; "B:pre"; "B:extract"; "B:load"; "A:pre"; "A:pre";
     "A:extract"; "A:load"; "A:post"; "A:post"; "C:pre"; "C:pre";
     "C:extract"; "C:load"; "C:post"; "C:post"]
    (bucket.mkConfig 2 (5 * Second) 1) false 3
    [mkRan 1 false
       (Some (WrapError "ETL run failed: "
                (WrapError "failed to run ETL: "
                   (WrapError "worker 0: " (ErrorString "load failed")))));
     mkRan 0 false None; mkRan 2 false None].

(** The tally of a running [RunAll] over counted pipelines: nothing counted
    for a pipeline that has not finished, two calls of each hook for one that
    has, as long as no failure has been sent to [results]. *)
Definition tallied {U} (st : @mstate (U * tally)) : Prop :=
  forall k,
    (tasks st !! k <> Some Finished -> (world st).2 k = mkCounters 0 0) /\
    (tasks st !! k = Some Finished -> first_error (buf (results st)) = None ->
     (world st).2 k = mkCounters 2 2).

(** Two counted pipelines, A and C, whose runs succeed, run one after the
    other; the tally and the outcome when [RunAll] returns. *)
Definition two_counted : list (registration (list string)) :=
  [mkRegistration Z Z (logging "A" false) "A" one_item_run;
   mkRegistration Z Z (logging "C" false) "C" one_item_run].

Definition two_counted_tally : tally :=
  count_post 1 (count_post 1 (count_pre 1 (count_pre 1
    (count_post 0 (count_post 0 (count_pre 0 (count_pre 0
       (fun _ => mkCounters 0 0)))))))).

Definition two_counted_outcome : @outcome (list string * tally) :=
  mkOutcome None
    (["A:pre"; "A:pre"; "A:extract"; "A:load"; "A:post"; "A:post";
      "C:pre"; "C:pre"; "C:extract"; "C:load"; "C:post"; "C:post"],
     two_counted_tally)
    (bucket.mkConfig 2 (5 * Second) 1) false 2
    [mkRan 0 false None; mkRan 1 false None].

(** The sizes the engine keeps: the intake within its capacity, the buffer
    of every worker below the batch size, and every batch handed to the
    handler non-empty and within the batch size. *)
Definition bounded {T H} (st : @bucket.state T H) : Prop :=
  let B := BatchSize (bucket.cfg (st_bucket st)) in
  (Z.of_nat (length (buf (consumer (st_bucket st))))
   <= cap (consumer (st_bucket st)))%Z /\
  Forall (fun w => (Z.of_nat (length (pending w)) < B)%Z) (workers st) /\
  Forall (fun batch => 0 < length batch /\ (Z.of_nat (length batch) <= B)%Z)
         (delivered st).

(** The items worker [i] has received so far, in the order it received
    them: those of its batches, then its buffer. *)
Definition received_by {T H} (i : nat) (st : @bucket.state T H) : list T :=
  concat (map inv_batch (filter (fun inv => inv_worker inv = i) (history st)))
  ++ match workers st !! i with
     | Some w => pending w
     | None => []
     end.

(** What every worker has received is, in its order, part of what has left
    the intake. *)
Definition fifo {T H} (st : @bucket.state T H) : Prop :=
  exists taken,
    consumed st = taken ++ buf (consumer (st_bucket st)) /\
    forall i, received_by i st `sublist_of` taken.

(** The calls of the handler that returned an error. *)
Definition failures {T H} (st : @bucket.state T H) : list (@invocation T) :=
  filter (fun inv => inv_result inv <> None) (history st).

(** A worker makes no call of the handler after one that returned an
    error. *)
Definition stops_at_failure {T H} (st : @bucket.state T H) : Prop :=
  forall before inv after,
    history st = before ++ inv :: after -> inv_result inv <> None ->
    forall later, later ∈ after -> inv_worker later <> inv_worker inv.

(** One worker, batch size 2: 1 is submitted and flushed by a tick of the
    timer, then 2 and 3 are submitted and the intake is closed; the schedule
    and the state when [Run] returns. *)
Definition ticked_schedule : list (@bucket.action Z) :=
  [AConsume 1; WRecv 0; WTick 0; AConsume 2; AConsume 3; WRecv 0; WRecv 0;
   AClose; WRecv 0; WReport 0]%Z.

Definition ticked_done : @bucket.state Z unit :=
  mkState (mkBucket (bucket.mkConfig 2 10000000 1) (Chan [] 2 true))
          false false [Exited] [] ()
          [mkInvocation 0 [1%Z] None; mkInvocation 0 [2; 3]%Z None]
          [1; 2; 3]%Z.

(** The pipeline goroutines that hold a slot of [sem]. *)
Definition is_active (g : gstate) : bool :=
  match g with Active => true | _ => false end.

Definition holding {W} (st : @mstate W) : nat :=
  length (List.filter is_active (tasks st)).

(** [sem] counts the goroutines that hold a slot. *)
Definition slotted {W} (m : Manager W) (st : @mstate W) : Prop :=
  length (buf (sem st)) = holding st /\
  (Z.of_nat (length (buf (sem st))) <= cap (sem st))%Z /\
  cap (sem st) = etl.WorkerNum (etl.cfg m) /\
  closed (sem st) = false.

(** Three pipelines on a manager of two slots: the first two have taken a
    slot, the third waits. *)
Definition two_slots : Manager (list string) :=
  AddPipelineGeneric
    (AddPipelineGeneric
       (AddPipelineGeneric
          (NewManager (list string) (etl.mkConfig 2) (bucket.mkConfig 2 0 1)).2
          (logging "A" false) "A" one_item_run)
       (logging "B" false) "B" one_item_run)
    (logging "C" false) "C" one_item_run.

Definition two_slots_taken : @mstate (list string) :=
  mkMState (Chan [(); ()] 2 false) (Chan [] 3 false)
           [Active; Active; Waiting] [] (bucket.mkConfig 2 0 1) false [].



(** What the feeder prints for the error of a stream. *)
Definition printed (r : option error) : list string :=
  match r with
  | Some err => ["ERROR: Failed to extract: " +:+ Error err]
  | None => []
  end.





(** Every entry of the history is a call of the handler by one of the
    workers, on a batch that is not empty, with the result on record. *)
Definition genuine {T H} (f : @ProcessFunc T H) (st : @bucket.state T H)
  : Prop :=
  forall inv, inv ∈ history st ->
    inv_batch inv <> [] /\
    inv_worker inv < length (workers st) /\
    exists cx h, (f cx (inv_batch inv) h).2 = inv_result inv.

(** [results] has room for one result per pipeline and stays open while the
    goroutines run. *)
Definition roomy {W} (m : Manager W) (st : @mstate W) : Prop :=
  cap (results st) = Z.of_nat (length (pipelines m)) /\
  closed (results st) = false.

(** A goroutine that holds a slot, once its [Run] is over. *)
Definition settle (g : gstate) : gstate :=
  if is_active g then Finished else g.

(** Two custom runners on a manager of one slot; the second fails.  The
    second has taken the slot. *)
Definition two_runners : Manager unit :=
  AddRunner
    (AddRunner (NewManager unit (etl.mkConfig 0) (bucket.mkConfig 0 0 0)).2
               (mkRunner "first" (fun _ c w => Ok (w, c, None))))
    (mkRunner "second"
              (fun _ c w => Ok (w, c, Some (ErrorString "refused")))).

(** The primary keys [Transform] gives to the [n] child rows of one kind of
    the user [user_ID]. *)
Definition child_IDs (user_ID : Z) (n : nat) : list Z :=
  map (benchmark.child_ID user_ID) (seq 0 n).

(** User ids for which [user.ID*10000 + idx] does not overflow as long as
    [idx] is below 10000. *)
Definition in_range (user_ID : Z) : Prop :=
  (- 2 ^ 63 <= user_ID * 10000 /\ user_ID * 10000 + 9999 < 2 ^ 63)%Z.

(** A user of the benchmark with the given id, education records and
    messages and nothing else; time stamps, floats and JSON values are
    trivial. *)
Definition plain_user (ID : Z) (education : list benchmark.Education.t)
    (messages : list (benchmark.Message.t unit))
  : benchmark.User.t unit unit :=
  benchmark.User.mk ID "" "" "" "" 0 () ()
    (benchmark.Address.mk "" "" "" "" "" (benchmark.Coordinates.mk () ()))
    (benchmark.Profile.mk "" [] [] education [])
    (benchmark.Preferences.mk "" ""
       (benchmark.NotificationSettings.mk false false false) [])
    [] [] messages (benchmark.SocialMedia.mk [] [] [])
    (benchmark.LargeData.mk "" "" "" "" "").

Definition plain_Transform (user : benchmark.User.t unit unit)
  : benchmark.TransformedUser.t unit unit :=
  benchmark.Transform (fun _ _ => ()) (fun _ => ()) (fun _ => ()) false user.

Definition school (name : string) : benchmark.Education.t :=
  benchmark.Education.mk name "BSc" 2020 "".

(** A message with one attachment. *)
Definition letter (ID : string) : benchmark.Message.t unit :=
  benchmark.Message.mk ID "a" "b" "" "" () false
    [benchmark.Attachment.mk "file" 1 "txt"].

(** The inserts of [Load], in the order of the code: the rows, the words
    printed and the name in the error for each table, and whether the insert
    is made for an empty table too. *)
Section LoadSteps.
Context {Time JSON Mongo DB : Type}.

Inductive presence : Type := Always | IfAny.

Record step : Type := mkStep {
  step_rows : @benchmark.Rows Time JSON;
  step_what : string;
  step_table : string;
  step_presence : presence
}.

Definition size (rows : @benchmark.Rows Time JSON) : nat :=
  match rows with
  | benchmark.Users l => length l
  | benchmark.Addresses l => length l
  | benchmark.Profiles l => length l
  | benchmark.EducationRows l => length l
  | benchmark.ExperienceRows l => length l
  | benchmark.PreferencesRows l => length l
  | benchmark.SettingsRows l => length l
  | benchmark.ActivityLogRows l => length l
  | benchmark.TransactionsRows l => length l
  | benchmark.MessagesRows l => length l
  | benchmark.AttachmentsRows l => length l
  | benchmark.SocialMediaRows l => length l
  | benchmark.PostsRows l => length l
  | benchmark.GroupsRows l => length l
  | benchmark.LargeDataRows l => length l
  end.

Definition Load_steps (items : list (benchmark.TransformedUser.t Time JSON))
  : list step :=
  [mkStep (benchmark.Users (map benchmark.TransformedUser.User items))
          "users" "users" Always;
   mkStep (benchmark.Addresses (map benchmark.TransformedUser.Address items))
          "addresses" "addresses" Always;
   mkStep (benchmark.Profiles (map benchmark.TransformedUser.Profile items))
          "profiles" "profiles" Always;
   mkStep (benchmark.EducationRows
             (flat_map benchmark.TransformedUser.Education items))
          "education records" "education" IfAny;
   mkStep (benchmark.ExperienceRows
             (flat_map benchmark.TransformedUser.Experience items))
          "experience records" "experience" IfAny;
   mkStep (benchmark.PreferencesRows
             (map benchmark.TransformedUser.Preferences items))
          "preferences" "preferences" Always;
   mkStep (benchmark.SettingsRows
             (flat_map benchmark.TransformedUser.Settings items))
          "settings" "settings" IfAny;
   mkStep (benchmark.ActivityLogRows
             (flat_map benchmark.TransformedUser.ActivityLog items))
          "activity logs" "activity log" IfAny;
   mkStep (benchmark.TransactionsRows
             (flat_map benchmark.TransformedUser.Transactions items))
          "transactions" "transactions" IfAny;
   mkStep (benchmark.MessagesRows
             (flat_map benchmark.TransformedUser.Messages items))
          "messages" "messages" IfAny;
   mkStep (benchmark.AttachmentsRows
             (flat_map benchmark.TransformedUser.Attachments items))
          "attachments" "attachments" IfAny;
   mkStep (benchmark.SocialMediaRows
             (map benchmark.TransformedUser.SocialMedia items))
          "social media records" "social media" Always;
   mkStep (benchmark.PostsRows
             (flat_map benchmark.TransformedUser.Posts items))
          "posts" "posts" IfAny;
   mkStep (benchmark.GroupsRows
             (flat_map benchmark.TransformedUser.Groups items))
          "groups" "groups" IfAny;
   mkStep (benchmark.LargeDataRows
             (map benchmark.TransformedUser.LargeData items))
          "large data records" "large data" Always].

(** The inserts that are due: those made for every batch, and those of the
    tables for which the batch has rows. *)
Definition due (s : step) : bool :=
  match step_presence s with
  | Always => true
  | IfAny => (0 <? size (step_rows s))%nat
  end.

Definition plan (items : list (benchmark.TransformedUser.t Time JSON))
  : list step :=
  List.filter due (Load_steps items).

(** A database that keeps a record of the calls of [CreateInBatches]: the
    rows, the batch size and the error returned. *)
Record call : Type := mkCall {
  call_rows : @benchmark.Rows Time JSON;
  call_batchSize : Z;
  call_error : option error
}.

Definition recording
    (CreateInBatches : @benchmark.Rows Time JSON -> Z -> DB -> DB * option error)
  : @benchmark.Rows Time JSON -> Z -> DB * list call ->
    (DB * list call) * option error :=
  fun rows batchSize db =>
    let '(db', r) := CreateInBatches rows batchSize db.1 in
    ((db', db.2 ++ [mkCall rows batchSize r]), r).

Definition accepted (s : step) : call := mkCall (step_rows s) 500 None.

Definition calls (w : @benchmark.World Mongo (DB * list call)) : list call :=
  (benchmark.postgresDB (benchmark.receiver w)).2.

(** The steps of [Load], run one after the other. *)
Fixpoint run
    (CreateInBatches : @benchmark.Rows Time JSON -> Z -> DB -> DB * option error)
    (steps : list step)
    (final : @benchmark.World Mongo DB -> @benchmark.World Mongo DB * option error)
  : @benchmark.World Mongo DB -> @benchmark.World Mongo DB * option error :=
  match steps with
  | [] => final
  | s :: rest =>
      match step_presence s with
      | Always => benchmark.insert CreateInBatches
      | IfAny => benchmark.insert_if_any CreateInBatches
      end (step_rows s) (size (step_rows s)) (step_what s) (step_table s)
          (run CreateInBatches rest final)
  end.

End LoadSteps.

(** A database that refuses the rows of the profiles, and a batch of one
    user. *)
Definition no_profiles
  : @benchmark.Rows unit unit -> Z -> unit -> unit * option error :=
  fun rows _ db =>
    (db, match rows with
         | benchmark.Profiles _ => Some (ErrorString "duplicate key")
         | _ => None
         end).

Definition one_user : list (benchmark.TransformedUser.t unit unit) :=
  [plain_Transform (plain_user 1 [school "a"] [])].

(** The manager [main] builds for the processor [userETL]. *)
Definition main_manager {E T S} (env : benchmark.Env)
    (userETL : ETLProcessor E T S) (run : list (@etl.action E)) : Manager S :=
  AddPipelineGeneric
    (NewManager S (etl.mkConfig 1)
       (bucket.mkConfig 500 (5 * Second)
          (int64 (benchmark.runtime_NumCPU env * 2)))).2
    userETL "user_migration_pipeline" run.

(** An environment in which everything outside the pipeline works, on a
    machine with one CPU; the interleaving of a run of two workers on one
    item; and the pipeline of the processor whose [Load] fails. *)
Definition healthy : benchmark.Env :=
  benchmark.mkEnv None "mongodb://localhost" "postgres://localhost"
    None None None None None 1 None
    ["
=== ETL process completed successfully in 0.01s ===
"].

Definition two_worker_run : list (@etl.action Z) :=
  [FRecv; FSend; FRecv; Engine (WRecv 0); Engine (WRecv 0);
   Engine (WReport 0); Engine (WRecv 1); Engine (WReport 1)].

(** How [main] ends in the healthy environment on that pipeline. *)
Definition healthy_exit : benchmark.Exit :=
  benchmark.mkExit 0
    ["ETL with Database Example (Go)
";
     "================================

";
     "Connecting to databases...
";
     "Connected successfully!

";
     "✓ Adding User ETL Pipeline (MongoDB -> PostgreSQL)
";
     "  - Batch Size: 500
";
     "  - Workers: 2 (CPUs: 1)
";
     "  - Manager Workers: 1

";
     "--- Starting ETL pipeline ---

";
     "
=== ETL process completed successfully in 0.01s ===
"].

(** The configuration [bucket.New] leaves behind the pointer it is given. *)
Definition defaults (c : bucket.Config) : bucket.Config := (New unit c).1.1.

(** A runner that leaves the shared bucket configuration as it is or with
    the defaults written into it, and that writes them when it succeeds. *)
Definition writes_defaults {W} (p : ETLRunner W) : Prop :=
  forall ctx c w w' c' r,
    Run p ctx c w = Ok (w', c', r) ->
    (c' = c \/ c' = defaults c) /\ (r = None -> c' = defaults c).

(** One call of [AddPipelineGeneric]. *)
Definition register {U} (m : Manager U) (r : registration U) : Manager U :=
  AddPipelineGeneric m (reg_processor r) (reg_name r) (reg_sched r).

(** What [m.bucketConfig] points to while [RunAll] runs. *)
Definition shared {W} (m : Manager W) (st : @mstate W) : Prop :=
  (bcfg st = bucketConfig m \/ bcfg st = defaults (bucketConfig m)) /\
  ((exists r, r ∈ runs st /\ ran_result r = None) ->
   bcfg st = defaults (bucketConfig m)).

(** One pipeline on a manager given an empty bucket configuration, and the
    outcome of its [RunAll]. *)
Definition one_registered : list (registration (list string)) :=
  [mkRegistration Z Z (logging "A" false) "A" one_item_run].

Definition one_registered_outcome : @outcome (list string) :=
  mkOutcome None
    ["A:pre"; "A:pre"; "A:extract"; "A:load"; "A:post"; "A:post"]
    (bucket.mkConfig 100 (5 * Second) 1) false 1 [mkRan 0 false None].

(** The actions by which a worker leaves: they take nothing from the
    intake. *)
Definition is_leaving {T} (a : @bucket.action T) : bool :=
  match a with
  | WCtxDone _ | WReport _ => true
  | _ => false
  end.

(** * Properties *)

(** ** Configuration defaults *)


(** ** Closing the intake *)

Lemma closed_stays_closed {T H} (f : @ProcessFunc T H) sched
    (st st' : @bucket.state T H) :
  bucket.exec f sched st = Ok st' ->
  closed (consumer (st_bucket st)) = true ->
  closed (consumer (st_bucket st')) = true.
Proof.
  revert st. induction sched as [|a sched IH]; intros st; cbn.
  - by intros [= <-].
  - destruct (bucket.step f a st) as [st1| |] eqn:Hstep; try done.
    intros Hexec Hcl. apply (IH _ Hexec). clear IH Hexec.
    destruct a as [item| | |i|i|i|i]; cbn in Hstep.
    + unfold Consume, chan_send in Hstep. by rewrite Hcl in Hstep.
    + unfold Close, chan_close in Hstep. by rewrite Hcl in Hstep.
    + by injection Hstep as <-.
    + destruct (workers st !! i) as [[queue| |]|]; try done.
      destruct (procCtx_done st); try done. injection Hstep as <-.
      unfold after_flush. by destruct (flush _ _ _ _) as [[? ?] ?].
    + destruct (workers st !! i) as [[queue| |]|]; try done.
      injection Hstep as <-.
      unfold after_flush. by destruct (flush _ _ _ _) as [[? ?] ?].
    + destruct (workers st !! i) as [[queue| |]|]; try done.
      unfold chan_recv in Hstep.
      destruct (buf (consumer (st_bucket st))) as [|x rest].
      * rewrite Hcl in Hstep. injection Hstep as <-.
        unfold after_flush. by destruct (flush _ _ _ _) as [[? ?] ?].
      * destruct (_ <=? _)%Z; injection Hstep as <-; [|done].
        unfold after_flush. by destruct (flush _ _ _ _) as [[? ?] ?].
    + destruct (workers st !! i) as [[queue|queue [err|]|]|]; try done;
        by injection Hstep as <-.
Qed.

(** C10. On a bucket whose intake is still open, [Close] goes through once;
    after it a second [Close] panics and so does every [Consume], at once
    and after any steps the workers of a running engine take in between. *)
Theorem close_twice_or_consume_after_close_panics (T : Type) (b : Bucket T) :
  closed (consumer b) = false ->
  exists b1,
    Close b = Ok b1 /\
    Close b1 = Panics /\
    (forall item, Consume b1 item = Panics) /\
    (forall H (f : @ProcessFunc T H) sched (st st' : @bucket.state T H),
       st_bucket st = b1 -> bucket.exec f sched st = Ok st' ->
       bucket.step f AClose st' = Panics /\
       forall item, bucket.step f (AConsume item) st' = Panics).
Proof.
  intros Hopen. unfold Close at 1, chan_close. rewrite Hopen.
  eexists; split; [reflexivity|]. split_and!; try done.
  intros H f sched st st' Hb Hexec.
  pose proof (closed_stays_closed f sched st st' Hexec) as Hcl.
  rewrite Hb in Hcl. specialize (Hcl eq_refl). cbn.
  unfold Close, Consume, chan_close, chan_send. by rewrite Hcl.
Qed.

Lemma close_twice_or_consume_after_close_panics_witness :
  exists b1,
    Close (New nat (bucket.mkConfig 2 0 0)).1.2 = Ok b1 /\
    Close b1 = Panics /\
    (forall item, Consume b1 item = Panics) /\
    (forall H (f : @ProcessFunc nat H) sched (st st' : @bucket.state nat H),
       st_bucket st = b1 -> bucket.exec f sched st = Ok st' ->
       bucket.step f AClose st' = Panics /\
       forall item, bucket.step f (AConsume item) st' = Panics).
Proof.
  apply (close_twice_or_consume_after_close_panics nat
           (New nat (bucket.mkConfig 2 0 0)).1.2).
  reflexivity.
Defined.

(** ** Running a manager without pipelines *)

(** C9. [RunAll] on a manager without pipelines returns the error
    "no pipelines registered", whatever the schedule, and starts no pipeline
    goroutine: no [Run] is called and the world, the bucket configuration and
    ctx are as before. *)
Theorem RunAll_no_pipelines (W : Type) (m : Manager W)
    (sched : list maction) (ctx : bool) (w : W) :
  pipelines m = [] ->
  RunAll m sched ctx w
  = Ok (mkOutcome (Some (ErrorString "no pipelines registered"))
                  w (bucketConfig m) ctx 0 []).
Proof. intros Hnil. unfold RunAll. rewrite Hnil. reflexivity. Qed.

Lemma RunAll_no_pipelines_witness :
  RunAll (NewManager unit (etl.mkConfig 0) (bucket.mkConfig 0 0 0)).2
         [Acquire 0; Finish 0] false ()
  = Ok (mkOutcome (Some (ErrorString "no pipelines registered"))
                  () (bucket.mkConfig 0 0 0) false 0 []).
Proof.
  apply (RunAll_no_pipelines unit
           (NewManager unit (etl.mkConfig 0) (bucket.mkConfig 0 0 0)).2).
  reflexivity.
Defined.

(** ** The buffer of a worker around a handler call *)

Lemma flush_cases {T H} (f : @ProcessFunc T H) ctx queue h :
  (queue = [] /\ flush f ctx queue h = ([], None, h)) \/
  (queue <> [] /\ exists h',
      (f ctx queue h = (h', None) /\ flush f ctx queue h = ([], None, h')) \/
      (exists err, f ctx queue h = (h', Some err) /\
                   flush f ctx queue h = (queue, Some err, h'))).
Proof.
  unfold flush. destruct queue as [|x queue]; [left; auto|right].
  split; [discriminate|]. simpl.
  destruct (f ctx (x :: queue) h) as [h' [err|]]; exists h'; eauto.
Qed.

(** C5, as the code has it.  When a step of worker [i] calls the handler and
    the handler accepts the batch, the worker's buffer is empty afterwards;
    when the handler refuses it, the buffer still holds the batch and the
    worker has returned that error, so the buffer is not used again. *)
Theorem buffer_after_handler_call {T H} (f : @ProcessFunc T H)
    (a : @bucket.action T) (st st' : @bucket.state T H) (inv : invocation) :
  bucket.step f a st = Ok st' ->
  history st' = history st ++ [inv] ->
  match inv_result inv with
  | None =>
      workers st' !! inv_worker inv = Some (Looping []) \/
      workers st' !! inv_worker inv = Some (Returned [] None)
  | Some err =>
      workers st' !! inv_worker inv
      = Some (Returned (inv_batch inv) (Some err))
  end.
Proof.
  assert (Hnoapp : forall (l : list (@invocation T)) x, l = l ++ [x] -> False).
  { intros l x Hl. apply (f_equal length) in Hl. rewrite length_app in Hl.
    simpl in Hl. lia. }
  assert (Hflush : forall b i w queue k,
    workers st !! i = Some w ->
    history (after_flush f st b i queue k) = history st ++ [inv] ->
    match inv_result inv with
    | None => workers (after_flush f st b i queue k) !! inv_worker inv
              = Some (k [] None)
    | Some err => workers (after_flush f st b i queue k) !! inv_worker inv
                  = Some (k (inv_batch inv) (Some err))
    end).
  { intros b i w queue k Hi. unfold after_flush.
    pose proof (lookup_lt_Some _ _ _ Hi) as Hlt.
    destruct (flush_cases f (procCtx_done st) queue (hstate st))
      as [[-> ->]|[Hne [h' [[_ ->]|[err [_ ->]]]]]]; cbn.
    - intros Hh. destruct (Hnoapp _ _ Hh).
    - destruct queue; [congruence|]. intros Hh.
      apply app_inv_head in Hh. injection Hh as <-. cbn.
      by rewrite list_lookup_insert_eq.
    - destruct queue; [congruence|]. intros Hh.
      apply app_inv_head in Hh. injection Hh as <-. cbn.
      by rewrite list_lookup_insert_eq. }
  destruct a as [item| | |i|i|i|i]; cbn.
  - destruct (Consume _ _); try discriminate. intros [= <-]. cbn.
    intros Hh. destruct (Hnoapp _ _ Hh).
  - destruct (Close _); try discriminate. intros [= <-]. cbn.
    intros Hh. destruct (Hnoapp _ _ Hh).
  - intros [= <-]. cbn. intros Hh. destruct (Hnoapp _ _ Hh).
  - destruct (workers st !! i) as [[queue| |]|] eqn:Hi; try discriminate.
    destruct (procCtx_done st); try discriminate. intros [= <-] Hh.
    specialize (Hflush _ _ _ _ _ Hi Hh). destruct (inv_result inv); auto.
  - destruct (workers st !! i) as [[queue| |]|] eqn:Hi; try discriminate.
    intros [= <-] Hh.
    specialize (Hflush _ _ _ _ _ Hi Hh). destruct (inv_result inv); auto.
  - destruct (workers st !! i) as [[queue| |]|] eqn:Hi; try discriminate.
    destruct (chan_recv _) as [[[item|] ch]| |]; try discriminate.
    + destruct (_ <=? _)%Z.
      * intros [= <-] Hh.
        specialize (Hflush _ _ _ _ _ Hi Hh). destruct (inv_result inv); auto.
      * intros [= <-]. cbn. intros Hh. destruct (Hnoapp _ _ Hh).
    + intros [= <-] Hh.
      specialize (Hflush _ _ _ _ _ Hi Hh). destruct (inv_result inv); auto.
  - destruct (workers st !! i) as [[queue|queue [err|]|]|] eqn:Hi;
      try discriminate; intros [= <-]; cbn; intros Hh;
      destruct (Hnoapp _ _ Hh).
Qed.

Lemma buffer_after_handler_call_witness :
  workers seven_refused !! 0
  = Some (Returned [7%Z] (Some (ErrorString "load failed"))).
Proof.
  exact (buffer_after_handler_call refuse (WRecv 0) seven_queued seven_refused
           (mkInvocation 0 [7%Z] (Some (ErrorString "load failed")))
           eq_refl eq_refl).
Defined.

(** C5, as stated, fails: a one-worker engine of batch size 1 receives the
    item 7, its handler refuses the batch, and the worker's buffer still
    holds 7 after the call. *)
Lemma buffer_kept_when_handler_refuses :
  bucket.exec refuse [AConsume 7%Z; WRecv 0]
    (Run_start (New Z (bucket.mkConfig 1 0 0)).1.2 false ())
  = Ok seven_refused /\
  history seven_refused
  = [mkInvocation 0 [7%Z] (Some (ErrorString "load failed"))] /\
  exists queue r, workers seven_refused !! 0 = Some (Returned queue r) /\
                  queue <> [].
Proof.
  split; [reflexivity|]. split; [reflexivity|].
  eexists _, _. split; [reflexivity|discriminate].
Qed.

(** ** Invariants of a running engine *)

Section EngineInvariants.
Context {T H : Type}.
Variable f : @ProcessFunc T H.

Lemma after_flush_cases (st : @bucket.state T H) b i queue k :
  (queue = [] /\
   after_flush f st b i queue k
   = mkState b (ctx_done st) (cancel_called st)
             (<[i := k [] None]> (workers st)) (errCh st) (hstate st)
             (history st) (consumed st)) \/
  (queue <> [] /\ exists h',
     f (procCtx_done st) queue (hstate st) = (h', None) /\
     after_flush f st b i queue k
     = mkState b (ctx_done st) (cancel_called st)
               (<[i := k [] None]> (workers st)) (errCh st) h'
               (history st ++ [mkInvocation i queue None]) (consumed st)) \/
  (queue <> [] /\ exists h' err,
     f (procCtx_done st) queue (hstate st) = (h', Some err) /\
     after_flush f st b i queue k
     = mkState b (ctx_done st) (cancel_called st)
               (<[i := k queue (Some err)]> (workers st)) (errCh st) h'
               (history st ++ [mkInvocation i queue (Some err)])
               (consumed st)).
Proof.
  unfold after_flush.
  destruct (flush_cases f (procCtx_done st) queue (hstate st))
    as [[-> ->]|[Hne [h' [[Hf ->]|[err [Hf ->]]]]]].
  - left; auto.
  - right; left. split; [done|]. exists h'. split; [done|].
    destruct queue; [done|reflexivity].
  - right; right. split; [done|]. exists h', err. split; [done|].
    destruct queue; [done|reflexivity].
Qed.

Lemma Consume_Ok (b b' : Bucket T) item :
  Consume b item = Ok b' ->
  closed (consumer b) = false /\
  (Z.of_nat (length (buf (consumer b))) < cap (consumer b))%Z /\
  b' = mkBucket (bucket.cfg b)
                (Chan (buf (consumer b) ++ [item]) (cap (consumer b)) false).
Proof.
  unfold Consume, chan_send. destruct (closed (consumer b)); [done|].
  destruct (Z.ltb_spec (Z.of_nat (length (buf (consumer b)))) (cap (consumer b)));
    [|done].
  by intros [= <-].
Qed.

Lemma Close_Ok (b b' : Bucket T) :
  Close b = Ok b' ->
  closed (consumer b) = false /\
  b' = mkBucket (bucket.cfg b)
                (Chan (buf (consumer b)) (cap (consumer b)) true).
Proof.
  unfold Close, chan_close. destruct (closed (consumer b)); [done|].
  by intros [= <-].
Qed.

Lemma chan_recv_Some (ch ch' : chan T) item :
  chan_recv ch = Ok (Some item, ch') ->
  buf ch = item :: buf ch' /\ cap ch' = cap ch /\ closed ch' = closed ch.
Proof.
  unfold chan_recv. destruct (buf ch) as [|x rest] eqn:Hbuf.
  - destruct (closed ch); discriminate.
  - by intros [= <- <-].
Qed.

Lemma chan_recv_None (ch ch' : chan T) :
  chan_recv ch = Ok (None, ch') ->
  buf ch = [] /\ closed ch = true /\ ch' = ch.
Proof.
  unfold chan_recv. destruct (buf ch) as [|x rest] eqn:Hbuf; [|done].
  destruct (closed ch); [|done]. by intros [= <-].
Qed.

Ltac step_cases Hstep :=
  match type of Hstep with
  | bucket.step _ ?a _ = Ok _ =>
      destruct a; cbn [bucket.step] in Hstep;
      repeat match type of Hstep with
        | context [match ?x with _ => _ end] =>
            destruct x eqn:?; try discriminate Hstep
        end;
      injection Hstep as <-;
      repeat match goal with
        | Hc : Consume _ _ = Ok _ |- _ =>
            apply Consume_Ok in Hc; destruct Hc as (? & ? & ->)
        | Hc : Close _ = Ok _ |- _ =>
            apply Close_Ok in Hc; destruct Hc as (? & ->)
        | Hc : chan_recv _ = Ok (Some _, _) |- _ =>
            apply chan_recv_Some in Hc; destruct Hc as (? & ? & ?)
        | Hc : chan_recv _ = Ok (None, _) |- _ =>
            apply chan_recv_None in Hc; destruct Hc as (? & ? & ->)
        end
  end.

Ltac flush_cases :=
  match goal with
  | |- context [after_flush f ?st ?b ?i ?q ?k] =>
      let Hq := fresh "Hqueue" in
      let Hf := fresh "Hcall" in
      let Heq := fresh "Heq" in
      destruct (after_flush_cases st b i q k)
        as [[Hq Heq]|[[Hq [? [Hf Heq]]]|[Hq [? [? [Hf Heq]]]]]];
      rewrite Heq in *; clear Heq
  | _ : context [after_flush f ?st ?b ?i ?q ?k] |- _ =>
      let Hq := fresh "Hqueue" in
      let Hf := fresh "Hcall" in
      let Heq := fresh "Heq" in
      destruct (after_flush_cases st b i q k)
        as [[Hq Heq]|[[Hq [? [Hf Heq]]]|[Hq [? [? [Hf Heq]]]]]];
      rewrite Heq in *; clear Heq
  end.

Lemma step_static a (st st' : @bucket.state T H) :
  bucket.step f a st = Ok st' ->
  bucket.cfg (st_bucket st') = bucket.cfg (st_bucket st) /\
  cap (consumer (st_bucket st')) = cap (consumer (st_bucket st)) /\
  length (workers st') = length (workers st).
Proof.
  intros Hstep. step_cases Hstep; try flush_cases; cbn;
    rewrite ?length_insert; auto.
Qed.

Lemma exec_static sched (st st' : @bucket.state T H) :
  bucket.exec f sched st = Ok st' ->
  bucket.cfg (st_bucket st') = bucket.cfg (st_bucket st) /\
  cap (consumer (st_bucket st')) = cap (consumer (st_bucket st)) /\
  length (workers st') = length (workers st).
Proof.
  revert st. induction sched as [|a sched IH]; intros st; cbn.
  - by intros [= <-].
  - destruct (bucket.step f a st) as [st1| |] eqn:Hstep; try done.
    intros Hexec. apply IH in Hexec. apply step_static in Hstep.
    destruct Hexec as (-> & -> & ->). done.
Qed.

Lemma exec_preserves (P : @bucket.state T H -> Prop) :
  (forall a st st', P st -> bucket.step f a st = Ok st' -> P st') ->
  forall sched st st', bucket.exec f sched st = Ok st' -> P st -> P st'.
Proof.
  intros Hstep sched. induction sched as [|a sched IH]; intros st st'; cbn.
  - by intros [= <-].
  - destruct (bucket.step f a st) as [st1| |] eqn:Hst; try done. eauto.
Qed.

Lemma pending_insert (ws : list (@wstate T)) i w0 w :
  ws !! i = Some w0 ->
  exists before after,
    concat (map pending ws) = before ++ pending w0 ++ after /\
    concat (map pending (<[i := w]> ws)) = before ++ pending w ++ after.
Proof.
  revert i. induction ws as [|w1 ws IH]; intros [|i]; simpl; try done.
  - intros [= ->]. by exists [], (concat (map pending ws)).
  - intros Hi. destruct (IH _ Hi) as (before & after & Hold & Hnew).
    exists (pending w1 ++ before), after.
    by rewrite Hold, Hnew, <- !app_assoc.
Qed.

Lemma step_conserved a st st' :
  conserved st -> bucket.step f a st = Ok st' -> conserved st'.
Proof.
  unfold conserved, delivered. intros Hinv Hstep.
  step_cases Hstep; try flush_cases; cbn;
    rewrite ?map_app, ?concat_app; cbn;
    try match goal with
      | Hw : workers _ !! ?i = Some ?w0
        |- context [<[?i := ?w]> (workers ?st)] =>
          destruct (pending_insert (workers st) i w0 w Hw)
            as (before & after & Hold & ->);
          rewrite Hold in Hinv
      end; cbn in *;
    repeat match goal with
      | Hb : buf _ = _ |- _ => rewrite Hb in *; clear Hb
      | Hq : _ ++ [_] = [] |- _ => by destruct (app_cons_not_nil _ _ _ (eq_sym Hq))
      | Hq : ?queue = [] |- _ => subst queue
      end;
    rewrite ?app_nil_r; rewrite Hinv; try solve_Permutation.
Qed.
Lemma exited_count_le (ws : list (@wstate T)) : exited_count ws <= length ws.
Proof. unfold exited_count. apply List.filter_length_le. Qed.

Lemma exited_count_insert (ws : list (@wstate T)) i w :
  ws !! i = Some w -> is_exited w = false ->
  exited_count (<[i := Exited]> ws) = S (exited_count ws) /\
  exited_count ws < length ws.
Proof.
  unfold exited_count. revert i.
  induction ws as [|w1 ws IH]; intros [|i]; simpl; try done.
  - intros [= ->] ->. split; [done|].
    pose proof (List.filter_length_le is_exited ws). lia.
  - intros Hi Hw. destruct (IH _ Hi Hw) as [IH1 IH2].
    destruct (is_exited w1); simpl; lia.
Qed.

Lemma exited_count_insert_other (ws : list (@wstate T)) i w0 w :
  ws !! i = Some w0 -> is_exited w0 = false -> is_exited w = false ->
  exited_count (<[i := w]> ws) = exited_count ws.
Proof.
  unfold exited_count. revert i.
  induction ws as [|w1 ws IH]; intros [|i]; simpl; try done.
  - by intros [= ->] -> ->.
  - intros Hi Hw0 Hw. specialize (IH _ Hi Hw0 Hw).
    destruct (is_exited w1); simpl; lia.
Qed.

Lemma accounted_blameless (st : @bucket.state T H) i w inv err :
  accounted st -> workers st !! i = Some w -> blameless w ->
  inv ∈ history st -> inv_result inv = Some err -> inv_worker inv <> i.
Proof.
  intros (_ & _ & Hfail & _) Hi [Hne Hnr] Hin Hres Heq.
  destruct (Hfail _ _ Hin Hres) as [Hw|[Hw _]]; rewrite Heq, Hi in Hw;
    injection Hw as ->; [by eapply Hnr|done].
Qed.

(** A step of worker [i] that leaves it in its loop or returns from
    [worker], with or without a call of the handler. *)
Lemma accounted_worker_step (st st' : @bucket.state T H) i w0 w' :
  accounted st ->
  workers st !! i = Some w0 -> blameless w0 -> is_exited w' = false ->
  bucket.cfg (st_bucket st') = bucket.cfg (st_bucket st) ->
  workers st' = <[i := w']> (workers st) ->
  errCh st' = errCh st ->
  cancel_called st' = cancel_called st ->
  (history st' = history st /\ blameless w') \/
  (exists queue, history st' = history st ++ [mkInvocation i queue None] /\
                 blameless w') \/
  (exists queue err,
     history st' = history st ++ [mkInvocation i queue (Some err)] /\
     w' = Returned queue (Some err)) ->
  accounted st'.
Proof.
  intros Hacc Hi Hw0 Hw' Hcfg Hws Herr Hcancel Hhist.
  pose proof (fun inv err => accounted_blameless st i w0 inv err Hacc Hi Hw0)
    as Hother.
  destruct Hacc as (Hlen & Hcount & Hfail & Hret & Hch & Hcan).
  pose proof (lookup_lt_Some _ _ _ Hi) as Hlt.
  unfold accounted. rewrite Hcfg, Hws, Herr, Hcancel, length_insert.
  rewrite (exited_count_insert_other _ _ _ _ Hi (proj1 Hw0) Hw').
  assert (Hsub : forall inv, inv ∈ history st -> inv ∈ history st').
  { intros inv Hin.
    destruct Hhist as [[-> _]|[(q & -> & _)|(q & e & -> & _)]];
      rewrite ?elem_of_app; auto. }
  assert (Hold : forall inv err, inv ∈ history st -> inv_result inv = Some err ->
    <[i := w']> (workers st) !! inv_worker inv
      = Some (Returned (inv_batch inv) (Some err)) \/
    (<[i := w']> (workers st) !! inv_worker inv = Some Exited /\
     reported (inv_worker inv) err ∈ errCh st)).
  { intros inv err Hin Hres.
    rewrite list_lookup_insert_ne
      by (intros Heq; symmetry in Heq; revert Heq; eapply Hother; eauto).
    eauto. }
  split_and!; auto.
  - intros inv err Hin Hres.
    destruct Hhist as [[Hh _]|[(q & Hh & _)|(q & e & Hh & ->)]];
      rewrite Hh in Hin; rewrite ?elem_of_app, ?list_elem_of_singleton in Hin.
    + eauto.
    + destruct Hin as [Hin| ->]; [eauto|done].
    + destruct Hin as [Hin| ->]; [eauto|]. injection Hres as <-. cbn.
      left. by rewrite list_lookup_insert_eq.
  - intros j queue err Hj. destruct (decide (j = i)) as [->|Hne].
    + rewrite list_lookup_insert_eq in Hj by done. injection Hj as ->.
      destruct Hhist as [[_ [_ Hb]]|[(q & _ & [_ Hb])|(q & e & Hh & [= <- <-])]];
        try by (exfalso; eapply Hb).
      rewrite Hh, elem_of_app, list_elem_of_singleton. auto.
    + rewrite list_lookup_insert_ne in Hj by done. eauto.
  - intros e He. destruct (Hch _ He) as (j & q & err & -> & Hin). eauto 10.
Qed.

Lemma accounted_report (st : @bucket.state T H) i queue r :
  accounted st -> workers st !! i = Some (Returned queue r) ->
  accounted
    (match r with
     | Some err =>
         mkState (st_bucket st) (ctx_done st) true
                 (<[i := Exited]> (workers st))
                 (if (Z.of_nat (length (errCh st))
                      <? bucket.WorkerNum (bucket.cfg (st_bucket st)))%Z
                  then errCh st ++ [reported i err] else errCh st)
                 (hstate st) (history st) (consumed st)
     | None =>
         mkState (st_bucket st) (ctx_done st) (cancel_called st)
                 (<[i := Exited]> (workers st))
                 (errCh st) (hstate st) (history st) (consumed st)
     end).
Proof.
  intros Hacc Hi.
  pose proof (lookup_lt_Some _ _ _ Hi) as Hlt.
  destruct (exited_count_insert _ _ _ Hi eq_refl) as [Hcount' Hcount_lt].
  destruct r as [err|].
  - destruct Hacc as (Hlen & Hcount & Hfail & Hret & Hch & Hcan).
    destruct (Z.ltb_spec (Z.of_nat (length (errCh st)))
                (bucket.WorkerNum (bucket.cfg (st_bucket st)))); [|lia].
    unfold accounted; cbn [workers errCh history cancel_called st_bucket].
    rewrite length_insert, length_app, Hcount'. cbn.
    split_and!; try lia.
    + intros inv err' Hin Hres.
      destruct (decide (inv_worker inv = i)) as [Heq|Hne].
      * right. rewrite Heq, list_lookup_insert_eq by done. split; [done|].
        destruct (Hfail _ _ Hin Hres) as [Hw|[Hw _]];
          rewrite Heq, Hi in Hw; [|done].
        injection Hw as _ <-. rewrite elem_of_app, list_elem_of_singleton. auto.
      * rewrite list_lookup_insert_ne by done.
        destruct (Hfail _ _ Hin Hres) as [Hw|[Hw He]]; [by left|right].
        split; [done|]. rewrite elem_of_app. auto.
    + intros j q e Hj. destruct (decide (j = i)) as [->|Hne].
      * by rewrite list_lookup_insert_eq in Hj.
      * rewrite list_lookup_insert_ne in Hj by done. eauto.
    + intros e. rewrite elem_of_app, list_elem_of_singleton.
      intros [He| ->]; [eauto|]. exists i, queue, err. eauto.
    + split; [intros _|done]. by destruct (errCh st).
  - assert (Hbl : blameless (Returned queue None)) by (split; done).
    pose proof (fun inv err => accounted_blameless st i _ inv err Hacc Hi Hbl)
      as Hother.
    destruct Hacc as (Hlen & Hcount & Hfail & Hret & Hch & Hcan).
    unfold accounted; cbn [workers errCh history cancel_called st_bucket].
    rewrite length_insert, Hcount'.
    split_and!; try lia; auto.
    + intros inv err Hin Hres.
      rewrite list_lookup_insert_ne
        by (intros Heq; symmetry in Heq; revert Heq; eapply Hother; eauto).
      eauto.
    + intros j q e Hj. destruct (decide (j = i)) as [->|Hne].
      * by rewrite list_lookup_insert_eq in Hj.
      * rewrite list_lookup_insert_ne in Hj by done. eauto.
Qed.

Lemma step_accounted a (st st' : @bucket.state T H) :
  accounted st -> bucket.step f a st = Ok st' -> accounted st'.
Proof.
  intros Hacc Hstep.
  assert (Hloop : forall queue, blameless (@Looping T queue))
    by (split; done).
  step_cases Hstep;
    try exact Hacc;
    try (match goal with
         | Hw : workers st !! ?i = Some (Returned ?q ?r) |- _ =>
             pose proof (accounted_report st i q r Hacc Hw) as Hrep;
             cbn [reported] in Hrep;
             repeat match goal with
               | Hb : (_ <? _)%Z = _ |- _ => rewrite Hb in Hrep; clear Hb
               end;
             exact Hrep
         end);
    try flush_cases;
    match goal with
    | |- accounted (mkState _ _ _ (<[?i := ?w']> _) _ _ _ _) =>
        eapply (accounted_worker_step st _ i _ w' Hacc);
          [eassumption|apply Hloop|cbn; reflexivity
          |cbn; reflexivity|cbn; reflexivity|cbn; reflexivity|cbn; reflexivity|]
    end;
    cbn;
    first [ left; split; [reflexivity|split; done]
          | right; left; eexists; split; [reflexivity|split; done]
          | right; right; eexists _, _; split; reflexivity ].
Qed.

Lemma accounted_cancel_called (st : @bucket.state T H) :
  accounted st -> cancel_called st = true -> no_failure st -> False.
Proof.
  intros (_ & _ & _ & _ & Hch & Hcan) Hc Hnf. apply Hcan in Hc as Hne.
  clear Hcan. rename Hne into Hcan.
  destruct (errCh st) as [|e rest]; [done|].
  destruct (Hch e) as (i & q & err & _ & Hin); [left|].
  by specialize (Hnf _ Hin).
Qed.

Lemma step_history a (st st' : @bucket.state T H) :
  bucket.step f a st = Ok st' ->
  exists extra, history st' = history st ++ extra.
Proof.
  intros Hstep. step_cases Hstep; try flush_cases; cbn;
    first [by exists []; rewrite app_nil_r | by eexists].
Qed.

Lemma step_history_exec sched (st st' : @bucket.state T H) :
  bucket.exec f sched st = Ok st' ->
  exists extra, history st' = history st ++ extra.
Proof.
  revert st. induction sched as [|a sched IH]; intros st; cbn.
  - intros [= <-]. exists []. by rewrite app_nil_r.
  - destruct (bucket.step f a st) as [st1| |] eqn:Hstep; try done.
    intros Hexec. destruct (IH _ Hexec) as [extra2 ->].
    destruct (step_history _ _ _ Hstep) as [extra1 ->].
    exists (extra1 ++ extra2). by rewrite app_assoc.
Qed.

Lemma step_ctx_done a (st st' : @bucket.state T H) :
  bucket.step f a st = Ok st' -> ctx_done st' = false -> ctx_done st = false.
Proof. intros Hstep. step_cases Hstep; try flush_cases; cbn; done. Qed.

Lemma all_looping_insert (ws : list (@wstate T)) i queue :
  (forall j w, ws !! j = Some w -> exists q, w = Looping q) ->
  forall j w, <[i := Looping queue]> ws !! j = Some w -> exists q, w = Looping q.
Proof.
  intros Hall j w. destruct (decide (j = i)) as [->|Hne].
  - destruct (decide (i < length ws)) as [Hlt|Hge].
    + rewrite list_lookup_insert_eq by done. intros [= <-]. eauto.
    + rewrite list_insert_ge by lia. eauto.
  - rewrite list_lookup_insert_ne by done. eauto.
Qed.

Lemma step_leaves_on_drained a (st st' : @bucket.state T H) :
  accounted st -> leaves_on_drained st ->
  bucket.step f a st = Ok st' -> leaves_on_drained st'.
Proof.
  intros Hacc Hinv Hstep Hctx Hnf.
  pose proof (step_ctx_done _ _ _ Hstep Hctx) as Hctx0.
  assert (Hnf0 : no_failure st).
  { destruct (step_history _ _ _ Hstep) as [extra Hh].
    intros inv Hin. apply Hnf. rewrite Hh, elem_of_app. auto. }
  specialize (Hinv Hctx0 Hnf0).
  assert (Hcancel : cancel_called st = false).
  { destruct (cancel_called st) eqn:Hc; [|done].
    destruct (accounted_cancel_called st Hacc Hc Hnf0). }
  assert (Hnot : forall i queue r, workers st !! i = Some (Returned queue r) ->
                 drained st).
  { intros i queue r Hi. destruct Hinv as [Hall|Hdr]; [|done].
    by destruct (Hall _ _ Hi). }
  unfold no_failure, all_looping, drained in *.
  step_cases Hstep; try flush_cases; cbn in *.
  all: try match goal with
    | Hn : forall inv, inv ∈ _ ++ [mkInvocation ?i ?q (Some ?e)] -> _ |- _ =>
        specialize (Hn (mkInvocation i q (Some e))); cbn in Hn;
        rewrite elem_of_app, list_elem_of_singleton in Hn;
        discriminate Hn; auto
    end.
  all: try match goal with
    | Hp : procCtx_done _ = true |- _ =>
        unfold procCtx_done in Hp; rewrite Hctx0, Hcancel in Hp; discriminate Hp
    end.
  all: try (right; split; congruence).
  all: try (right; eapply Hnot; eassumption).
  all: destruct Hinv as [Hall|[Hcl Hbuf]]; try congruence; auto.
  all: try (left; apply all_looping_insert; exact Hall).
Qed.

Lemma step_sound a (st st' : @bucket.state T H) :
  sound st -> bucket.step f a st = Ok st' -> sound st'.
Proof.
  intros (Hc & Ha & Hl) Hstep. split_and!.
  - by eapply step_conserved.
  - by eapply step_accounted.
  - by eapply step_leaves_on_drained.
Qed.

Lemma New_fresh (c : bucket.Config) :
  let b := (New T c).1.2 in
  buf (consumer b) = [] /\ closed (consumer b) = false /\
  (1 <= bucket.WorkerNum (bucket.cfg b))%Z /\
  (1 <= BatchSize (bucket.cfg b))%Z /\
  cap (consumer b) = BatchSize (bucket.cfg b).
Proof.
  destruct c as [bs to wn]. unfold New.
  cbn [BatchSize Timeout bucket.WorkerNum].
  destruct (Z.leb_spec bs 0); cbn [BatchSize Timeout bucket.WorkerNum];
    destruct (Z.leb_spec to 0); cbn [BatchSize Timeout bucket.WorkerNum];
    destruct (Z.leb_spec wn 0); cbn; split_and!; try done; lia.
Qed.

Lemma Run_start_sound (b : Bucket T) ctx (h : H) :
  buf (consumer b) = [] -> (0 <= bucket.WorkerNum (bucket.cfg b))%Z ->
  sound (Run_start b ctx h).
Proof.
  intros Hbuf Hwn. unfold sound, Run_start. split_and!.
  - unfold conserved, delivered; cbn. rewrite Hbuf, app_nil_r.
    induction (Z.to_nat _) as [|n IH]; [done|exact IH].
  - unfold accounted; cbn. rewrite length_replicate.
    split_and!; try lia; try done.
    + intros inv err Hin. by apply elem_of_nil in Hin.
    + intros i queue err Hi. by apply lookup_replicate in Hi as [? _].
    + intros e He. by apply elem_of_nil in He.
  - intros _ _. left. intros i w Hi.
    apply lookup_replicate in Hi as [-> _]. eauto.
Qed.

Lemma exec_sound sched (st st' : @bucket.state T H) :
  bucket.exec f sched st = Ok st' -> sound st -> sound st'.
Proof. apply exec_preserves. intros a s s' Hs Hstep. by eapply step_sound. Qed.

Lemma all_exited (ws : list (@wstate T)) :
  forallb is_exited ws = true ->
  (forall i w, ws !! i = Some w -> w = Exited) /\
  concat (map pending ws) = [].
Proof.
  induction ws as [|w ws IH]; cbn.
  - intros _. split; [|done]. intros i w Hi. by rewrite lookup_nil in Hi.
  - destruct w; try done. cbn. intros Hall. destruct (IH Hall) as [IH1 IH2].
    split; [|done]. intros [|i] w; cbn; [by intros [= <-]|eauto].
Qed.

Lemma Run_result_Some (st : @bucket.state T H) r :
  Run_result st = Some r ->
  forallb is_exited (workers st) = true /\ r = head (errCh st).
Proof.
  unfold Run_result. destruct (forallb is_exited (workers st)); [|done].
  by intros [= <-].
Qed.

Lemma Run_Ok sched (b : Bucket T) ctx (h : H) r st :
  bucket.Run f sched b ctx h = Ok (r, st) ->
  bucket.exec f sched (Run_start b ctx h) = Ok st /\
  forallb is_exited (workers st) = true /\ r = head (errCh st).
Proof.
  unfold bucket.Run.
  destruct (bucket.exec f sched (Run_start b ctx h)) as [st1| |]; try done.
  destruct (Run_result st1) as [r1|] eqn:Hr; try done.
  intros [= <- <-]. split; [done|]. by apply Run_result_Some.
Qed.

(** When [Run] returns, every refused batch has its error in [errCh]. *)
Lemma finished_failures_reported (st : @bucket.state T H) inv err :
  accounted st -> forallb is_exited (workers st) = true ->
  inv ∈ history st -> inv_result inv = Some err ->
  reported (inv_worker inv) err ∈ errCh st.
Proof.
  intros (_ & _ & Hfail & _) Hall Hin Hres.
  destruct (all_exited _ Hall) as [Hex _].
  destruct (Hfail _ _ Hin Hres) as [Hw|[_ He]]; [|done].
  by apply Hex in Hw.
Qed.

(** A finished run that was neither cancelled nor refused a batch has
    emptied the intake and the buffers of its workers. *)
Lemma finished_drained (st : @bucket.state T H) :
  sound st -> workers st <> [] -> forallb is_exited (workers st) = true ->
  ctx_done st = false -> errCh st = [] ->
  no_failure st /\ buf (consumer (st_bucket st)) = [] /\
  concat (map pending (workers st)) = [].
Proof.
  intros (Hc & Ha & Hl) Hws Hall Hctx Herr.
  assert (Hnf : no_failure st).
  { intros inv Hin. destruct (inv_result inv) as [err|] eqn:Hres; [|done].
    pose proof (finished_failures_reported st inv err Ha Hall Hin Hres) as He.
    rewrite Herr in He. by apply elem_of_nil in He. }
  split; [done|].
  destruct (all_exited _ Hall) as [Hex Hpend].
  destruct (Hl Hctx Hnf) as [Hloop|[_ Hbuf]]; [|done].
  destruct (workers st) as [|w ws] eqn:Hw; [done|].
  destruct (Hloop 0 w) as [q ->]; [by rewrite Hw|].
  by specialize (Hex 0 _ eq_refl).
Qed.

Lemma finished_quietly (st : @bucket.state T H) :
  sound st -> workers st <> [] -> forallb is_exited (workers st) = true ->
  ctx_done st = false -> errCh st = [] ->
  no_failure st /\ concat (delivered st) ≡ₚ consumed st.
Proof.
  intros Hs Hws Hall Hctx Herr.
  destruct (finished_drained st Hs Hws Hall Hctx Herr) as (Hnf & Hbuf & Hpend).
  split; [done|]. destruct Hs as (Hc & _).
  unfold conserved in Hc. rewrite Hpend, Hbuf, !app_nil_r in Hc. done.
Qed.

Lemma step_in_order a (st st' : @bucket.state T H) :
  length (workers st) = 1 ->
  in_order st -> bucket.step f a st = Ok st' -> in_order st'.
Proof.
  unfold in_order, delivered. intros Hlen Hinv Hstep.
  destruct (workers st) as [|w0 [|]] eqn:Hws; try done. clear Hlen.
  step_cases Hstep; try flush_cases; cbn;
    rewrite ?Hws in *;
    rewrite ?map_app, ?concat_app; cbn;
    try match goal with
      | Hw : [_] !! ?i = Some _ |- _ =>
          destruct i; cbn in Hw; [injection Hw as ->|done]
      end; cbn in *;
    repeat match goal with
      | Hb : buf _ = _ |- _ => rewrite Hb in *; clear Hb
      | Hq : _ ++ [_] = [] |- _ => by destruct (app_cons_not_nil _ _ _ (eq_sym Hq))
      | Hq : ?queue = [] |- _ => subst queue
      end;
    rewrite ?app_nil_r in *; rewrite Hinv; rewrite <- ?app_assoc; try done.
Qed.

Lemma full_snoc B (batches : list (list T)) batch :
  full B batches -> length batch = B -> full B (batches ++ [batch]).
Proof. intros Hf Hb. apply Forall_app. split; [done|]. by constructor. Qed.

Lemma step_sized a (st st' : @bucket.state T H) :
  is_tick a = false -> length (workers st) = 1 ->
  accounted st -> sized st -> bucket.step f a st = Ok st' -> sized st'.
Proof.
  intros Htick Hlen Hacc Hinv Hstep Hctx Hnf.
  pose proof (step_ctx_done _ _ _ Hstep Hctx) as Hctx0.
  assert (Hnf0 : no_failure st).
  { destruct (step_history _ _ _ Hstep) as [extra Hh].
    intros inv Hin. apply Hnf. rewrite Hh, elem_of_app. auto. }
  specialize (Hinv Hctx0 Hnf0).
  assert (Hcancel : cancel_called st = false).
  { destruct (cancel_called st) eqn:Hc; [|done].
    destruct (accounted_cancel_called st Hacc Hc Hnf0). }
  destruct (workers st) as [|w0 [|]] eqn:Hws; try done. clear Hlen.
  unfold no_failure, delivered in *.
  step_cases Hstep; try flush_cases; cbn in *; try done;
    rewrite ?Hws in *;
    try match goal with
      | Hw : [_] !! ?i = Some _ |- _ =>
          destruct i; cbn in Hw; [injection Hw as ->|done]
      end; cbn in *.
  all: try match goal with
    | Hn : forall inv, inv ∈ _ ++ [mkInvocation ?i ?q (Some ?e)] -> _ |- _ =>
        specialize (Hn (mkInvocation i q (Some e))); cbn in Hn;
        rewrite elem_of_app, list_elem_of_singleton in Hn;
        discriminate Hn; auto
    end.
  all: try match goal with
    | Hp : procCtx_done _ = true |- _ =>
        unfold procCtx_done in Hp; rewrite Hctx0, Hcancel in Hp; discriminate Hp
    end.
  all: rewrite ?map_app; cbn.
  all: try match goal with
    | Hb : (_ <=? _)%Z = true |- _ => apply Z.leb_le in Hb
    | Hb : (_ <=? _)%Z = false |- _ => apply Z.leb_gt in Hb
    end.
  all: try match goal with
    | Hq : _ ++ [_] = [] |- _ => by destruct (app_cons_not_nil _ _ _ (eq_sym Hq))
    end.
  all: try rewrite length_app in *; cbn in *.
  all: try exact Hinv.
  all: try (destruct Hinv as [Hfull Hq]).
  all: try (left; done).
  all: try (split; [apply full_snoc; [done|rewrite length_app; cbn; lia] | lia]).
  all: try (split; [done|lia]).
  all: try (right; eexists _, _; split; [reflexivity|]; split; [done|];
            destruct queue; [done|cbn in *; lia]).
Qed.

Lemma exec_single_worker sched (st st' : @bucket.state T H) :
  Forall (fun a => is_tick a = false) sched ->
  length (workers st) = 1 ->
  bucket.exec f sched st = Ok st' ->
  sound st /\ in_order st /\ sized st ->
  sound st' /\ in_order st' /\ sized st'.
Proof.
  intros Hticks. revert st.
  induction Hticks as [|a sched Ha _ IH]; intros st Hlen; cbn.
  - by intros [= <-].
  - destruct (bucket.step f a st) as [st1| |] eqn:Hstep; try done.
    intros Hexec (Hs & Ho & Hz). apply (IH st1); [|done|].
    + destruct (step_static _ _ _ Hstep) as (_ & _ & ->). done.
    + split_and!.
      * by eapply step_sound.
      * by eapply step_in_order.
      * eapply step_sized; eauto. by destruct Hs as (_ & ? & _).
Qed.

Lemma exec_external sched (st st' : @bucket.state T H) :
  bucket.exec f sched st = Ok st' ->
  consumed st' = consumed st ++ submitted sched /\
  ctx_done st' = ctx_done st || cancels sched.
Proof.
  revert st. induction sched as [|a sched IH]; intros st; cbn.
  - intros [= <-]. by rewrite app_nil_r, orb_false_r.
  - destruct (bucket.step f a st) as [st1| |] eqn:Hstep; try done.
    intros Hexec. destruct (IH _ Hexec) as [-> ->]. clear IH Hexec.
    step_cases Hstep; try flush_cases; cbn;
      rewrite ?app_nil_r, ?orb_true_r, <- ?app_assoc; done.
Qed.

Lemma submitted_external (sched : list (@bucket.action T)) :
  submitted sched = submitted (external sched) /\
  cancels sched = cancels (external sched).
Proof.
  unfold submitted, cancels, external.
  induction sched as [|a sched [IH1 IH2]]; [done|].
  destruct a; cbn; rewrite ?IH1, ?IH2; done.
Qed.

Lemma submitted_client (items : list T) :
  submitted (map AConsume items ++ [AClose]) = items /\
  cancels (map AConsume items ++ [@AClose T]) = false.
Proof.
  unfold submitted, cancels.
  induction items as [|x items [IH1 IH2]]; [done|].
  cbn. by rewrite IH1, IH2.
Qed.

(** What the handler maintains on its own state, the engine maintains. *)
Lemma step_hstate (Q : H -> Prop) a (st st' : @bucket.state T H) :
  (forall ctx queue h, Q h -> Q (f ctx queue h).1) ->
  Q (hstate st) -> bucket.step f a st = Ok st' -> Q (hstate st').
Proof.
  intros Hf HQ Hstep. step_cases Hstep; try flush_cases; cbn; try done.
  all: match goal with
       | Hc : f ?c ?q ?h = _ |- _ =>
           specialize (Hf c q h HQ); rewrite Hc in Hf; exact Hf
       end.
Qed.

(** A handler that accepts every batch leaves no failure on record. *)
Lemma step_no_failure a (st st' : @bucket.state T H) :
  (forall ctx queue h, (f ctx queue h).2 = None) ->
  no_failure st -> bucket.step f a st = Ok st' -> no_failure st'.
Proof.
  intros Hf Hnf Hstep. unfold no_failure in *.
  step_cases Hstep; try flush_cases; cbn; try done.
  all: intros inv; rewrite elem_of_app, list_elem_of_singleton;
    intros [Hin| ->]; [by apply Hnf|]; cbn; try done.
  all: match goal with
       | Hc : f ?c ?q ?h = _ |- _ =>
           specialize (Hf c q h); rewrite Hc in Hf; exact Hf
       end.
Qed.

(** Winding down. *)
Lemma exec_app sched1 sched2 (st : @bucket.state T H) :
  bucket.exec f (sched1 ++ sched2) st
  = match bucket.exec f sched1 st with
    | Ok st1 => bucket.exec f sched2 st1
    | Blocks => Blocks
    | Panics => Panics
    end.
Proof.
  revert st. induction sched1 as [|a sched1 IH]; intros st; cbn; [done|].
  destruct (bucket.step f a st); auto.
Qed.

Lemma report_step (st : @bucket.state T H) i queue r :
  workers st !! i = Some (Returned queue r) ->
  exists st', bucket.step f (WReport i) st = Ok st' /\
              workers st' = <[i := Exited]> (workers st) /\
              (procCtx_done st = true -> procCtx_done st' = true) /\
              (r <> None -> cancel_called st' = true).
Proof.
  intros Hi. cbn. rewrite Hi. destruct r as [err|]; eexists;
    (split; [reflexivity|]); cbn; split_and!; try done.
  intros _. unfold procCtx_done; cbn. apply orb_true_r.
Qed.

Lemma ctx_done_step (st : @bucket.state T H) i queue :
  workers st !! i = Some (Looping queue) -> procCtx_done st = true ->
  exists st' queue' r,
    bucket.step f (WCtxDone i) st = Ok st' /\
    workers st' = <[i := Returned queue' r]> (workers st) /\
    procCtx_done st' = true.
Proof.
  intros Hi Hdone. cbn. rewrite Hi, Hdone.
  destruct (after_flush_cases st (st_bucket st) i queue Returned)
    as [[_ ->]|[[_ [? [_ ->]]]|[_ [? [? [_ ->]]]]]];
    eexists _, _, _; (split; [reflexivity|]); cbn; done.
Qed.

Lemma wind_down_exec (ws : list (@wstate T)) :
  forall pre (st : @bucket.state T H),
    workers st = pre ++ ws -> procCtx_done st = true ->
    exists st', bucket.exec f (wind_down (length pre) ws) st = Ok st' /\
                workers st' = pre ++ replicate (length ws) Exited.
Proof.
  induction ws as [|w ws IH]; intros pre st Hws Hdone.
  - exists st. by rewrite Hws.
  - assert (Hlook : workers st !! length pre = Some w).
    { rewrite Hws, lookup_app_r, Nat.sub_diag by lia. done. }
    assert (Hins : forall w', <[length pre := w']> (workers st)
                              = (pre ++ [w']) ++ ws).
    { intros w'. rewrite Hws, insert_app_r_alt, Nat.sub_diag by lia.
      by rewrite <- app_assoc. }
    assert (Hnext : forall st1,
      workers st1 = (pre ++ [Exited]) ++ ws -> procCtx_done st1 = true ->
      exists st', bucket.exec f (wind_down (S (length pre)) ws) st1 = Ok st' /\
                  workers st' = pre ++ replicate (length (w :: ws)) Exited).
    { intros st1 Hws1 Hdone1.
      destruct (IH (pre ++ [Exited]) st1 Hws1 Hdone1) as (st' & Hex & Hw').
      rewrite length_app, Nat.add_1_r in Hex. exists st'. split; [done|].
      by rewrite Hw', <- app_assoc. }
    cbn [wind_down]. rewrite exec_app. destruct w as [queue|queue r|].
    + destruct (ctx_done_step st _ _ Hlook Hdone)
        as (st1 & queue' & r & Hs1 & Hw1 & Hd1).
      assert (Hlook1 : workers st1 !! length pre = Some (Returned queue' r)).
      { rewrite Hw1. apply list_lookup_insert_eq. by eapply lookup_lt_Some. }
      destruct (report_step st1 _ _ _ Hlook1) as (st2 & Hs2 & Hw2 & Hd2 & _).
      cbn [bucket.exec]. rewrite Hs1, Hs2. apply Hnext; [|auto].
      rewrite Hw2, Hw1, list_insert_insert_eq. apply Hins.
    + destruct (report_step st _ _ _ Hlook) as (st2 & Hs2 & Hw2 & Hd2 & _).
      cbn [bucket.exec]. rewrite Hs2. apply Hnext; [|auto].
      rewrite Hw2. apply Hins.
    + cbn [bucket.exec]. apply Hnext; [|done].
      by rewrite Hws, <- app_assoc.
Qed.

(** Once the handler has refused a batch, the workers can be wound down:
    [Run] can return. *)
Lemma failed_run_can_return (st : @bucket.state T H) inv err :
  accounted st -> inv ∈ history st -> inv_result inv = Some err ->
  exists more st',
    bucket.exec f more st = Ok st' /\
    forallb is_exited (workers st') = true.
Proof.
  intros Hacc Hin Hres.
  assert (Hall : forall n, forallb is_exited (replicate n (@Exited T)) = true)
    by (induction n; [done|exact IHn]).
  assert (Hwind : forall st1 : @bucket.state T H,
    procCtx_done st1 = true ->
    exists more st', bucket.exec f more st1 = Ok st' /\
                     forallb is_exited (workers st') = true).
  { intros st1 Hdone.
    destruct (wind_down_exec (workers st1) [] st1 eq_refl Hdone)
      as (st' & Hex & Hw').
    exists (wind_down 0 (workers st1)), st'. split; [done|].
    rewrite Hw'. apply Hall. }
  destruct Hacc as (_ & _ & Hfail & _ & _ & Hcan).
  destruct (Hfail _ _ Hin Hres) as [Hw|[_ He]].
  - destruct (report_step st _ _ _ Hw) as (st1 & Hs1 & _ & _ & Hc).
    destruct (Hwind st1) as (more & st' & Hex & Hdone).
    { unfold procCtx_done. rewrite Hc by done. apply orb_true_r. }
    exists (WReport (inv_worker inv) :: more), st'. cbn [bucket.exec].
    by rewrite Hs1.
  - apply Hwind. unfold procCtx_done.
    assert (Hne : errCh st <> []).
    { intros Hnil. rewrite Hnil in He. by apply elem_of_nil in He. }
    rewrite (proj2 Hcan Hne). apply orb_true_r.
Qed.

(** Sizes. *)
Lemma step_bounded a (st st' : @bucket.state T H) :
  (1 <= BatchSize (bucket.cfg (st_bucket st)))%Z ->
  bounded st -> bucket.step f a st = Ok st' -> bounded st'.
Proof.
  unfold bounded, delivered. intros HB (Hbuf & Hws & Hhist) Hstep.
  assert (Hq : forall i queue, workers st !! i = Some (Looping queue) ->
            (Z.of_nat (length queue) < BatchSize (bucket.cfg (st_bucket st)))%Z).
  { intros i queue Hi. by apply (Forall_lookup_1 _ _ _ _ Hws Hi). }
  step_cases Hstep; try flush_cases; cbn in *;
    rewrite ?map_app, ?Forall_app; cbn;
    try match goal with
      | Hw : workers _ !! _ = Some (Looping _) |- _ => specialize (Hq _ _ Hw)
      end;
    repeat match goal with
      | Hb : buf _ = _ |- _ => rewrite Hb in *; clear Hb
      | Hb : (_ <=? _)%Z = true |- _ => apply Z.leb_le in Hb
      | Hb : (_ <=? _)%Z = false |- _ => apply Z.leb_gt in Hb
      | Hb : cap _ = cap _ |- _ => rewrite Hb
      end;
    rewrite ?length_app in *; cbn [length] in *;
    split_and!; try done; try lia;
    try (apply Forall_insert; [done|cbn; rewrite ?length_app; cbn; lia]);
    try (apply Forall_singleton; split;
         [first [ destruct queue; [done|cbn; lia]
                | rewrite length_app; cbn; lia ]
         | rewrite ?length_app; cbn; lia ]).
Qed.

(** Order of reception. *)
Lemma received_by_move (st : @bucket.state T H) i w0 w' j b cd cc ec
    (h' : H) cs :
  workers st !! i = Some w0 ->
  received_by j (mkState b cd cc (<[i := w']> (workers st)) ec h'
                         (history st) cs)
  = if decide (j = i)
    then concat (map inv_batch
                   (filter (fun inv => inv_worker inv = i) (history st)))
         ++ pending w'
    else received_by j st.
Proof.
  intros Hi. unfold received_by; cbn. destruct (decide (j = i)) as [->|Hne].
  - by rewrite list_lookup_insert_eq by (by eapply lookup_lt_Some).
  - by rewrite list_lookup_insert_ne.
Qed.

Lemma received_by_call (st : @bucket.state T H) i w0 w' queue r j
    b cd cc ec (h' : H) cs :
  workers st !! i = Some w0 ->
  received_by j (mkState b cd cc (<[i := w']> (workers st)) ec h'
                         (history st ++ [mkInvocation i queue r]) cs)
  = if decide (j = i)
    then concat (map inv_batch
                   (filter (fun inv => inv_worker inv = i) (history st)))
         ++ queue ++ pending w'
    else received_by j st.
Proof.
  intros Hi. unfold received_by; cbn. rewrite filter_app.
  destruct (decide (j = i)) as [->|Hne].
  - rewrite list_lookup_insert_eq by (by eapply lookup_lt_Some).
    rewrite filter_cons_True by done. rewrite filter_nil, map_app, concat_app.
    cbn. by rewrite app_nil_r, <- app_assoc.
  - rewrite list_lookup_insert_ne by done.
    rewrite filter_cons_False by (cbn; congruence).
    by rewrite filter_nil, app_nil_r.
Qed.

Lemma received_by_at (st : @bucket.state T H) i w0 :
  workers st !! i = Some w0 ->
  received_by i st
  = concat (map inv_batch
              (filter (fun inv => inv_worker inv = i) (history st)))
    ++ pending w0.
Proof. intros Hi. unfold received_by. by rewrite Hi. Qed.

Lemma step_fifo a (st st' : @bucket.state T H) :
  fifo st -> bucket.step f a st = Ok st' -> fifo st'.
Proof.
  intros (taken & Hcons & Hsub) Hstep.
  assert (Hgrow : forall l x, l `sublist_of` taken ->
                              l `sublist_of` taken ++ [x : T]).
  { intros l x Hl. by apply sublist_inserts_r. }
  step_cases Hstep; try flush_cases; cbn in *;
    repeat match goal with
      | Hb : buf _ = _ |- _ => progress (rewrite Hb in Hcons)
      | Hq : _ ++ [_] = [] |- _ => by destruct (app_cons_not_nil _ _ _ (eq_sym Hq))
      | Hq : ?queue = [] |- _ => subst queue
      end.
  all: try (exists taken; split;
            [cbn; rewrite ?Hcons;
             try match goal with Hb : buf _ = _ |- _ => rewrite Hb end;
             by rewrite <- ?app_assoc|];
            intros j;
            first [ exact (Hsub j)
                  | erewrite received_by_move by eassumption
                  | erewrite received_by_call by eassumption ];
            try (destruct (decide (j = _)) as [->|Hne]; [|exact (Hsub _)];
                 specialize (Hsub i);
                 erewrite received_by_at in Hsub by eassumption;
                 cbn in *; by rewrite ?app_nil_r in *)).
  all: match goal with
       | Hc : consumed _ = _ ++ ?t :: _ |- _ =>
           exists (taken ++ [t]); split;
             [cbn; by rewrite Hcons, <- app_assoc|]; intros j;
             first [ erewrite received_by_move by eassumption
                   | erewrite received_by_call by eassumption ];
             (destruct (decide (j = _)) as [->|Hne]; [|apply Hgrow, Hsub]);
             specialize (Hsub i);
             erewrite received_by_at in Hsub by eassumption;
             cbn in *; rewrite ?app_nil_r, ?app_assoc in *;
             by apply sublist_app
       end.
Qed.

(** Failures. *)
Lemma stops_at_failure_snoc (st : @bucket.state T H) i w queue r :
  accounted st -> stops_at_failure st ->
  workers st !! i = Some w -> blameless w ->
  forall before inv after,
    history st ++ [mkInvocation i queue r] = before ++ inv :: after ->
    inv_result inv <> None ->
    forall later, later ∈ after -> inv_worker later <> inv_worker inv.
Proof.
  intros Hacc Hinv Hi Hbl before inv after Heq Hres later Hin.
  destruct after as [|x after _] using rev_ind.
  { by apply elem_of_nil in Hin. }
  rewrite app_comm_cons, app_assoc in Heq.
  apply app_inj_tail in Heq as [Hh <-].
  apply elem_of_app in Hin as [Hin| ->%list_elem_of_singleton].
  - by eapply Hinv.
  - cbn. destruct (inv_result inv) as [err|] eqn:Hr; [|done].
    intros Heq. symmetry in Heq. revert Heq.
    eapply (accounted_blameless st i w inv err); eauto.
    rewrite Hh, elem_of_app. right. by left.
Qed.

Lemma step_stops_at_failure a (st st' : @bucket.state T H) :
  accounted st -> stops_at_failure st ->
  bucket.step f a st = Ok st' -> stops_at_failure st'.
Proof.
  intros Hacc Hinv Hstep.
  assert (Hloop : forall queue, blameless (@Looping T queue))
    by (split; done).
  step_cases Hstep; try flush_cases; try exact Hinv;
    unfold stops_at_failure; cbn [history];
    try (eapply (stops_at_failure_snoc st); eauto; fail).
Qed.

Lemma leaving_keeps_intake sched (st st' : @bucket.state T H) :
  forallb is_leaving sched = true ->
  bucket.exec f sched st = Ok st' ->
  st_bucket st' = st_bucket st /\ consumed st' = consumed st.
Proof.
  revert st. induction sched as [|a sched IH]; intros st; cbn.
  - by intros _ [= <-].
  - intros [Ha Hs]%andb_true_iff.
    destruct (bucket.step f a st) as [st1| |] eqn:Hstep; try done.
    intros Hexec. destruct (IH _ Hs Hexec) as [-> ->]. clear IH Hexec.
    destruct a; try done; step_cases Hstep; try flush_cases; done.
Qed.

Lemma wind_down_leaving (ws : list (@wstate T)) i :
  forallb is_leaving (wind_down i ws) = true.
Proof.
  revert i. induction ws as [|w ws IH]; intros i; [done|].
  cbn [wind_down]. rewrite forallb_app, IH. by destruct w.
Qed.

(** Draining a closed intake. *)
Lemma recv_step_closed (st : @bucket.state T H) i queue :
  workers st !! i = Some (Looping queue) ->
  closed (consumer (st_bucket st)) = true ->
  exists st',
    bucket.step f (WRecv i) st = Ok st' /\
    closed (consumer (st_bucket st')) = true /\
    ((exists queue' r, workers st' = <[i := Returned queue' r]> (workers st)) \/
     (exists queue', workers st' = <[i := Looping queue']> (workers st) /\
        length (buf (consumer (st_bucket st')))
        < length (buf (consumer (st_bucket st))))).
Proof.
  intros Hi Hclosed. cbn [bucket.step]. rewrite Hi. unfold chan_recv.
  destruct (buf (consumer (st_bucket st))) as [|item rest] eqn:Hbuf.
  - rewrite Hclosed.
    destruct (after_flush_cases st (st_bucket st) i queue Returned)
      as [[_ ->]|[[_ [? [_ ->]]]|[_ [? [? [_ ->]]]]]];
      eexists; (split; [reflexivity|]); cbn; (split; [done|]); left; eauto.
  - cbn zeta.
    destruct (BatchSize (bucket.cfg (st_bucket st))
              <=? Z.of_nat (length (queue ++ [item])))%Z.
    + match goal with
      | |- context [after_flush f st ?b i ?q ?k] =>
          destruct (after_flush_cases st b i q k)
            as [[_ ->]|[[_ [? [_ ->]]]|[_ [? [? [_ ->]]]]]]
      end;
        eexists; (split; [reflexivity|]); cbn; (split; [done|]);
        solve [ left; eauto | right; eexists; split; [reflexivity|lia] ].
    + eexists; (split; [reflexivity|]); cbn; (split; [done|]).
      right; eexists; split; [reflexivity|lia].
Qed.

Lemma drain_worker n :
  forall (st : @bucket.state T H) i queue,
    length (buf (consumer (st_bucket st))) < n ->
    workers st !! i = Some (Looping queue) ->
    closed (consumer (st_bucket st)) = true ->
    exists sched st' queue' r,
      external sched = [] /\
      bucket.exec f sched st = Ok st' /\
      closed (consumer (st_bucket st')) = true /\
      workers st' = <[i := Returned queue' r]> (workers st).
Proof.
  induction n as [|n IH]; intros st i queue Hn Hi Hclosed; [lia|].
  destruct (recv_step_closed st i queue Hi Hclosed)
    as (st1 & Hs1 & Hc1 & [(queue' & r & Hw1)|(queue' & Hw1 & Hlen)]).
  - exists [WRecv i], st1, queue', r. cbn [bucket.exec]. by rewrite Hs1.
  - destruct (IH st1 i queue') as (sched & st' & queue'' & r & He & Hx & Hc & Hw).
    + lia.
    + rewrite Hw1. apply list_lookup_insert_eq. by eapply lookup_lt_Some.
    + done.
    + exists (WRecv i :: sched), st', queue'', r. cbn [bucket.exec].
      rewrite Hs1. split_and!; try done.
      by rewrite Hw, Hw1, list_insert_insert_eq.
Qed.

Lemma report_step_bucket (st : @bucket.state T H) i queue r :
  workers st !! i = Some (Returned queue r) ->
  exists st', bucket.step f (WReport i) st = Ok st' /\
              workers st' = <[i := Exited]> (workers st) /\
              st_bucket st' = st_bucket st.
Proof.
  intros Hi. cbn. rewrite Hi. destruct r as [err|]; eexists;
    (split; [reflexivity|]); cbn; done.
Qed.

Lemma drain_all (ws : list (@wstate T)) :
  forall pre (st : @bucket.state T H),
    workers st = pre ++ ws ->
    closed (consumer (st_bucket st)) = true ->
    exists sched st',
      external sched = [] /\
      bucket.exec f sched st = Ok st' /\
      workers st' = pre ++ replicate (length ws) Exited.
Proof.
  induction ws as [|w ws IH]; intros pre st Hws Hclosed.
  - exists [], st. by rewrite Hws.
  - assert (Hlook : workers st !! length pre = Some w).
    { rewrite Hws, lookup_app_r, Nat.sub_diag by lia. done. }
    assert (Hins : forall w', <[length pre := w']> (workers st)
                              = (pre ++ [w']) ++ ws).
    { intros w'. rewrite Hws, insert_app_r_alt, Nat.sub_diag by lia.
      by rewrite <- app_assoc. }
    assert (Hnext : forall st1,
      workers st1 = (pre ++ [Exited]) ++ ws ->
      closed (consumer (st_bucket st1)) = true ->
      exists sched st',
        external sched = [] /\
        bucket.exec f sched st1 = Ok st' /\
        workers st' = pre ++ replicate (length (w :: ws)) Exited).
    { intros st1 Hws1 Hc1.
      destruct (IH (pre ++ [Exited]) st1 Hws1 Hc1) as (sched & st' & He & Hex & Hw').
      exists sched, st'. split_and!; try done.
      by rewrite Hw', <- app_assoc. }
    assert (Hreport : forall st1 queue r,
      workers st1 = <[length pre := Returned queue r]> (workers st) ->
      closed (consumer (st_bucket st1)) = true ->
      exists sched st',
        external sched = [] /\
        bucket.exec f sched st1 = Ok st' /\
        workers st' = pre ++ replicate (length (w :: ws)) Exited).
    { intros st1 queue r Hw1 Hc1.
      assert (Hlook1 : workers st1 !! length pre = Some (Returned queue r)).
      { rewrite Hw1. apply list_lookup_insert_eq. by eapply lookup_lt_Some. }
      destruct (report_step_bucket st1 _ _ _ Hlook1) as (st2 & Hs2 & Hw2 & Hb2).
      destruct (Hnext st2) as (sched & st' & He & Hex & Hw').
      - rewrite Hw2, Hw1, list_insert_insert_eq. apply Hins.
      - by rewrite Hb2.
      - exists (WReport (length pre) :: sched), st'. cbn [bucket.exec].
        by rewrite Hs2. }
    destruct w as [queue|queue r|].
    + destruct (drain_worker _ st (length pre) queue (Nat.lt_succ_diag_r _)
                  Hlook Hclosed)
        as (sched1 & st1 & queue' & r & He1 & Hx1 & Hc1 & Hw1).
      destruct (Hreport st1 queue' r Hw1 Hc1) as (sched & st' & He & Hex & Hw').
      exists (sched1 ++ sched), st'. split_and!; [|by rewrite exec_app, Hx1|done].
      unfold external in *. by rewrite List.filter_app, He1, He.
    + apply (Hreport st queue r); [|done].
      symmetry. by apply list_insert_id.
    + apply Hnext; [|done]. by rewrite Hws, <- app_assoc.
Qed.



Lemma step_genuine a (st st' : @bucket.state T H) :
  genuine f st -> bucket.step f a st = Ok st' -> genuine f st'.
Proof.
  unfold genuine. intros Hg Hstep.
  step_cases Hstep; try flush_cases; cbn [history workers];
    rewrite ?length_insert; try done;
    intros inv [Hin| ->%list_elem_of_singleton]%elem_of_app; auto;
    cbn [inv_batch inv_worker inv_result];
    (split; [done|]);
    (split; [by eapply lookup_lt_Some|]);
    match goal with
    | Hc : f ?cx ?q ?h = _ |- _ => exists cx, h; by rewrite Hc
    end.
Qed.

End EngineInvariants.

(** Counting the batches of a chunked sequence. *)
Lemma full_length {T} B (batches : list (list T)) :
  full B batches -> length (concat batches) = B * length batches.
Proof.
  induction 1 as [|batch batches Hb _ IH]; cbn; [lia|].
  rewrite length_app, IH, Hb. lia.
Qed.

Lemma chunked_count {T} B (batches : list (list T)) :
  1 <= B -> chunked B batches ->
  let N := length (concat batches) in
  length batches = (N + B - 1) / B /\
  (forall k batch, batches !! k = Some batch -> S k < length batches ->
                   length batch = B) /\
  (forall batch, last batches = Some batch ->
                 length batch = if (N mod B =? 0)%nat then B else N mod B).
Proof.
  intros HB [Hfull|(front & lst & -> & Hfull & Hlast)]; cbn zeta.
  - rewrite (full_length _ _ Hfull).
    assert (Hmod : (B * length batches) mod B = 0)
      by (rewrite Nat.mul_comm; apply Nat.Div0.mod_mul).
    rewrite Hmod. cbn. split_and!.
    + apply (Nat.div_unique _ _ _ (B - 1)); lia.
    + intros k batch Hk _.
      unfold full in Hfull; rewrite Forall_lookup in Hfull. by eapply Hfull.
    + intros batch Hl. apply last_Some_elem_of in Hl.
      unfold full in Hfull; rewrite Forall_forall in Hfull. by apply Hfull.
  - rewrite concat_app, !length_app, (full_length _ _ Hfull). cbn.
    rewrite app_nil_r.
    assert (Hmod : (B * length front + length lst) mod B = length lst).
    { symmetry. apply (Nat.mod_unique _ _ (length front)); lia. }
    rewrite Hmod. destruct (Nat.eqb_spec (length lst) 0) as [?|_]; [lia|].
    split_and!.
    + apply (Nat.div_unique _ _ _ (length lst - 1)); lia.
    + intros k batch Hk Hlt. rewrite lookup_app_l in Hk by lia.
      unfold full in Hfull; rewrite Forall_lookup in Hfull. by eapply Hfull.
    + intros batch. rewrite last_snoc. by intros [= <-].
Qed.

Lemma wraps_refl (e : error) : wraps e e.
Proof. destruct e; by left. Qed.

(** ** What the handler receives *)

(** C4, as the code has it.  For any configuration (hence any number of
    workers, at least one after [New]): when [Run] returns nil and the
    context has not been cancelled, the batches handed to the handler hold,
    as a multiset, exactly the items accepted by [Consume]. *)
Theorem delivered_is_consumed {T H} (f : @ProcessFunc T H)
    (c : bucket.Config) (sched : list (@bucket.action T)) (ctx : bool) (h : H)
    (st : @bucket.state T H) :
  bucket.Run f sched (New T c).1.2 ctx h = Ok (None, st) ->
  ctx_done st = false ->
  concat (delivered st) ≡ₚ consumed st.
Proof.
  intros Hrun Hctx. apply Run_Ok in Hrun as (Hexec & Hall & Herr).
  destruct (New_fresh (T := T) c) as (Hbuf & _ & Hwn & _).
  assert (Hwn0 : (0 <= bucket.WorkerNum (bucket.cfg (New T c).1.2))%Z) by lia.
  pose proof (exec_sound f _ _ _ Hexec
                (Run_start_sound _ ctx h Hbuf Hwn0)) as Hsound.
  destruct (exec_static f _ _ _ Hexec) as (_ & _ & Hlen).
  eapply finished_quietly; eauto.
  - intros Hnil. rewrite Hnil in Hlen. cbn [Run_start workers] in Hlen.
    rewrite length_replicate in Hlen. cbn [length] in Hlen. lia.
  - by destruct (errCh st).
Qed.

Lemma delivered_is_consumed_witness : [1; 3; 2]%Z ≡ₚ [1; 2; 3]%Z.
Proof.
  exact (delivered_is_consumed accept (bucket.mkConfig 2 0 2)
           [AConsume 1%Z; AConsume 2%Z; WRecv 0; WRecv 1; AConsume 3%Z;
            WRecv 0; AClose; WRecv 0; WRecv 1; WReport 0; WReport 1]
           false () three_delivered eq_refl eq_refl).
Defined.

(** C4, as stated, fails: the run below returns nil, no handler call has
    failed, and the item 1 accepted by [Consume] was never handed to the
    handler, because the context was cancelled before the worker received
    it. *)
Lemma cancelled_run_leaves_item :
  bucket.Run accept [AConsume 1%Z; ACancel; WCtxDone 0; WReport 0]
             (New Z (bucket.mkConfig 2 0 1)).1.2 false ()
  = Ok (None, one_left_behind) /\
  no_failure one_left_behind /\
  ~ concat (delivered one_left_behind) ≡ₚ consumed one_left_behind.
Proof.
  split; [reflexivity|]. split.
  - intros inv Hin. by apply elem_of_nil in Hin.
  - cbn. intros Hperm. by apply Permutation_nil_cons in Hperm.
Qed.

(** ** Handler failures *)

(** What holds when [Run] returns. *)
Lemma returned_run_accounts {T H} (f : @ProcessFunc T H)
    (c : bucket.Config) (sched : list (@bucket.action T)) (ctx : bool) (h : H)
    (r : option error) (st : @bucket.state T H) :
  bucket.Run f sched (New T c).1.2 ctx h = Ok (r, st) ->
  (forall inv err, inv ∈ history st -> inv_result inv = Some err ->
     reported (inv_worker inv) err ∈ errCh st /\ r <> None) /\
  (forall e, r = Some e ->
     exists i queue err rest,
       e = reported i err /\ wraps e err /\
       mkInvocation i queue (Some err) ∈ history st /\
       errCh st = e :: rest) /\
  r = head (errCh st) /\
  consumed st ≡ₚ concat (delivered st) ++ buf (consumer (st_bucket st)).
Proof.
  intros Hrun. apply Run_Ok in Hrun as (Hexec & Hall & Hr).
  destruct (New_fresh (T := T) c) as (Hbuf & _ & Hwn & _).
  assert (Hwn0 : (0 <= bucket.WorkerNum (bucket.cfg (New T c).1.2))%Z) by lia.
  pose proof (exec_sound f _ _ _ Hexec
                (Run_start_sound _ ctx h Hbuf Hwn0)) as (Hc & Ha & _).
  split_and!.
  - intros inv err Hin Hres.
    pose proof (finished_failures_reported st inv err Ha Hall Hin Hres) as He.
    split; [done|]. rewrite Hr. destruct (errCh st); [|done].
    by apply elem_of_nil in He.
  - intros e He. rewrite Hr in He.
    destruct (errCh st) as [|e' rest] eqn:Hch; [done|]. injection He as ->.
    destruct Ha as (_ & _ & _ & _ & Herrs & _).
    destruct (Herrs e) as (i & queue & err & -> & Hin); [rewrite Hch; left|].
    exists i, queue, err, rest. split_and!; try done.
    unfold reported; cbn [wraps]. right. apply wraps_refl.
  - done.
  - destruct (all_exited _ Hall) as [_ Hpend].
    unfold conserved in Hc. by rewrite Hpend in Hc.
Qed.

(** C7.  Once the handler has refused a batch, [Run] can return, and it
    returns a non-nil error.  When [Run] returns: every batch the handler
    refused has its error, tagged with the worker, in [errCh], and then the
    result is not nil; the error returned is the first one that reached
    [errCh], it wraps the error of a refused batch, and the errors behind it
    in [errCh] are not returned; and every item accepted by [Consume] is in
    exactly one batch handed to the handler or still in the intake. *)
Theorem handler_failure_is_returned {T H} (f : @ProcessFunc T H)
    (c : bucket.Config) (ctx : bool) (h : H) :
  (forall sched st inv err,
     bucket.exec f sched (Run_start (New T c).1.2 ctx h) = Ok st ->
     inv ∈ history st -> inv_result inv = Some err ->
     exists more e st',
       bucket.Run f (sched ++ more) (New T c).1.2 ctx h = Ok (Some e, st')) /\
  (forall sched r st,
     bucket.Run f sched (New T c).1.2 ctx h = Ok (r, st) ->
     (forall inv err, inv ∈ history st -> inv_result inv = Some err ->
        reported (inv_worker inv) err ∈ errCh st /\ r <> None) /\
     (forall e, r = Some e ->
        exists i queue err rest,
          e = reported i err /\ wraps e err /\
          mkInvocation i queue (Some err) ∈ history st /\
          errCh st = e :: rest) /\
     r = head (errCh st) /\
     consumed st ≡ₚ concat (delivered st) ++ buf (consumer (st_bucket st))).
Proof.
  split; [|intros sched r st; apply returned_run_accounts].
  intros sched st inv err Hexec Hin Hres.
  destruct (New_fresh (T := T) c) as (Hbuf & _ & Hwn & _).
  assert (Hwn0 : (0 <= bucket.WorkerNum (bucket.cfg (New T c).1.2))%Z) by lia.
  pose proof (exec_sound f _ _ _ Hexec
                (Run_start_sound _ ctx h Hbuf Hwn0)) as (_ & Ha & _).
  destruct (failed_run_can_return f st inv err Ha Hin Hres)
    as (more & st' & Hmore & Hall).
  assert (Hrun : exists r, bucket.Run f (sched ++ more) (New T c).1.2 ctx h
                           = Ok (r, st')).
  { unfold bucket.Run, Run_result. rewrite exec_app, Hexec, Hmore, Hall. eauto. }
  destruct Hrun as [r Hrun].
  destruct (returned_run_accounts f c _ ctx h r st' Hrun) as (Hrep & _).
  destruct (step_history_exec f more st st' Hmore) as [extra Hh].
  destruct (Hrep inv err) as [_ Hr]; [rewrite Hh, elem_of_app; auto|done|].
  destruct r as [e|]; [|done]. eauto.
Qed.

Lemma handler_failure_is_returned_witness :
  Some (reported 1 (ErrorString "load failed"))
  = head (errCh both_refused).
Proof.
  exact (proj1 (proj2 (proj2
    (proj2 (handler_failure_is_returned refuse (bucket.mkConfig 1 0 2)
              false ())
       [AConsume 1%Z; WRecv 0; AConsume 2%Z; WRecv 1; AConsume 3%Z;
        WReport 1; WReport 0]
       (Some (reported 1 (ErrorString "load failed")))
       both_refused eq_refl)))).
Defined.

(** ** One worker *)

(** The batches of a run of one worker. *)
Lemma single_worker_chunks {T H} (f : @ProcessFunc T H)
    (c : bucket.Config) (items : list T) (sched : list (@bucket.action T))
    (h : H) (st : @bucket.state T H) :
  let b := (New T c).1.2 in
  let B := Z.to_nat (BatchSize (bucket.cfg b)) in
  let N := length items in
  bucket.WorkerNum (bucket.cfg b) = 1%Z ->
  external sched = map AConsume items ++ [AClose] ->
  existsb is_tick sched = false ->
  bucket.Run f sched b false h = Ok (None, st) ->
  length (delivered st) = (N + B - 1) / B /\
  concat (delivered st) = items /\
  (forall k batch, delivered st !! k = Some batch ->
                   S k < length (delivered st) -> length batch = B) /\
  (forall batch, last (delivered st) = Some batch ->
                 length batch = if (N mod B =? 0)%nat then B else N mod B).
Proof.
  intros b B N Hone Hclient Hticks Hrun.
  assert (Hticks' : Forall (fun a => is_tick a = false) sched).
  { clear -Hticks. induction sched as [|a sched IH]; [constructor|].
    cbn in Hticks. apply orb_false_iff in Hticks as [Ha Hs].
    constructor; auto. }
  clear Hticks. rename Hticks' into Hticks.
  apply Run_Ok in Hrun as (Hexec & Hall & Herr).
  destruct (New_fresh (T := T) c) as (Hbuf & _ & Hwn & HB & _).
  fold b in Hbuf, Hwn, HB. clearbody b.
  assert (Hlen0 : length (workers (Run_start b false h)) = 1).
  { cbn. rewrite length_replicate, Hone. done. }
  assert (Hstart : sound (Run_start b false h) /\ in_order (Run_start b false h)
                   /\ sized (Run_start b false h)).
  { split_and!.
    - apply Run_start_sound; [done|lia].
    - unfold in_order, delivered; cbn. rewrite Hbuf, Hone. done.
    - unfold sized; cbn. rewrite Hone. cbn. intros _ _.
      split; [constructor|]. cbn [length]. lia. }
  destruct (exec_single_worker f _ _ _ Hticks Hlen0 Hexec Hstart)
    as (Hs & Ho & Hz).
  destruct (exec_external f _ _ _ Hexec) as [Hcons Hctx].
  destruct (submitted_external sched) as [Hsub Hcan].
  destruct (submitted_client items) as [Hsub' Hcan'].
  rewrite Hsub, Hclient, Hsub' in Hcons. rewrite Hcan, Hclient, Hcan' in Hctx.
  cbn in Hcons, Hctx.
  destruct (exec_static f _ _ _ Hexec) as (Hcfg & _ & Hlen).
  rewrite Hlen0 in Hlen.
  assert (Herr' : errCh st = []) by (by destruct (errCh st)).
  destruct (finished_drained st Hs) as (Hnf & Hbuf' & Hpend); try done.
  { by destruct (workers st). }
  unfold in_order in Ho. rewrite Hpend, Hbuf', !app_nil_r, Hcons in Ho.
  specialize (Hz Hctx Hnf). rewrite Hcfg in Hz. cbn in Hz. fold B in Hz.
  assert (Hch : chunked B (delivered st)).
  { destruct (workers st) as [|w [|]]; try done.
    destruct w; try done. }
  pose proof (chunked_count B (delivered st) ltac:(lia) Hch) as Hcount.
  cbn zeta in Hcount. rewrite <- Ho in Hcount. fold N in Hcount.
  destruct Hcount as (H1 & H2 & H3). split_and!; done.
Qed.


Lemma accepted_flush {T H} (f : @ProcessFunc T H) ctx queue h :
  (forall ctx queue h0, (f ctx queue h0).2 = None) ->
  flush f ctx queue h
  = ([], None, if (0 <? length queue)%nat then (f ctx queue h).1 else h).
Proof.
  intros Hacc. unfold flush. destruct queue as [|x queue]; [done|]. cbn.
  specialize (Hacc ctx (x :: queue) h).
  destruct (f ctx (x :: queue) h) as [h' r]. cbn in *. by subst r.
Qed.

(** The one-worker scenario can happen for every batch size and every
    sequence of items: with a handler that accepts every batch, the lockstep schedule
    is an execution at whose end [Run] returns nil. *)
Lemma single_worker_run_exists {T H} (f : @ProcessFunc T H)
    (c : bucket.Config) (items : list T) (h : H) :
  (forall ctx queue h0, (f ctx queue h0).2 = None) ->
  bucket.WorkerNum (bucket.cfg (New T c).1.2) = 1%Z ->
  external (lockstep items) = map AConsume items ++ [AClose] /\
  existsb is_tick (lockstep items) = false /\
  exists st, bucket.Run f (lockstep items) (New T c).1.2 false h = Ok (None, st).
Proof.
  intros Hacc Hone. split_and!.
  - unfold lockstep, external. induction items as [|x items IH]; [done|].
    cbn. by rewrite IH.
  - unfold lockstep. induction items as [|x items IH]; [done|]. exact IH.
  - destruct (New_fresh (T := T) c) as (Hbuf & Hcl & _ & HB & Hcap).
    set (b := (New T c).1.2) in *. clearbody b.
    destruct b as [cf [bf cp cl]]. cbn in *. subst bf cl cp.
    unfold bucket.Run, Run_start. cbn [bucket.cfg]. rewrite Hone.
    change (replicate (Z.to_nat 1) (Looping [])) with [@Looping T []].
    assert (Hgo : forall queue hist cons h1,
      exists st,
        bucket.exec f (lockstep items)
          (mkState (mkBucket cf (Chan [] (BatchSize cf) false)) false false
                   [Looping queue] [] h1 hist cons)
        = Ok st /\ workers st = [Exited] /\ errCh st = []).
    { unfold lockstep. induction items as [|x items IH];
        intros queue hist cons h1.
      - cbn. unfold after_flush. rewrite (accepted_flush f _ _ _ Hacc). cbn.
        eexists. split; [reflexivity|done].
      - cbn [flat_map app bucket.exec].
        assert (Hsend : bucket.step f (AConsume x)
          (mkState (mkBucket cf (Chan [] (BatchSize cf) false)) false false
                   [Looping queue] [] h1 hist cons)
          = Ok (mkState (mkBucket cf (Chan [x] (BatchSize cf) false))
                        false false [Looping queue] [] h1 hist (cons ++ [x]))).
        { cbn. unfold Consume, chan_send. cbn.
          change (Z.of_nat 0) with 0%Z.
          by destruct (Z.ltb_spec 0 (BatchSize cf)) as [_|?]; [|lia]. }
        rewrite Hsend. cbn [bucket.step workers lookup list_lookup].
        cbn [st_bucket consumer chan_recv buf bucket.cfg cap closed].
        destruct (_ <=? _)%Z.
        + unfold after_flush. rewrite (accepted_flush f _ _ _ Hacc).
          cbn [workers insert list_insert st_bucket consumer].
          apply IH.
        + apply IH. }
    destruct (Hgo [] [] [] h) as (st & -> & Hw & He).
    exists st. unfold Run_result. rewrite Hw, He. done.
Qed.

(** C3.  One worker and batch size [B]; the client submits [items] in order
    and then closes, no tick of the flush timer is taken and ctx is not
    cancelled.  Such a run can return nil (with a handler that accepts every
    batch, serving the client in lockstep does); and whenever it returns
    nil, the handler has received [ceil(N/B)] batches whose concatenation, in
    the order of the calls, is [items]; every batch but the last has [B]
    items and the last has [N mod B] items, or [B] when [B] divides [N]. *)
Theorem single_worker_batches {T H} (f : @ProcessFunc T H)
    (c : bucket.Config) (items : list T) (h : H) :
  let b := (New T c).1.2 in
  let B := Z.to_nat (BatchSize (bucket.cfg b)) in
  let N := length items in
  bucket.WorkerNum (bucket.cfg b) = 1%Z ->
  ((forall ctx queue h0, (f ctx queue h0).2 = None) ->
   exists sched st,
     external sched = map AConsume items ++ [AClose] /\
     existsb is_tick sched = false /\
     bucket.Run f sched b false h = Ok (None, st)) /\
  (forall sched st,
     external sched = map AConsume items ++ [AClose] ->
     existsb is_tick sched = false ->
     bucket.Run f sched b false h = Ok (None, st) ->
     length (delivered st) = (N + B - 1) / B /\
     concat (delivered st) = items /\
     (forall k batch, delivered st !! k = Some batch ->
                      S k < length (delivered st) -> length batch = B) /\
     (forall batch, last (delivered st) = Some batch ->
                    length batch = if (N mod B =? 0)%nat then B else N mod B)).
Proof.
  intros b B N Hone. split.
  - intros Hacc.
    destruct (single_worker_run_exists f c items h Hacc Hone)
      as (Hext & Hticks & st & Hrun).
    by exists (lockstep items), st.
  - intros sched st. by apply single_worker_chunks.
Qed.

Lemma single_worker_batches_witness :
  length (delivered seven_items_done) = 3 /\
  concat (delivered seven_items_done) = [1; 2; 3; 4; 5; 6; 7]%Z /\
  (forall k batch, delivered seven_items_done !! k = Some batch ->
                   S k < length (delivered seven_items_done) ->
                   length batch = 3) /\
  (forall batch, last (delivered seven_items_done) = Some batch ->
                 length batch = 1).
Proof.
  exact (proj2 (single_worker_batches accept (bucket.mkConfig 3 100000000 1)
                  [1; 2; 3; 4; 5; 6; 7]%Z () eq_refl)
           seven_items_schedule seven_items_done eq_refl eq_refl eq_refl).
Defined.

(** ** The manager *)

Section ManagerInvariants.
Context {W : Type}.
Variable m : Manager W.

Lemma mstep_managed a (st st' : @mstate W) :
  managed m st -> mstep m a st = Ok st' -> managed m st'.
Proof.
  intros (Hlen & Hnd & Hfin & Hres & Hctx). destruct a as [|i|i]; cbn.
  - intros [= <-]. unfold managed; cbn. split_and!; auto.
  - destruct (tasks st !! i) as [[| |]|] eqn:Hi; try done.
    destruct (chan_send _ _) as [sem'| |]; try done.
    intros [= <-]. unfold managed; cbn. rewrite length_insert.
    split_and!; auto.
    intros j. rewrite Hfin. destruct (decide (j = i)) as [->|Hne].
    + rewrite list_lookup_insert_eq by (by eapply lookup_lt_Some).
      rewrite Hi. split; intros [=].
    + by rewrite list_lookup_insert_ne.
  - destruct (tasks st !! i) as [[| |]|] eqn:Hi; try done.
    destruct (pipelines m !! i) as [p|] eqn:Hp; try done.
    destruct (Run p (mctx st) (bcfg st) (world st)) as [[[w' c'] r]| |];
      try done.
    unfold chan_send. destruct (closed (results st)); try done.
    destruct (_ <? _)%Z; try done.
    destruct (chan_recv (sem st)) as [[o sem']| |]; try done.
    intros [= <-]. unfold managed; cbn. rewrite length_insert.
    rewrite !map_app. cbn.
    assert (Hnew : i ∉ map ran_index (runs st)).
    { rewrite Hfin, Hi. intros [=]. }
    split_and!; auto.
    + apply NoDup_app. split_and!; [done| |apply NoDup_singleton].
      intros j Hj Hj'. apply list_elem_of_singleton in Hj' as ->. done.
    + intros j. rewrite elem_of_app, list_elem_of_singleton, Hfin.
      destruct (decide (j = i)) as [->|Hne].
      * rewrite list_lookup_insert_eq by (by eapply lookup_lt_Some). tauto.
      * rewrite list_lookup_insert_ne by done. tauto.
    + rewrite Hres. f_equal. unfold sent_result; cbn. rewrite Hp.
      by destruct r.
    + intros r0. rewrite elem_of_app, list_elem_of_singleton.
      intros [Hin| ->]; [eauto|done].
Qed.

Lemma mexec_managed sched (st st' : @mstate W) :
  mexec m sched st = Ok st' -> managed m st ->
  managed m st' /\ mctx st' = mctx st || mcancels sched.
Proof.
  revert st. induction sched as [|a sched IH]; intros st; cbn.
  - intros [= <-] Hm. by rewrite orb_false_r.
  - destruct (mstep m a st) as [st1| |] eqn:Hstep; try done.
    intros Hexec Hm. pose proof (mstep_managed _ _ _ Hm Hstep) as Hm1.
    destruct (IH _ Hexec Hm1) as [Hm' ->]. split; [done|].
    destruct a as [|i|i]; cbn in Hstep.
    + injection Hstep as <-. cbn. by rewrite orb_true_r.
    + destruct (tasks st !! i) as [[| |]|]; try done.
      destruct (chan_send _ _); try done. by injection Hstep as <-.
    + destruct (tasks st !! i) as [[| |]|]; try done.
      destruct (pipelines m !! i); try done.
      destruct (Run _ _ _ _) as [[[? ?] ?]| |]; try done.
      destruct (chan_send _ _); try done.
      destruct (chan_recv _) as [[? ?]| |]; try done.
      by injection Hstep as <-.
Qed.

Lemma RunAll_start_managed ctx w : managed m (RunAll_start m ctx w).
Proof.
  unfold managed, RunAll_start; cbn. rewrite length_replicate.
  split_and!; try done.
  - constructor.
  - intros i. split; [by intros ?%elem_of_nil|].
    by intros [? _]%lookup_replicate.
  - intros r ?%elem_of_nil. done.
Qed.

Lemma all_finished (ts : list gstate) :
  forallb is_finished ts = true ->
  forall i, i < length ts -> ts !! i = Some Finished.
Proof.
  induction ts as [|t ts IH]; cbn; [lia|].
  destruct t; try done. cbn. intros Hall [|i] Hi; [done|].
  cbn. apply IH; [done|lia].
Qed.

Lemma first_error_None (rs : list (option error)) :
  first_error rs = None <-> forall r, r ∈ rs -> r = None.
Proof.
  induction rs as [|[e|] rs IH]; cbn.
  - split; [|done]. by intros _ r ?%elem_of_nil.
  - split; [done|]. intros Hall. by specialize (Hall (Some e) ltac:(left)).
  - rewrite IH. split.
    + intros Hall r [->|Hin]%elem_of_cons; auto.
    + intros Hall r Hin. apply Hall. by right.
Qed.

Lemma first_error_Some (rs : list (@ran)) e :
  first_error (map (sent_result m) rs) = Some e ->
  exists r p err, r ∈ rs /\ pipelines m !! ran_index r = Some p /\
                  ran_result r = Some err /\
                  e = WrapError ("pipeline " +:+ Name p +:+ " failed: ") err.
Proof.
  induction rs as [|r rs IH]; [done|]. cbn. unfold sent_result at 1.
  destruct (ran_result r) as [err|] eqn:Hr;
    [destruct (pipelines m !! ran_index r) as [p|] eqn:Hp|].
  - intros [= <-]. exists r, p, err. split_and!; try done. by left.
  - intros He. destruct (IH He) as (r' & p & err' & Hin & ?).
    exists r', p, err'. split; [by right|done].
  - intros He. destruct (IH He) as (r' & p & err' & Hin & ?).
    exists r', p, err'. split; [by right|done].
Qed.

Lemma active_insert (ts : list gstate) i g g' :
  ts !! i = Some g ->
  length (List.filter is_active (<[i := g']> ts))
  + (if is_active g then 1 else 0)
  = length (List.filter is_active ts) + (if is_active g' then 1 else 0).
Proof.
  revert i. induction ts as [|t ts IH]; intros [|i]; simpl; try done.
  - intros [= ->]. destruct g, g'; simpl; lia.
  - intros Hi. specialize (IH _ Hi). destruct (is_active t); simpl; lia.
Qed.

Lemma mstep_slotted a (st st' : @mstate W) :
  slotted m st -> mstep m a st = Ok st' -> slotted m st'.
Proof.
  unfold slotted, holding. intros (Hlen & Hle & Hcap & Hopen).
  destruct a as [|i|i]; cbn.
  - by intros [= <-].
  - destruct (tasks st !! i) as [[| |]|] eqn:Hi; try done.
    unfold chan_send. rewrite Hopen.
    destruct (Z.ltb_spec (Z.of_nat (length (buf (sem st)))) (cap (sem st)));
      [|done].
    intros [= <-]. cbn. pose proof (active_insert _ _ _ Active Hi) as Hins.
    cbn in Hins. rewrite length_app. cbn. split_and!; try done; lia.
  - destruct (tasks st !! i) as [[| |]|] eqn:Hi; try done.
    destruct (pipelines m !! i) as [p|]; try done.
    destruct (Run p (mctx st) (bcfg st) (world st)) as [[[w' c'] r]| |];
      try done.
    destruct (chan_send _ _); try done.
    pose proof (active_insert _ _ _ Finished Hi) as Hins. cbn in Hins.
    unfold chan_recv. rewrite Hopen.
    destruct (buf (sem st)) as [|u rest] eqn:Hbuf; [done|].
    intros [= <-]. cbn in *. split_and!; try done; lia.
Qed.

Lemma mexec_slotted sched (st st' : @mstate W) :
  slotted m st -> mexec m sched st = Ok st' -> slotted m st'.
Proof.
  revert st. induction sched as [|a sched IH]; intros st Hs; cbn.
  - by intros [= <-].
  - destruct (mstep m a st) as [st1| |] eqn:Hstep; try done.
    apply IH. by eapply mstep_slotted.
Qed.

Lemma RunAll_start_slotted ctx w :
  (0 <= etl.WorkerNum (etl.cfg m))%Z -> slotted m (RunAll_start m ctx w).
Proof.
  intros Hwn. unfold slotted, holding, RunAll_start; cbn.
  split_and!; try done.
  induction (length (pipelines m)) as [|n IH]; [done|exact IH].
Qed.

Lemma mstep_roomy a (st st' : @mstate W) :
  roomy m st -> mstep m a st = Ok st' -> roomy m st'.
Proof.
  unfold roomy. intros [Hcap Hopen]. destruct a as [|i|i]; cbn.
  - by intros [= <-].
  - destruct (tasks st !! i) as [[| |]|]; try done.
    destruct (chan_send _ _); try done. by intros [= <-].
  - destruct (tasks st !! i) as [[| |]|]; try done.
    destruct (pipelines m !! i); try done.
    destruct (Run _ _ _ _) as [[[? ?] ?]| |]; try done.
    unfold chan_send. rewrite Hopen. destruct (_ <? _)%Z; try done.
    destruct (chan_recv _) as [[? ?]| |]; try done. by intros [= <-].
Qed.

Lemma mexec_app sched1 sched2 (st : @mstate W) :
  mexec m (sched1 ++ sched2) st
  = match mexec m sched1 st with
    | Ok st1 => mexec m sched2 st1
    | Blocks => Blocks
    | Panics => Panics
    end.
Proof.
  revert st. induction sched1 as [|a sched1 IH]; intros st; cbn; [done|].
  destruct (mstep m a st); auto.
Qed.

(** A goroutine that holds a slot can finish: [results] has room for its
    result and [sem] holds its token. *)
Lemma finish_task (st : @mstate W) i :
  (forall p cx c w0, p ∈ pipelines m -> exists r, Run p cx c w0 = Ok r) ->
  managed m st -> slotted m st -> roomy m st ->
  tasks st !! i = Some Active ->
  exists st', mstep m (Finish i) st = Ok st' /\
              tasks st' = <[i := Finished]> (tasks st).
Proof.
  intros Hruns (Hlen & Hnd & Hfin & Hres & _) (Hsem & _ & _ & Hsopen)
         [Hcap Hopen] Hi.
  cbn [mstep]. rewrite Hi.
  assert (Hlt : i < length (pipelines m)).
  { rewrite <- Hlen. by eapply lookup_lt_Some. }
  destruct (lookup_lt_is_Some_2 _ _ Hlt) as [p Hp]. rewrite Hp.
  destruct (Hruns p (mctx st) (bcfg st) (world st)) as [[[w' c'] r] ->].
  { by eapply list_elem_of_lookup_2. }
  assert (Hroom : length (runs st) < length (pipelines m)).
  { assert (Hnd' : NoDup (i :: map ran_index (runs st))).
    { constructor; [|done]. rewrite Hfin, Hi. intros [=]. }
    assert (Hsub : i :: map ran_index (runs st)
                   ⊆+ seq 0 (length (pipelines m))).
    { apply NoDup_submseteq; [done|]. intros j Hj. apply elem_of_seq.
      split; [lia|]. cbn. apply elem_of_cons in Hj as [->|Hj]; [done|].
      apply Hfin in Hj. rewrite <- Hlen. by eapply lookup_lt_Some. }
    apply submseteq_length in Hsub. rewrite length_seq in Hsub. cbn in Hsub.
    rewrite length_map in Hsub. lia. }
  unfold chan_send. rewrite Hopen, Hcap, Hres, length_map.
  destruct (Z.ltb_spec (Z.of_nat (length (runs st)))
              (Z.of_nat (length (pipelines m)))); [|lia].
  pose proof (active_insert _ _ _ Finished Hi) as Hins. cbn in Hins.
  unfold holding in Hsem. unfold chan_recv.
  destruct (buf (sem st)) as [|u rest]; [cbn in Hsem; lia|].
  eexists. split; reflexivity.
Qed.

Lemma acquire_task (st : @mstate W) i :
  slotted m st ->
  (Z.of_nat (holding st) < etl.WorkerNum (etl.cfg m))%Z ->
  tasks st !! i = Some Waiting ->
  exists st', mstep m (Acquire i) st = Ok st' /\
              tasks st' = <[i := Active]> (tasks st).
Proof.
  intros (Hsem & _ & Hcap & Hopen) Hfree Hi. cbn [mstep]. rewrite Hi.
  unfold chan_send. rewrite Hopen, Hcap, Hsem.
  destruct (Z.ltb_spec (Z.of_nat (holding st)) (etl.WorkerNum (etl.cfg m)));
    [|lia].
  eexists. split; reflexivity.
Qed.

Lemma settled_hold_nothing (ts : list gstate) :
  List.filter is_active (map settle ts) = [].
Proof. induction ts as [|[| |] ts IH]; cbn; done. Qed.

(** First the goroutines that hold a slot finish ... *)
Lemma finish_actives (ws : list gstate) :
  (forall p cx c w0, p ∈ pipelines m -> exists r, Run p cx c w0 = Ok r) ->
  forall pre (st : @mstate W),
    managed m st -> slotted m st -> roomy m st ->
    tasks st = pre ++ ws ->
    exists sched st',
      mexec m sched st = Ok st' /\
      managed m st' /\ slotted m st' /\ roomy m st' /\
      tasks st' = pre ++ map settle ws.
Proof.
  intros Hruns. induction ws as [|g ws IH]; intros pre st Hm Hs Hr Hts.
  - exists [], st. by rewrite Hts.
  - assert (Hnext : forall st1,
      managed m st1 -> slotted m st1 -> roomy m st1 ->
      tasks st1 = (pre ++ [settle g]) ++ ws ->
      exists sched st',
        mexec m sched st1 = Ok st' /\
        managed m st' /\ slotted m st' /\ roomy m st' /\
        tasks st' = pre ++ map settle (g :: ws)).
    { intros st1 Hm1 Hs1 Hr1 Hts1.
      destruct (IH _ _ Hm1 Hs1 Hr1 Hts1) as (sched & st' & ? & ? & ? & ? & Ht).
      exists sched, st'. split_and!; try done.
      by rewrite Ht, <- app_assoc. }
    destruct g.
    + apply Hnext; try done. by rewrite Hts, <- app_assoc.
    + assert (Hi : tasks st !! length pre = Some Active).
      { rewrite Hts, lookup_app_r, Nat.sub_diag by lia. done. }
      destruct (finish_task st _ Hruns Hm Hs Hr Hi) as (st1 & Hstep & Ht1).
      destruct (Hnext st1) as (sched & st' & Hexec & ?).
      * by eapply mstep_managed.
      * by eapply mstep_slotted.
      * by eapply mstep_roomy.
      * rewrite Ht1, Hts, insert_app_r_alt, Nat.sub_diag by lia.
        by rewrite <- app_assoc.
      * exists (Finish (length pre) :: sched), st'. cbn [mexec].
        by rewrite Hstep.
    + apply Hnext; try done. by rewrite Hts, <- app_assoc.
Qed.

(** ... then the waiting ones take a slot and finish, one after the
    other. *)
Lemma finish_waiting (ws : list gstate) :
  (1 <= etl.WorkerNum (etl.cfg m))%Z ->
  (forall p cx c w0, p ∈ pipelines m -> exists r, Run p cx c w0 = Ok r) ->
  forall pre (st : @mstate W),
    managed m st -> slotted m st -> roomy m st -> holding st = 0 ->
    tasks st = pre ++ ws ->
    exists sched st',
      mexec m sched st = Ok st' /\
      tasks st' = pre ++ replicate (length ws) Finished.
Proof.
  intros Hwn Hruns.
  induction ws as [|g ws IH]; intros pre st Hm Hs Hr Hh Hts.
  - exists [], st. by rewrite Hts.
  - assert (Hi : tasks st !! length pre = Some g).
    { rewrite Hts, lookup_app_r, Nat.sub_diag by lia. done. }
    assert (Hnext : forall st1,
      managed m st1 -> slotted m st1 -> roomy m st1 -> holding st1 = 0 ->
      tasks st1 = (pre ++ [Finished]) ++ ws ->
      exists sched st',
        mexec m sched st1 = Ok st' /\
        tasks st' = pre ++ replicate (length (g :: ws)) Finished).
    { intros st1 Hm1 Hs1 Hr1 Hh1 Hts1.
      destruct (IH _ _ Hm1 Hs1 Hr1 Hh1 Hts1) as (sched & st' & ? & Ht).
      exists sched, st'. split; [done|]. by rewrite Ht, <- app_assoc. }
    destruct g.
    + destruct (acquire_task st _ Hs ltac:(lia) Hi) as (st1 & Hstep1 & Ht1).
      pose proof (mstep_managed _ _ _ Hm Hstep1) as Hm1.
      pose proof (mstep_slotted _ _ _ Hs Hstep1) as Hs1.
      pose proof (mstep_roomy _ _ _ Hr Hstep1) as Hr1.
      assert (Hi1 : tasks st1 !! length pre = Some Active).
      { rewrite Ht1. apply list_lookup_insert_eq. by eapply lookup_lt_Some. }
      destruct (finish_task st1 _ Hruns Hm1 Hs1 Hr1 Hi1)
        as (st2 & Hstep2 & Ht2).
      rewrite Ht1, list_insert_insert_eq in Ht2.
      destruct (Hnext st2) as (sched & st' & Hexec & ?).
      * by eapply mstep_managed.
      * by eapply mstep_slotted.
      * by eapply mstep_roomy.
      * pose proof (active_insert _ _ _ Finished Hi) as Hins. cbn in Hins.
        unfold holding in *. rewrite Ht2. lia.
      * rewrite Ht2, Hts, insert_app_r_alt, Nat.sub_diag by lia.
        by rewrite <- app_assoc.
      * exists (Acquire (length pre) :: Finish (length pre) :: sched), st'.
        cbn [mexec]. by rewrite Hstep1, Hstep2.
    + pose proof (active_insert _ _ _ Finished Hi) as Hins. cbn in Hins.
      unfold holding in Hh. lia.
    + apply Hnext; try done. by rewrite Hts, <- app_assoc.
Qed.

End ManagerInvariants.

(** [RunAll] can return: when there is room for one pipeline at a time and
    every [Run] returns, running the pipelines one by one is an execution at
    whose end [wg.Wait()] is over. *)
Lemma RunAll_one_by_one {W} (m : Manager W) (ctx : bool) (w : W) :
  (1 <= etl.WorkerNum (etl.cfg m))%Z ->
  (forall p c w0, p ∈ pipelines m -> exists r, Run p ctx c w0 = Ok r) ->
  exists out, RunAll m (one_by_one 0 (length (pipelines m))) ctx w = Ok out.
Proof.
  intros Hwn Hruns. unfold RunAll.
  destruct (length (pipelines m) =? 0)%nat; [eauto|].
  assert (Hgo : forall count first rs w0 c0 hist,
    first + count = length (pipelines m) ->
    length rs = first ->
    exists st,
      mexec m (one_by_one first count)
        (mkMState (Chan [] (etl.WorkerNum (etl.cfg m)) false)
                  (Chan rs (Z.of_nat (length (pipelines m))) false)
                  (replicate first Finished ++ replicate count Waiting)
                  w0 c0 ctx hist)
      = Ok st /\ tasks st = replicate (first + count) Finished).
  { induction count as [|count IH]; intros first rs w0 c0 hist Hn Hrs.
    - cbn. eexists. split; [reflexivity|]. cbn.
      by rewrite app_nil_r, Nat.add_0_r.
    - unfold one_by_one. cbn [seq flat_map app mexec].
      assert (Hlook : (replicate first Finished
                       ++ replicate (S count) (@Waiting)) !! first
                      = Some Waiting).
      { rewrite lookup_app_r by (rewrite length_replicate; lia).
        rewrite length_replicate, Nat.sub_diag. done. }
      cbn [mstep tasks]. rewrite Hlook. cbn [sem].
      unfold chan_send at 1. cbn [closed buf cap length].
      change (Z.of_nat 0) with 0%Z.
      destruct (Z.ltb_spec 0 (etl.WorkerNum (etl.cfg m))) as [_|?]; [|lia].
      cbn [mstep tasks].
      assert (Hins : forall g, <[first := g]> (replicate first Finished
                        ++ replicate (S count) (@Waiting))
                     = replicate first Finished ++ g :: replicate count Waiting).
      { intros g. rewrite insert_app_r_alt by (rewrite length_replicate; lia).
        by rewrite length_replicate, Nat.sub_diag. }
      rewrite Hins.
      assert (Hact : (replicate first Finished
                      ++ Active :: replicate count Waiting) !! first
                     = Some Active).
      { rewrite lookup_app_r by (rewrite length_replicate; lia).
        rewrite length_replicate, Nat.sub_diag. done. }
      rewrite Hact.
      destruct (lookup_lt_is_Some_2 (pipelines m) first ltac:(lia)) as [p Hp].
      rewrite Hp. cbn [mctx bcfg world].
      destruct (Hruns p c0 w0) as [[[w1 c1] r] Hrun].
      { by eapply list_elem_of_lookup_2. }
      rewrite Hrun. cbn [results].
      unfold chan_send. cbn [closed buf cap].
      destruct (Z.ltb_spec (Z.of_nat (length rs))
                  (Z.of_nat (length (pipelines m)))) as [_|Hge];
        [|clear -Hn Hrs Hge; lia].
      cbn [sem chan_recv buf cap closed].
      assert (Hins' : <[first := Finished]> (replicate first Finished
                        ++ Active :: replicate count Waiting)
                      = replicate (S first) Finished ++ replicate count Waiting).
      { rewrite insert_app_r_alt by (rewrite length_replicate; lia).
        rewrite length_replicate, Nat.sub_diag. cbn.
        change (Finished :: replicate count Waiting)
          with ([Finished] ++ replicate count Waiting).
        rewrite app_assoc. f_equal.
        change [Finished] with (replicate 1 Finished).
        rewrite <- replicate_add, Nat.add_1_r. done. }
      rewrite Hins'.
      destruct (IH (S first)
                  (rs ++ [match r with
                          | Some err =>
                              Some (WrapError ("pipeline " +:+ Name p
                                               +:+ " failed: ") err)
                          | None => None
                          end])
                  w1 c1 (hist ++ [mkRan first ctx r]))
        as (st & Hst & Htasks); [lia|rewrite length_app; cbn; lia|].
      exists st. split; [exact Hst|]. rewrite Htasks. f_equal. lia. }
  destruct (Hgo (length (pipelines m)) 0 [] w
                (bucketConfig m) []) as (st & Hst & Htasks); [lia|done|].
  unfold RunAll_start, make_chan. cbn [replicate app] in Hst.
  rewrite Hst, Htasks.
  assert (Hall : forall n, forallb is_finished (replicate n Finished) = true)
    by (induction n; [done|exact IHn]).
  rewrite Hall. eauto.
Qed.

(** What holds when [RunAll] returns. *)
Lemma returned_RunAll_accounts {W} (m : Manager W) (sched : list maction)
    (ctx : bool) (w : W) (out : @outcome W) :
  0 < length (pipelines m) ->
  RunAll m sched ctx w = Ok out ->
  launched out = length (pipelines m) /\
  map ran_index (completed out) ≡ₚ seq 0 (length (pipelines m)) /\
  (forall r, r ∈ completed out -> ran_ctx r = true ->
             ctx = true \/ MCancel ∈ sched) /\
  returned out = first_error (map (sent_result m) (completed out)) /\
  (forall e, returned out = Some e ->
     exists r p err, r ∈ completed out /\
       pipelines m !! ran_index r = Some p /\ ran_result r = Some err /\
       e = WrapError ("pipeline " +:+ Name p +:+ " failed: ") err) /\
  (returned out = None <->
   forall r, r ∈ completed out -> ran_result r = None).
Proof.
  intros Hpos. unfold RunAll.
  destruct (Nat.eqb_spec (length (pipelines m)) 0) as [?|_]; [lia|].
  destruct (mexec m sched (RunAll_start m ctx w)) as [st| |] eqn:Hexec;
    try done.
  destruct (forallb is_finished (tasks st)) eqn:Hall; try done.
  intros [= <-]; cbn.
  destruct (mexec_managed m _ _ _ Hexec (RunAll_start_managed m ctx w))
    as [(Hlen & Hnd & Hfin & Hres & Hctx) Hmctx].
  cbn in Hmctx. rewrite Hres.
  assert (Hlookup : forall r, r ∈ runs st ->
            exists p, pipelines m !! ran_index r = Some p).
  { intros r Hin. apply lookup_lt_is_Some. rewrite <- Hlen.
    eapply lookup_lt_Some. apply Hfin. by apply list_elem_of_fmap_2. }
  split_and!.
  - done.
  - apply NoDup_Permutation; [done|apply NoDup_seq|].
    intros i. rewrite Hfin, elem_of_seq. split.
    + intros Hi%lookup_lt_Some. lia.
    + intros [_ Hi]. apply all_finished; [done|lia].
  - intros r Hin Hr. specialize (Hctx r Hin Hr). rewrite Hmctx in Hctx.
    apply orb_true_iff in Hctx as [?|Hc]; [by left|right].
    unfold mcancels in Hc. apply existsb_exists in Hc as (a & Ha & Hc).
    destruct a; try done. by apply list_elem_of_In.
  - done.
  - intros e He. by apply first_error_Some.
  - rewrite first_error_None. split.
    + intros Hnone r Hin.
      specialize (Hnone (sent_result m r) (list_elem_of_fmap_2 _ _ _ Hin)).
      unfold sent_result in Hnone. destruct (ran_result r); [|done].
      destruct (Hlookup r Hin) as [p Hp]. by rewrite Hp in Hnone.
    + intros Hnone o (r & -> & Hin)%list_elem_of_fmap.
      unfold sent_result. by rewrite (Hnone r Hin).
Qed.

(** C6.  On a manager with pipelines, [RunAll] can return when every [Run]
    returns (running the pipelines one by one is an execution).  When it
    returns: a goroutine was started for every pipeline and each has called
    its pipeline's [Run] exactly once and finished, whatever the other
    pipelines returned; a [Run] saw ctx cancelled only if the caller
    cancelled it; the error returned is the first failure in the order in
    which the pipelines finished, wrapped with the name of its pipeline; and
    it is nil exactly when every [Run] returned nil. *)
Theorem RunAll_waits_for_all {W} (m : Manager W) (ctx : bool) (w : W) :
  0 < length (pipelines m) ->
  ((1 <= etl.WorkerNum (etl.cfg m))%Z ->
   (forall p c w0, p ∈ pipelines m -> exists r, Run p ctx c w0 = Ok r) ->
   exists out,
     RunAll m (one_by_one 0 (length (pipelines m))) ctx w = Ok out) /\
  (forall sched out,
     RunAll m sched ctx w = Ok out ->
     launched out = length (pipelines m) /\
     map ran_index (completed out) ≡ₚ seq 0 (length (pipelines m)) /\
     (forall r, r ∈ completed out -> ran_ctx r = true ->
                ctx = true \/ MCancel ∈ sched) /\
     returned out = first_error (map (sent_result m) (completed out)) /\
     (forall e, returned out = Some e ->
        exists r p err, r ∈ completed out /\
          pipelines m !! ran_index r = Some p /\ ran_result r = Some err /\
          e = WrapError ("pipeline " +:+ Name p +:+ " failed: ") err) /\
     (returned out = None <->
      forall r, r ∈ completed out -> ran_result r = None)).
Proof.
  intros Hpos. split.
  - intros Hwn Hruns. by apply RunAll_one_by_one.
  - intros sched out. by apply returned_RunAll_accounts.
Qed.

Lemma RunAll_waits_for_all_witness :
  map ran_index (completed three_pipelines_outcome) ≡ₚ seq 0 3 /\
  returned three_pipelines_outcome
  = first_error (map (sent_result three_pipelines)
                     (completed three_pipelines_outcome)).
Proof.
  pose proof (proj2 (RunAll_waits_for_all three_pipelines false []
                       ltac:(cbn; lia))
                three_pipelines_schedule three_pipelines_outcome
                ltac:(vm_compute; reflexivity)) as Hall.
  split; [exact (proj1 (proj2 Hall))|exact (proj1 (proj2 (proj2 (proj2 Hall))))].
Defined.

(** ** The orchestrator *)

Section ETLInvariants.
Context {E T S : Type}.
Variable e : ETL E T S.

(** A step of a pipeline run is a step of its feeder alone or a step of the
    engine. *)
Lemma etl_step_engine a (st st' : sys (E := E) (S := S)) :
  etl.step e a st = Ok st' ->
  engine st' = engine st \/
  exists ba, bucket.step (handler e) ba (engine st) = Ok (engine st').
Proof.
  unfold etl.step, feeder_closes. destruct a as [| | |ba].
  - destruct (feeder st); try done. destruct (bucket.ctx_done _); try done.
    destruct (bucket.step _ _ _) eqn:Hs; try done. intros [= <-]. eauto.
  - destruct (feeder st) as [[|p rest]| |]; try done.
    + destruct (bucket.step _ _ _) eqn:Hs; try done. intros [= <-]. eauto.
    + destruct (Err p).
      * destruct (bucket.step _ _ _) eqn:Hs; try done. intros [= <-]. eauto.
      * intros [= <-]. by left.
  - destruct (feeder st); try done.
    destruct (bucket.step _ _ _) eqn:Hs; try done. intros [= <-]. eauto.
  - destruct ba; try done;
      (destruct (bucket.step _ _ _) eqn:Hs; try done; intros [= <-]; eauto).
Qed.

Lemma etl_exec_engine (P : @bucket.state E S -> Prop) :
  (forall a st st', P st -> bucket.step (handler e) a st = Ok st' -> P st') ->
  forall sched st st',
    etl.exec e sched st = Ok st' -> P (engine st) -> P (engine st').
Proof.
  intros Hstep sched. induction sched as [|a sched IH]; intros st st'; cbn.
  - by intros [= <-].
  - destruct (etl.step e a st) as [st1| |] eqn:Hst; try done.
    intros Hexec HP. apply (IH _ _ Hexec).
    destruct (etl_step_engine _ _ _ Hst) as [->|[ba Hba]]; eauto.
Qed.



Lemma transform_all_length ctx items s :
  length (transform_all e ctx items s).2 = length items.
Proof.
  revert s. induction items as [|item items IH]; intros s; cbn; [done|].
  destruct (Transform (processor e) ctx item s) as [s1 t].
  specialize (IH s1). destruct (transform_all e ctx items s1) as [s2 ts].
  cbn in *. by rewrite IH.
Qed.

(** The engine of a pipeline run keeps the invariants of [Bucket.Run]. *)
Lemma etl_engine_invariants extractor sched c ctx s
    (st : sys (E := E) (S := S)) :
  etl.exec e sched
    (mkSys (Selecting extractor) [] (Run_start (New E c).1.2 ctx s)) = Ok st ->
  sound (engine st) /\ genuine (handler e) (engine st) /\
  length (workers (engine st))
  = Z.to_nat (bucket.WorkerNum (New E c).1.1).
Proof.
  intros Hexec.
  destruct (New_fresh (T := E) c) as (Hbuf & _ & Hwn & _).
  assert (Hwn0 : (0 <= bucket.WorkerNum (bucket.cfg (New E c).1.2))%Z) by lia.
  apply (etl_exec_engine
           (fun en => sound en /\ genuine (handler e) en /\
              length (workers en)
              = Z.to_nat (bucket.WorkerNum (New E c).1.1)))
    with (sched := sched)
         (st := mkSys (Selecting extractor) []
                      (Run_start (New E c).1.2 ctx s)); [|done|].
  - intros a en en' (Hs & Hg & Hl) Hstep.
    split; [by eapply step_sound|]. split; [by eapply step_genuine|].
    destruct (step_static _ _ _ _ Hstep) as (_ & _ & ->). done.
  - split; [by apply Run_start_sound|]. split.
    + intros inv Hin. by apply elem_of_nil in Hin.
    + cbn [engine Run_start workers]. by rewrite length_replicate.
Qed.









End ETLInvariants.

(** C1 fails on the code.  The stream of [interrupted] delivers the item 1
    and then a payload whose [Err] is "cursor error".  The feeder prints the
    error, closes the engine and returns; the engine flushes the item;
    [PostProcess] runs; and [ETL.Run] returns nil. *)
Theorem extraction_error_not_returned :
  ETL_Run (NewETL interrupted) one_item_run false (bucket.mkConfig 2 0 1) []
  = Ok (["pre"; "extract"; "load"; "post"],
        bucket.mkConfig 2 (5 * Second) 1, false, None) /\
  exists st,
    etl.exec (NewETL interrupted) one_item_run
      (mkSys (Selecting (Extract interrupted false ["pre"]).2.1) []
             (Run_start (New Z (bucket.mkConfig 2 0 1)).1.2 false
                        ["pre"; "extract"]))
    = Ok st /\
    stdout st = ["ERROR: Failed to extract: cursor error"] /\
    delivered (engine st) = [[1%Z]].
Proof.
  split; [reflexivity|]. eexists. split; [reflexivity|]. split; reflexivity.
Qed.

(** More generally: when the hooks and [Load] of a processor never fail and
    [Extract] hands out its stream, [ETL.Run] returns nil whenever it
    returns, whatever errors the payloads of the stream carry. *)
Lemma payload_errors_never_returned {E T S} (p : ETLProcessor E T S)
    (sched : list (@etl.action E)) (ctx : bool) (c : bucket.Config) (s : S)
    (s' : S) (c' : bucket.Config) (ctx' : bool) (r : option error) :
  (forall ctx s, (PreProcess p ctx s).2 = None) ->
  (forall ctx s, (Extract p ctx s).2.2 = None) ->
  (forall ctx data s, (Load p ctx data s).2 = None) ->
  (forall ctx s, (PostProcess p ctx s).2 = None) ->
  ETL_Run (NewETL p) sched ctx c s = Ok (s', c', ctx', r) ->
  r = None.
Proof.
  intros Hpre Hext Hload Hpost. unfold ETL_Run. cbn [processor NewETL].
  specialize (Hpre ctx s). destruct (PreProcess p ctx s) as [s1 r1].
  cbn in Hpre. subst r1.
  destruct (New_fresh (T := E) c) as (Hbuf & _ & Hwn & _).
  destruct (New E c) as [[cfg1 b] nerr] eqn:HN.
  assert (nerr = None) as -> by (unfold New in HN; by injection HN).
  cbn in Hbuf, Hwn.
  specialize (Hext ctx s1). destruct (Extract p ctx s1) as [s2 [extr r2]].
  cbn in Hext. subst r2.
  destruct (etl.exec _ _ _) as [st| |] eqn:Hexec; try done.
  assert (Hh : forall cx items s0, (handler (mkETL p) cx items s0).2 = None).
  { intros cx items s0. unfold handler. cbn [processor].
    destruct (transform_all _ _ _ _). apply Hload. }
  assert (Hinv : accounted (engine st) /\ no_failure (engine st)).
  { eapply (etl_exec_engine (mkETL p)
              (fun st => accounted st /\ no_failure st));
      [|exact Hexec|].
    - intros a st0 st1 [Ha Hn] Hstep. split.
      + by eapply step_accounted.
      + by eapply step_no_failure.
    - cbn. split.
      + apply Run_start_sound; [done|lia].
      + intros inv Hin. by apply elem_of_nil in Hin. }
  destruct Hinv as [(_ & _ & _ & _ & Hch & _) Hnf].
  unfold Run_result. destruct (forallb _ _); try done.
  destruct (errCh (engine st)) as [|e0 rest] eqn:He; cbn.
  - specialize (Hpost (bucket.ctx_done (engine st)) (hstate (engine st))).
    destruct (PostProcess p _ _) as [s3 r3]. cbn in Hpost. subst r3.
    by intros [= _ _ _ <-].
  - destruct (Hch e0) as (i & q & err & _ & Hin); [left|].
    by specialize (Hnf _ Hin).
Qed.

(** ** Counting the calls of the hooks *)

Section Counting.
Context {E T U : Type}.
Variable k : nat.
Variable p : ETLProcessor E T U.

Lemma count_pre_other t j : j <> k -> count_pre k t j = t j.
Proof. intros Hne. unfold count_pre. by destruct (decide (j = k)). Qed.

Lemma count_post_other t j : j <> k -> count_post k t j = t j.
Proof. intros Hne. unfold count_post. by destruct (decide (j = k)). Qed.

Lemma count_pre_slot t :
  count_pre k t k = mkCounters (S (pre_calls (t k))) (post_calls (t k)).
Proof. unfold count_pre. by destruct (decide (k = k)). Qed.

Lemma count_post_slot t :
  count_post k t k = mkCounters (pre_calls (t k)) (S (post_calls (t k))).
Proof. unfold count_post. by destruct (decide (k = k)). Qed.

Lemma counting_transform_all ctx items (w : U * tally) :
  (transform_all (mkETL (counting k p)) ctx items w).1.2 = w.2.
Proof.
  revert w. induction items as [|item items IH]; intros w; cbn; [done|].
  destruct (Transform p ctx item w.1) as [u t].
  specialize (IH (u, w.2)).
  destruct (transform_all _ ctx items (u, w.2)) as [w2 ts]. done.
Qed.

Lemma counting_handler ctx items (w : U * tally) :
  (handler (mkETL (counting k p)) ctx items w).1.2 = w.2.
Proof.
  unfold handler.
  pose proof (counting_transform_all ctx items w) as Ht.
  destruct (transform_all _ ctx items w) as [w1 ts]. cbn in *.
  destruct (Load p ctx ts w1.1) as [u r]. done.
Qed.

(** While the engine runs, no hook is called. *)
Lemma counting_exec sched (st st' : sys (E := E) (S := U * tally)) :
  etl.exec (mkETL (counting k p)) sched st = Ok st' ->
  (hstate (engine st')).2 = (hstate (engine st)).2.
Proof.
  intros Hexec.
  apply (etl_exec_engine (mkETL (counting k p))
           (fun s => (hstate s).2 = (hstate (engine st)).2))
    with (sched := sched) (st := st); [|done|done].
  intros a s s' Hs Hstep.
  apply (step_hstate (handler (mkETL (counting k p)))
           (fun h => h.2 = (hstate (engine st)).2) a s s'); [|done|done].
  intros ctx queue h Hh. by rewrite counting_handler.
Qed.

Lemma counting_ETL_Run sched ctx c (w w' : U * tally) c' ctx' r :
  ETL_Run (mkETL (counting k p)) sched ctx c w = Ok (w', c', ctx', r) ->
  (forall j, j <> k -> w'.2 j = w.2 j) /\
  (r = None -> w'.2 = count_post k (count_pre k w.2)).
Proof.
  unfold ETL_Run. cbn [processor counting PreProcess Extract PostProcess].
  destruct (PreProcess p ctx w.1) as [u1 [err|]]; cbn beta iota zeta.
  { intros [= <- _ _ <-]. cbn. split; [|done].
    intros j Hj. by apply count_pre_other. }
  destruct (New E c) as [[c1 b] [err|]]; cbn beta iota zeta.
  { intros [= <- _ _ <-]. cbn. split; [|done].
    intros j Hj. by apply count_pre_other. }
  cbn [fst snd]. destruct (Extract p ctx u1) as [u2 [extr [err|]]]; cbn beta iota zeta.
  { intros [= <- _ _ <-]. cbn. split; [|done].
    intros j Hj. by apply count_pre_other. }
  destruct (etl.exec _ _ _) as [st| |] eqn:Hexec; try done.
  apply counting_exec in Hexec. cbn in Hexec.
  destruct (Run_result (engine st)) as [[err|]|]; cbn beta iota zeta; try done.
  { intros [= <- _ _ <-]. rewrite Hexec. split; [|done].
    intros j Hj. by apply count_pre_other. }
  destruct (PostProcess p _ _) as [u3 [err|]]; cbn beta iota zeta;
    intros [= <- _ _ <-]; cbn;
    rewrite Hexec; (split; [|done]); intros j Hj;
    by rewrite count_post_other, count_pre_other.
Qed.

Lemma counting_adapter_Run sched n :
  counts_in_slot k
    (mkRunner (pipelineAdapter_Name (mkAdapter (NewETL (counting k p)) n))
              (pipelineAdapter_Run sched (mkAdapter (NewETL (counting k p)) n))).
Proof.
  intros ctx c w w' c' r. cbn [Run].
  unfold pipelineAdapter_Run, ETL_PreProcess, ETL_PostProcess.
  cbn [etl NewETL processor counting PreProcess PostProcess].
  destruct (PreProcess p ctx w.1) as [u1 [err|]]; cbn beta iota zeta.
  { intros [= <- _ <-]. cbn. split; [|done].
    intros j Hj. by apply count_pre_other. }
  destruct (ETL_Run _ _ _ _ _) as [[[[w2 c2] ctx2] r2]| |] eqn:Hrun; try done.
  apply counting_ETL_Run in Hrun as [Hother Hslot]. cbn in Hother, Hslot.
  destruct r2 as [err|].
  { intros [= <- _ <-]. split; [|done].
    intros j Hj. by rewrite Hother, count_pre_other. }
  specialize (Hslot eq_refl).
  destruct (PostProcess p ctx2 w2.1) as [u3 [err|]]; cbn beta iota zeta;
    intros [= <- _ <-]; cbn.
  - split; [|done]. intros j Hj.
    by rewrite count_post_other, Hother, count_pre_other.
  - split.
    + intros j Hj. by rewrite count_post_other, Hother, count_pre_other.
    + intros _. rewrite Hslot.
      by rewrite !count_post_slot, !count_pre_slot.
Qed.

End Counting.

Lemma register_all_slots {U} (regs : list (registration U))
    (m0 : Manager (U * tally)) :
  (forall i p, pipelines m0 !! i = Some p -> counts_in_slot i p) ->
  (forall i p, pipelines (register_all regs m0) !! i = Some p ->
               counts_in_slot i p) /\
  length (pipelines (register_all regs m0))
  = length (pipelines m0) + length regs.
Proof.
  revert m0. induction regs as [|r regs IH]; intros m0 Hm0.
  - cbn. split; [done|lia].
  - change (register_all (r :: regs) m0)
      with (register_all regs (register_counting m0 r)).
    destruct (IH (register_counting m0 r)) as [Hslots Hlen].
    + intros i p. unfold register_counting, AddPipelineGeneric,
        addPipelineInternal. cbn [pipelines].
      intros Hi. apply lookup_app_Some in Hi as [Hi|[Hge Hi]]; [eauto|].
      apply list_lookup_singleton_Some in Hi as [Hi <-].
      assert (i = length (pipelines m0)) as -> by lia.
      apply counting_adapter_Run.
    + split; [done|]. rewrite Hlen. unfold register_counting,
        AddPipelineGeneric, addPipelineInternal. cbn [pipelines].
      rewrite length_app. cbn. lia.
Qed.

Lemma first_error_snoc (rs : list (option error)) r :
  first_error (rs ++ [r]) = None <-> first_error rs = None /\ r = None.
Proof.
  induction rs as [|[e|] rs IH]; cbn.
  - destruct r; split; try done. by intros [_ ?].
  - split; [done|by intros [? _]].
  - done.
Qed.

Lemma mstep_tallied {U} (m : Manager (U * tally)) a
    (st st' : @mstate (U * tally)) :
  (forall i p, pipelines m !! i = Some p -> counts_in_slot i p) ->
  tallied st -> mstep m a st = Ok st' -> tallied st'.
Proof.
  intros Hslots Ht. destruct a as [|i|i]; cbn.
  - by intros [= <-].
  - destruct (tasks st !! i) as [[| |]|] eqn:Hi; try done.
    destruct (chan_send _ _) as [sem'| |]; try done.
    intros [= <-] k. cbn. destruct (decide (k = i)) as [->|Hne].
    + rewrite list_lookup_insert_eq by (by eapply lookup_lt_Some).
      split; [|done]. intros _. apply Ht. by rewrite Hi.
    + rewrite list_lookup_insert_ne by done. apply Ht.
  - destruct (tasks st !! i) as [[| |]|] eqn:Hi; try done.
    destruct (pipelines m !! i) as [p|] eqn:Hp; try done.
    destruct (Run p (mctx st) (bcfg st) (world st)) as [[[w' c'] r]| |]
      eqn:Hrun; try done.
    destruct (Hslots _ _ Hp _ _ _ _ _ _ Hrun) as [Hother Hslot].
    unfold chan_send. destruct (closed (results st)); try done.
    destruct (_ <? _)%Z; try done.
    destruct (chan_recv (sem st)) as [[o sem']| |]; try done.
    intros [= <-] k. cbn. rewrite first_error_snoc.
    destruct (decide (k = i)) as [->|Hne].
    + rewrite list_lookup_insert_eq by (by eapply lookup_lt_Some).
      split; [done|]. intros _ [_ Hr].
      destruct r as [err|]; [done|]. rewrite (Hslot eq_refl).
      destruct (Ht i) as [Hzero _]. rewrite Hzero by (by rewrite Hi). done.
    + rewrite list_lookup_insert_ne by done. rewrite (Hother _ Hne).
      destruct (Ht k) as [Hzero Htwo]. split; [done|].
      intros Hk [Hres _]. auto.
Qed.

(** C2.  Counted processors are registered with [AddPipelineGeneric] on a
    new manager, in any number and with any type arguments, and [RunAll]
    returns nil.  Then the [PreProcess] of every one of them has been called
    exactly twice and its [PostProcess] exactly twice: once by
    [pipelineAdapter.Run] and once inside [ETL.Run]. *)
Theorem hooks_called_twice {U} (regs : list (registration U))
    (mc : etl.Config) (bc : bucket.Config) (sched : list maction)
    (ctx : bool) (u : U) (out : @outcome (U * tally)) :
  RunAll (register_all regs (NewManager (U * tally) mc bc).2) sched ctx
         (u, fun _ => mkCounters 0 0) = Ok out ->
  returned out = None ->
  forall k, k < length regs -> (final_world out).2 k = mkCounters 2 2.
Proof.
  set (m := register_all regs (NewManager (U * tally) mc bc).2).
  destruct (register_all_slots regs (NewManager (U * tally) mc bc).2)
    as [Hslots Hlen]; [by intros i p ?|].
  fold m in Hslots, Hlen. cbn in Hlen. unfold RunAll.
  destruct (length (pipelines m) =? 0)%nat; [by intros [= <-]|].
  destruct (mexec m sched _) as [st| |] eqn:Hexec; try done.
  destruct (forallb is_finished (tasks st)) eqn:Hall; try done.
  intros [= <-]; cbn. intros Hnone k Hk.
  assert (Hinv : managed m st /\ tallied st).
  { clear Hall Hnone. revert Hexec.
    generalize (RunAll_start_managed m ctx (u, fun _ : nat => mkCounters 0 0)).
    assert (Ht0 : tallied (RunAll_start m ctx (u, fun _ => mkCounters 0 0))).
    { intros j. cbn. split; [done|].
      by intros [? _]%lookup_replicate. }
    revert Ht0. generalize (RunAll_start m ctx (u, fun _ => mkCounters 0 0)).
    induction sched as [|a sched IH]; intros st0 Ht0 Hm0; cbn.
    - by intros [= <-].
    - destruct (mstep m a st0) as [st1| |] eqn:Hstep; try done.
      apply IH.
      + by eapply mstep_tallied.
      + by eapply mstep_managed. }
  destruct Hinv as [(Hlen' & _) Ht].
  apply Ht; [|done]. apply all_finished; [done|]. lia.
Qed.

Lemma hooks_called_twice_witness :
  two_counted_tally 0 = mkCounters 2 2 /\ two_counted_tally 1 = mkCounters 2 2.
Proof.
  pose proof (hooks_called_twice two_counted (etl.mkConfig 0)
                (bucket.mkConfig 2 0 1)
                [Acquire 0; Finish 0; Acquire 1; Finish 1] false []
                two_counted_outcome
                ltac:(vm_compute; reflexivity) ltac:(reflexivity)) as Htwice.
  split; [exact (Htwice 0 ltac:(cbn; lia))|exact (Htwice 1 ltac:(cbn; lia))].
Defined.

(** * Further properties of the code *)

(** ** The engine at every moment of a run *)

Lemma engine_invariants {T H} (f : @ProcessFunc T H) (c : bucket.Config)
    (sched : list (@bucket.action T)) (ctx : bool) (h : H)
    (st : @bucket.state T H) :
  bucket.exec f sched (Run_start (New T c).1.2 ctx h) = Ok st ->
  sound st /\ bounded st /\ fifo st /\ stops_at_failure st.
Proof.
  destruct (New_fresh (T := T) c) as (Hbuf & _ & Hwn & HB & Hcap).
  set (b := (New T c).1.2) in *. clearbody b. revert st.
  assert (Hstart : forall st0, st0 = Run_start b ctx h ->
    (bucket.cfg (st_bucket st0) = bucket.cfg b) /\
    sound st0 /\ bounded st0 /\ fifo st0 /\ stops_at_failure st0).
  { intros st0 ->. split; [done|]. split_and!.
    - apply Run_start_sound; [done|lia].
    - unfold bounded, delivered; cbn. rewrite Hbuf. split_and!.
      + cbn. lia.
      + apply Forall_replicate. cbn. lia.
      + constructor.
    - exists []. split; [by cbn; rewrite Hbuf|].
      intros i. unfold received_by; cbn.
      destruct (replicate _ _ !! i) as [w|] eqn:Hi; [|done].
      by apply lookup_replicate in Hi as [-> _].
    - intros before inv after Hh. by destruct before. }
  specialize (Hstart _ eq_refl). revert Hstart.
  generalize (Run_start b ctx h).
  induction sched as [|a sched IH]; intros st0 Hst0 st; cbn.
  - intros [= <-]. tauto.
  - destruct (bucket.step f a st0) as [st1| |] eqn:Hstep; try done.
    apply IH. destruct Hst0 as (Hcfg & Hs & Hb & Hf & Hz).
    destruct (step_static f _ _ _ Hstep) as (Hcfg1 & _).
    split; [congruence|]. split_and!.
    + by eapply step_sound.
    + eapply step_bounded; eauto. rewrite Hcfg. done.
    + by eapply step_fifo.
    + eapply step_stops_at_failure; eauto. by destruct Hs as (_ & ? & _).
Qed.

(** X1.  At every moment of a run of an engine made by [New], every batch
    that has been handed to the handler is non-empty and has at most
    [BatchSize] items. *)
Theorem batches_within_size {T H} (f : @ProcessFunc T H) (c : bucket.Config)
    (sched : list (@bucket.action T)) (ctx : bool) (h : H)
    (st : @bucket.state T H) (batch : list T) :
  bucket.exec f sched (Run_start (New T c).1.2 ctx h) = Ok st ->
  batch ∈ delivered st ->
  0 < length batch /\
  (Z.of_nat (length batch) <= BatchSize (New T c).1.1)%Z.
Proof.
  intros Hexec Hin.
  destruct (engine_invariants f c sched ctx h st Hexec)
    as (_ & (_ & _ & Hb) & _).
  destruct (exec_static f _ _ _ Hexec) as (Hcfg & _).
  rewrite Hcfg in Hb. rewrite Forall_forall in Hb. exact (Hb _ Hin).
Qed.

Lemma batches_within_size_witness :
  0 < length [1; 3]%Z /\ (Z.of_nat (length [1; 3]%Z) <= 2)%Z.
Proof.
  exact (batches_within_size accept (bucket.mkConfig 2 0 2)
           [AConsume 1%Z; AConsume 2%Z; WRecv 0; WRecv 1; AConsume 3%Z;
            WRecv 0; AClose; WRecv 0; WRecv 1; WReport 0; WReport 1]
           false () three_delivered [1; 3]%Z eq_refl
           ltac:(left)).
Defined.

Lemma pending_total {T} (B : Z) (ws : list (@wstate T)) :
  Forall (fun w => (Z.of_nat (length (pending w)) < B)%Z) ws ->
  (Z.of_nat (length (concat (map pending ws)))
   <= Z.of_nat (length ws) * (B - 1))%Z.
Proof.
  induction 1 as [|w ws Hw _ IH]; cbn [map concat length]; [lia|].
  rewrite length_app, Nat2Z.inj_add, Nat2Z.inj_succ, Z.mul_succ_l. lia.
Qed.

(** X2.  Back-pressure: at every moment of a run the intake holds at most
    [BatchSize] items and every worker fewer than [BatchSize], so the items
    accepted by [Consume] and not yet handed to the handler number at most
    [BatchSize + WorkerNum * (BatchSize - 1)]. *)
Theorem undelivered_items_bounded {T H} (f : @ProcessFunc T H)
    (c : bucket.Config) (sched : list (@bucket.action T)) (ctx : bool) (h : H)
    (st : @bucket.state T H) :
  bucket.exec f sched (Run_start (New T c).1.2 ctx h) = Ok st ->
  let B := BatchSize (New T c).1.1 in
  let W := bucket.WorkerNum (New T c).1.1 in
  (Z.of_nat (length (buf (consumer (st_bucket st)))) <= B)%Z /\
  Forall (fun w => (Z.of_nat (length (pending w)) < B)%Z) (workers st) /\
  (Z.of_nat (length (consumed st))
   <= Z.of_nat (length (concat (delivered st))) + B + W * (B - 1))%Z.
Proof.
  intros Hexec B W.
  destruct (engine_invariants f c sched ctx h st Hexec)
    as ((Hcons & _) & (Hbuf & Hws & _) & _).
  destruct (exec_static f _ _ _ Hexec) as (Hcfg & Hcap & Hlen).
  destruct (New_fresh (T := T) c) as (_ & _ & Hwn & HB & Hcap0).
  rewrite Hcfg in Hws. rewrite Hcap in Hbuf.
  change (cap (consumer (st_bucket (Run_start (New T c).1.2 ctx h))))
    with (cap (consumer (New T c).1.2)) in Hbuf.
  rewrite Hcap0 in Hbuf.
  change (BatchSize (bucket.cfg (New T c).1.2)) with B in Hbuf, Hws.
  split; [exact Hbuf|]. split; [exact Hws|].
  apply Permutation_length in Hcons. rewrite !length_app in Hcons.
  pose proof (pending_total B (workers st) Hws) as Hpend.
  assert (HW : Z.of_nat (length (workers st)) = W).
  { rewrite Hlen. cbn [Run_start workers]. rewrite length_replicate.
    unfold W. change (bucket.WorkerNum (New T c).1.1)
      with (bucket.WorkerNum (bucket.cfg (New T c).1.2)).
    revert Hwn. generalize (bucket.WorkerNum (bucket.cfg (New T c).1.2)).
    intros; lia. }
  rewrite HW in Hpend. clear -Hcons Hpend Hbuf.
  revert Hcons Hpend Hbuf.
  generalize (W * (B - 1))%Z.
  generalize (length (consumed st)) (length (concat (delivered st)))
    (length (concat (map pending (workers st))))
    (length (buf (consumer (st_bucket st)))).
  intros; lia.
Qed.

Lemma undelivered_items_bounded_witness :
  (Z.of_nat (length (buf (consumer (st_bucket both_refused)))) <= 1)%Z /\
  Forall (fun w => (Z.of_nat (length (pending w)) < 1)%Z)
         (workers both_refused) /\
  (Z.of_nat (length (consumed both_refused))
   <= Z.of_nat (length (concat (delivered both_refused))) + 1 + 2 * (1 - 1))%Z.
Proof.
  exact (undelivered_items_bounded refuse (bucket.mkConfig 1 0 2)
           [AConsume 1%Z; WRecv 0; AConsume 2%Z; WRecv 1; AConsume 3%Z;
            WReport 1; WReport 0]
           false () both_refused eq_refl).
Defined.

(** X3.  Whatever the number of workers, each worker keeps the order of
    submission: the items of its batches, in the order of its calls of the
    handler, followed by its buffer, are a subsequence of the items accepted
    by [Consume]. *)
Theorem worker_keeps_order {T H} (f : @ProcessFunc T H)
    (c : bucket.Config) (sched : list (@bucket.action T)) (ctx : bool) (h : H)
    (st : @bucket.state T H) (i : nat) :
  bucket.exec f sched (Run_start (New T c).1.2 ctx h) = Ok st ->
  received_by i st `sublist_of` consumed st.
Proof.
  intros Hexec.
  destruct (engine_invariants f c sched ctx h st Hexec)
    as (_ & _ & (taken & -> & Hsub) & _).
  by apply sublist_inserts_r.
Qed.

Lemma worker_keeps_order_witness : [1; 3]%Z `sublist_of` [1; 2; 3]%Z.
Proof.
  exact (worker_keeps_order accept (bucket.mkConfig 2 0 2)
           [AConsume 1%Z; AConsume 2%Z; WRecv 0; WRecv 1; AConsume 3%Z;
            WRecv 0; AClose; WRecv 0; WRecv 1; WReport 0; WReport 1]
           false () three_delivered 0 eq_refl).
Defined.

(** X4.  A worker makes no call of the handler after a call that returned
    an error: in the history of a run, no later call is by the worker of a
    refused batch. *)
Theorem no_call_after_failure {T H} (f : @ProcessFunc T H)
    (c : bucket.Config) (sched : list (@bucket.action T)) (ctx : bool) (h : H)
    (st : @bucket.state T H) (before after : list (@invocation T))
    (inv later : @invocation T) :
  bucket.exec f sched (Run_start (New T c).1.2 ctx h) = Ok st ->
  history st = before ++ inv :: after ->
  inv_result inv <> None ->
  later ∈ after ->
  inv_worker later <> inv_worker inv.
Proof.
  intros Hexec Hh Hres Hin.
  destruct (engine_invariants f c sched ctx h st Hexec) as (_ & _ & _ & Hz).
  by eapply Hz.
Qed.

Lemma no_call_after_failure_witness : 1 <> 0.
Proof.
  exact (no_call_after_failure refuse (bucket.mkConfig 1 0 2)
           [AConsume 1%Z; WRecv 0; AConsume 2%Z; WRecv 1; AConsume 3%Z;
            WReport 1; WReport 0]
           false () both_refused []
           [mkInvocation 1 [2%Z] (Some (ErrorString "load failed"))]
           (mkInvocation 0 [1%Z] (Some (ErrorString "load failed")))
           (mkInvocation 1 [2%Z] (Some (ErrorString "load failed")))
           eq_refl eq_refl ltac:(discriminate) ltac:(left)).
Defined.

Lemma exec_in_order {T H} (f : @ProcessFunc T H) sched
    (st st' : @bucket.state T H) :
  length (workers st) = 1 -> in_order st ->
  bucket.exec f sched st = Ok st' -> in_order st'.
Proof.
  revert st. induction sched as [|a sched IH]; intros st Hlen Hin; cbn.
  - by intros [= <-].
  - destruct (bucket.step f a st) as [st1| |] eqn:Hstep; try done.
    apply IH.
    + destruct (step_static f _ _ _ Hstep) as (_ & _ & ->). done.
    + by eapply step_in_order.
Qed.

(** X5.  With one worker the batches are consecutive pieces of the input
    whatever happens (ticks of the timer, cancellation, a refused batch): at
    every moment the accepted items are the batches in the order of the
    calls, then the worker's buffer, then the intake.  When [Run] returns nil
    and ctx is not cancelled, the batches together are exactly the accepted
    items, in order. *)
Theorem single_worker_never_reorders {T H} (f : @ProcessFunc T H)
    (c : bucket.Config) (sched : list (@bucket.action T)) (ctx : bool) (h : H)
    (st : @bucket.state T H) :
  bucket.WorkerNum (New T c).1.1 = 1%Z ->
  bucket.exec f sched (Run_start (New T c).1.2 ctx h) = Ok st ->
  consumed st
  = concat (delivered st) ++ concat (map pending (workers st))
    ++ buf (consumer (st_bucket st)) /\
  (Run_result st = Some None -> ctx_done st = false ->
   concat (delivered st) = consumed st).
Proof.
  intros Hone Hexec.
  destruct (New_fresh (T := T) c) as (Hbuf & _).
  assert (Hlen0 : length (workers (Run_start (New T c).1.2 ctx h)) = 1).
  { cbn [Run_start workers]. rewrite length_replicate.
    change (bucket.WorkerNum (bucket.cfg (New T c).1.2))
      with (bucket.WorkerNum (New T c).1.1). by rewrite Hone. }
  assert (Hin : in_order st).
  { eapply exec_in_order; [exact Hlen0| |exact Hexec].
    unfold in_order, delivered. cbn [Run_start consumed history workers
      st_bucket map concat app].
    rewrite Hbuf, app_nil_r.
    induction (Z.to_nat _) as [|n IH]; [done|exact IH]. }
  split; [exact Hin|]. intros Hres Hctx.
  apply Run_result_Some in Hres as [Hall Herr].
  destruct (engine_invariants f c sched ctx h st Hexec) as (Hs & _).
  destruct (exec_static f _ _ _ Hexec) as (_ & _ & Hlen).
  destruct (finished_drained st Hs) as (_ & Hb & Hp); try done.
  - intros Hnil. rewrite Hnil, Hlen0 in Hlen. done.
  - by destruct (errCh st).
  - unfold in_order in Hin. by rewrite Hp, Hb, !app_nil_r in Hin.
Qed.

Lemma single_worker_never_reorders_witness :
  concat (delivered ticked_done) = consumed ticked_done.
Proof.
  exact (proj2 (single_worker_never_reorders accept
                  (bucket.mkConfig 2 10000000 1) ticked_schedule false ()
                  ticked_done eq_refl eq_refl) eq_refl eq_refl).
Defined.

(** X6.  Cancellation lets [Run] return at once: from any moment of a run at
    which ctx is cancelled, the workers can leave without receiving another
    item, so that [Run] returns with the intake as it was. *)
Theorem cancelled_run_can_return {T H} (f : @ProcessFunc T H)
    (c : bucket.Config) (sched : list (@bucket.action T)) (ctx : bool) (h : H)
    (st : @bucket.state T H) :
  bucket.exec f sched (Run_start (New T c).1.2 ctx h) = Ok st ->
  ctx_done st = true ->
  exists more r st',
    bucket.Run f (sched ++ more) (New T c).1.2 ctx h = Ok (r, st') /\
    st_bucket st' = st_bucket st /\ consumed st' = consumed st.
Proof.
  intros Hexec Hctx.
  destruct (wind_down_exec f (workers st) [] st eq_refl) as (st' & Hmore & Hw).
  { unfold procCtx_done. by rewrite Hctx. }
  cbn in Hmore, Hw.
  destruct (leaving_keeps_intake f _ _ _ (wind_down_leaving _ 0) Hmore)
    as [Hb Hc].
  exists (wind_down 0 (workers st)), (head (errCh st')), st'.
  split; [|done]. unfold bucket.Run, Run_result.
  rewrite exec_app, Hexec, Hmore, Hw.
  assert (Hall : forall n, forallb is_exited (replicate n (@Exited T)) = true)
    by (induction n; [done|exact IHn]).
  by rewrite Hall.
Qed.

Lemma cancelled_run_can_return_witness :
  exists more r st',
    bucket.Run accept ([AConsume 1%Z; ACancel] ++ more)
               (New Z (bucket.mkConfig 2 0 1)).1.2 false () = Ok (r, st') /\
    st_bucket st'
    = mkBucket (bucket.mkConfig 2 (5 * Second) 1) (Chan [1%Z] 2 false) /\
    consumed st' = [1%Z].
Proof.
  exact (cancelled_run_can_return accept (bucket.mkConfig 2 0 1)
           [AConsume 1%Z; ACancel] false ()
           (mkState (mkBucket (bucket.mkConfig 2 (5 * Second) 1)
                              (Chan [1%Z] 2 false))
                    true false [Looping []] [] () [] [1%Z])
           eq_refl eq_refl).
Defined.

(** X7.  [Close] is enough for [Run] to return: from any moment of a run at
    which the intake is closed, the workers alone (no further [Consume], no
    cancellation) can take steps after which [Run] returns. *)
Theorem closed_run_can_return {T H} (f : @ProcessFunc T H)
    (c : bucket.Config) (sched : list (@bucket.action T)) (ctx : bool) (h : H)
    (st : @bucket.state T H) :
  bucket.exec f sched (Run_start (New T c).1.2 ctx h) = Ok st ->
  closed (consumer (st_bucket st)) = true ->
  exists more r st',
    external more = [] /\
    bucket.Run f (sched ++ more) (New T c).1.2 ctx h = Ok (r, st').
Proof.
  intros Hexec Hclosed.
  destruct (drain_all f (workers st) [] st eq_refl Hclosed)
    as (more & st' & Hext & Hmore & Hw).
  cbn in Hw.
  exists more, (head (errCh st')), st'.
  split; [done|]. unfold bucket.Run, Run_result.
  rewrite exec_app, Hexec, Hmore, Hw.
  assert (Hall : forall n, forallb is_exited (replicate n (@Exited T)) = true)
    by (induction n; [done|exact IHn]).
  by rewrite Hall.
Qed.

Lemma closed_run_can_return_witness :
  exists more r st',
    external more = [] /\
    bucket.Run refuse ([AConsume 1%Z; AConsume 2%Z; AClose] ++ more)
               (New Z (bucket.mkConfig 2 0 2)).1.2 false () = Ok (r, st').
Proof.
  exact (closed_run_can_return refuse (bucket.mkConfig 2 0 2)
           [AConsume 1%Z; AConsume 2%Z; AClose] false ()
           (mkState (mkBucket (bucket.mkConfig 2 (5 * Second) 2)
                              (Chan [1%Z; 2%Z] 2 true))
                    false false [Looping []; Looping []] [] () [] [1%Z; 2%Z])
           eq_refl eq_refl).
Defined.

(** X8.  The semaphore of [RunAll] does its work: at every moment of a run
    at most [WorkerNum] pipeline goroutines hold a slot, [sem] holds one
    token for each of them, and a waiting goroutine gets a slot exactly when
    fewer than [WorkerNum] are held. *)
Theorem at_most_WorkerNum_hold_a_slot {W} (m : Manager W)
    (sched : list maction) (ctx : bool) (w : W) (st : @mstate W) :
  (1 <= etl.WorkerNum (etl.cfg m))%Z ->
  mexec m sched (RunAll_start m ctx w) = Ok st ->
  (Z.of_nat (holding st) <= etl.WorkerNum (etl.cfg m))%Z /\
  length (buf (sem st)) = holding st /\
  (forall i, tasks st !! i = Some Waiting ->
     (exists st', mstep m (Acquire i) st = Ok st') <->
     (Z.of_nat (holding st) < etl.WorkerNum (etl.cfg m))%Z).
Proof.
  intros Hwn Hexec.
  destruct (mexec_slotted m sched _ _
              (RunAll_start_slotted m ctx w ltac:(lia)) Hexec)
    as (Hlen & Hle & Hcap & Hopen).
  split_and!; [lia|done|].
  intros i Hi. cbn [mstep]. rewrite Hi. unfold chan_send.
  rewrite Hopen, Hcap, Hlen.
  destruct (Z.ltb_spec (Z.of_nat (holding st)) (etl.WorkerNum (etl.cfg m))).
  - split; [done|]. intros _. eauto.
  - split; [by intros [? [=]]|lia].
Qed.

Lemma at_most_WorkerNum_hold_a_slot_witness :
  (Z.of_nat (holding two_slots_taken) <= 2)%Z /\
  length (buf (sem two_slots_taken)) = holding two_slots_taken /\
  (forall i, tasks two_slots_taken !! i = Some Waiting ->
     (exists st', mstep two_slots (Acquire i) two_slots_taken = Ok st') <->
     (Z.of_nat (holding two_slots_taken) < 2)%Z).
Proof.
  exact (at_most_WorkerNum_hold_a_slot two_slots [Acquire 1; Acquire 0]
           false [] two_slots_taken ltac:(cbn; lia) eq_refl).
Defined.



(** X10.  Where the errors of [ETL.Run] come from.  A non-nil result of
    [ETL.Run] wraps an error that a method of the processor returned, under
    the tag of its stage: [PreProcess] (and then the bucket configuration has
    not been touched), [Extract], [PostProcess], or [Load], called by worker
    [i] of the engine on a batch that is not empty, whose error comes back
    under "failed to run ETL: worker i: ".  No other error is returned; in
    particular "failed to create bucket" never is. *)
Theorem ETL_Run_error_origin {E T S} (p : ETLProcessor E T S)
    (sched : list (@etl.action E)) (ctx : bool) (c : bucket.Config) (s : S)
    (s' : S) (c' : bucket.Config) (ctx' : bool) (e : error) :
  ETL_Run (NewETL p) sched ctx c s = Ok (s', c', ctx', Some e) ->
  (exists err,
     (PreProcess p ctx s).2 = Some err /\
     e = WrapError "failed to pre-process: " err /\ c' = c) \/
  c' = (New E c).1.1 /\
  ((exists err s1,
      (Extract p ctx s1).2.2 = Some err /\
      e = WrapError "failed to extract: " err) \/
   (exists err i cx data s1,
      (Load p cx data s1).2 = Some err /\ data <> [] /\
      (Z.of_nat i < bucket.WorkerNum c')%Z /\
      e = WrapError "failed to run ETL: "
            (WrapError ("worker " +:+ pretty i +:+ ": ") err)) \/
   (exists err s1,
      (PostProcess p ctx' s1).2 = Some err /\
      e = WrapError "failed to post-process: " err)).
Proof.
  unfold ETL_Run. cbn [processor NewETL].
  destruct (PreProcess p ctx s) as [s1 [err|]] eqn:Hpre.
  { intros [= <- <- <- <-]. left. by exists err. }
  destruct (New_fresh (T := E) c) as (_ & _ & Hwn & _).
  pose proof (fun extractor s0 st =>
    etl_engine_invariants (NewETL p) extractor sched c ctx s0 st) as Hinv.
  destruct (New E c) as [[cfg1 b] nerr] eqn:HN.
  assert (nerr = None) as -> by (unfold New in HN; by injection HN).
  cbn [fst snd] in Hinv, Hwn |- *.
  destruct (Extract p ctx s1) as [s2 [extractor [err|]]] eqn:Hext.
  { intros [= <- <- <- <-]. right. split; [done|]. left.
    exists err, s1. by rewrite Hext. }
  destruct (etl.exec _ _ _) as [st| |] eqn:Hexec; try done.
  destruct (Hinv _ _ _ Hexec) as ((_ & Ha & _) & Hg & Hlen).
  destruct (Run_result (engine st)) as [[err|]|] eqn:Hres; try done.
  - intros [= <- <- <- <-]. right. split; [done|]. right; left.
    apply Run_result_Some in Hres as [_ Hhead].
    destruct (errCh (engine st)) as [|e0 rest] eqn:Hch; [done|].
    injection Hhead as ->.
    destruct Ha as (_ & _ & _ & _ & Herrs & _).
    destruct (Herrs e0) as (i & queue & err0 & -> & Hin);
      [rewrite ?Hch; left|].
    destruct (Hg _ Hin) as (Hne & Hi & cx & h & Hcall).
    cbn [inv_batch inv_worker inv_result] in Hne, Hi, Hcall.
    unfold handler in Hcall. cbn [processor NewETL] in Hcall.
    pose proof (transform_all_length (NewETL p) cx queue h) as Htl.
    destruct (transform_all (NewETL p) cx queue h) as [h1 data].
    cbn [snd] in Htl.
    exists err0, i, cx, data, h1. split_and!; try done.
    + intros ->. destruct queue; [done|discriminate Htl].
    + assert (Hb : bucket.cfg b = cfg1) by (unfold New in HN; by injection HN as <- <-).
      lia.
  - destruct (PostProcess p _ _) as [s3 [err|]] eqn:Hpost; [|done].
    intros [= <- <- <- <-]. right. split; [done|]. right; right.
    exists err, (hstate (engine st)). by rewrite Hpost.
Qed.

Lemma ETL_Run_error_origin_witness :
  exists err i cx data s1,
    (Load (logging "B" true) cx data s1).2 = Some err /\ data <> [] /\
    (Z.of_nat i < 1)%Z /\
    WrapError "failed to run ETL: "
      (WrapError "worker 0: " (ErrorString "load failed"))
    = WrapError "failed to run ETL: "
        (WrapError ("worker " +:+ pretty i +:+ ": ") err).
Proof.
  destruct (ETL_Run_error_origin (logging "B" true) one_item_run false
              (bucket.mkConfig 2 0 1) []
              ["B:pre"; "B:extract"; "B:load"]
              (bucket.mkConfig 2 (5 * Second) 1) false
              (WrapError "failed to run ETL: "
                 (WrapError "worker 0: " (ErrorString "load failed")))
              eq_refl)
    as [(err & _ & [=] & _)|[_ [(err & s1 & _ & [=])|[Hload|(err & s1 & _ & [=])]]]].
  exact Hload.
Defined.

(** X11.  The hooks inside [ETL.Run], counted.  A call of [ETL.Run] that
    returns calls [PreProcess] exactly once.  It calls [PostProcess] once
    when it returns nil or the error of [PostProcess] itself, and not at all
    when it returns any other error: after a failed extraction or load the
    closing hook does not run. *)
Theorem PostProcess_skipped_on_failure {E T U} (k : nat)
    (p : ETLProcessor E T U) (sched : list (@etl.action E)) (ctx : bool)
    (c : bucket.Config) (w w' : U * tally) (c' : bucket.Config) (ctx' : bool)
    (r : option error) :
  ETL_Run (NewETL (counting k p)) sched ctx c w = Ok (w', c', ctx', r) ->
  pre_calls (w'.2 k) = S (pre_calls (w.2 k)) /\
  (r = None \/ (exists err, r = Some (WrapError "failed to post-process: " err)) ->
   post_calls (w'.2 k) = S (post_calls (w.2 k))) /\
  (forall e, r = Some e ->
     (forall err, e <> WrapError "failed to post-process: " err) ->
     post_calls (w'.2 k) = post_calls (w.2 k)).
Proof.
  unfold ETL_Run, NewETL.
  cbn [processor counting PreProcess Extract PostProcess].
  destruct (PreProcess p ctx w.1) as [u1 [err|]]; cbn beta iota zeta.
  { intros [= <- _ _ <-]. cbn. rewrite count_pre_slot. cbn.
    split_and!; [done| |done]. by intros [[=]|[? [=]]]. }
  destruct (New E c) as [[c1 b] [err|]]; cbn beta iota zeta.
  { intros [= <- _ _ <-]. cbn. rewrite count_pre_slot. cbn.
    split_and!; [done| |done]. by intros [[=]|[? [=]]]. }
  cbn [fst snd].
  destruct (Extract p ctx u1) as [u2 [extr [err|]]]; cbn beta iota zeta.
  { intros [= <- _ _ <-]. cbn. rewrite count_pre_slot. cbn.
    split_and!; [done| |done]. by intros [[=]|[? [=]]]. }
  destruct (etl.exec _ _ _) as [st| |] eqn:Hexec; try done.
  apply counting_exec in Hexec. cbn in Hexec.
  destruct (Run_result (engine st)) as [[err|]|]; cbn beta iota zeta; try done.
  { intros [= <- _ _ <-]. rewrite Hexec, count_pre_slot. cbn.
    split_and!; [done| |done]. by intros [[=]|[? [=]]]. }
  destruct (PostProcess p _ _) as [u3 [err|]]; cbn beta iota zeta;
    intros [= <- _ _ <-]; cbn;
    rewrite Hexec, count_post_slot, count_pre_slot; cbn;
    (split_and!; [done|done|]).
  - intros e [= <-] Hne. by destruct (Hne err).
  - by intros e [=].
Qed.

Lemma PostProcess_skipped_on_failure_witness :
  pre_calls (count_pre 0 (fun _ => mkCounters 0 0) 0) = 1 /\
  post_calls (count_pre 0 (fun _ => mkCounters 0 0) 0) = 0.
Proof.
  pose proof (PostProcess_skipped_on_failure 0 (logging "B" true) one_item_run
                false (bucket.mkConfig 2 0 1) ([], fun _ => mkCounters 0 0)
                (["B:pre"; "B:extract"; "B:load"],
                 count_pre 0 (fun _ => mkCounters 0 0))
                (bucket.mkConfig 2 (5 * Second) 1) false
                (Some (WrapError "failed to run ETL: "
                         (WrapError "worker 0: " (ErrorString "load failed"))))
                eq_refl) as (Hpre & _ & Hpost).
  split; [exact Hpre|].
  exact (Hpost _ eq_refl ltac:(intros err; discriminate)).
Defined.


(** X13.  [RunAll] cannot get stuck.  For a manager with at least one slot
    and one pipeline whose runners always return, from any moment of a run
    of [RunAll], whichever goroutines hold the slots, are waiting or have
    finished, the goroutines can go on to the end: [wg.Wait()] returns and
    [RunAll] returns.  No send to [results] ever waits. *)
Theorem RunAll_never_stuck {W} (m : Manager W) (sched : list maction)
    (ctx : bool) (w : W) (st : @mstate W) :
  (1 <= etl.WorkerNum (etl.cfg m))%Z ->
  0 < length (pipelines m) ->
  (forall p cx c w0, p ∈ pipelines m -> exists r, Run p cx c w0 = Ok r) ->
  mexec m sched (RunAll_start m ctx w) = Ok st ->
  exists more out, RunAll m (sched ++ more) ctx w = Ok out.
Proof.
  intros Hwn Hpos Hruns Hexec.
  assert (Hinv : managed m st /\ slotted m st /\ roomy m st).
  { revert Hexec.
    assert (Hstart : managed m (RunAll_start m ctx w) /\
                     slotted m (RunAll_start m ctx w) /\
                     roomy m (RunAll_start m ctx w)).
    { split_and!; [apply RunAll_start_managed| |done].
      apply RunAll_start_slotted. lia. }
    revert Hstart. generalize (RunAll_start m ctx w).
    induction sched as [|a sched IH]; intros st0 (Hm & Hs & Hr); cbn.
    - by intros [= <-].
    - destruct (mstep m a st0) as [st1| |] eqn:Hstep; try done.
      apply IH. split_and!;
        [by eapply mstep_managed|by eapply mstep_slotted|by eapply mstep_roomy]. }
  destruct Hinv as (Hm & Hs & Hr).
  destruct (finish_actives m (tasks st) Hruns [] st Hm Hs Hr eq_refl)
    as (sched1 & st1 & Hexec1 & Hm1 & Hs1 & Hr1 & Ht1).
  cbn [app] in Ht1.
  destruct (finish_waiting m (tasks st1) Hwn Hruns [] st1 Hm1 Hs1 Hr1)
    as (sched2 & st2 & Hexec2 & Ht2); [|done|].
  { unfold holding. by rewrite Ht1, settled_hold_nothing. }
  cbn [app] in Ht2.
  exists (sched1 ++ sched2). unfold RunAll.
  destruct (length (pipelines m) =? 0)%nat; [eauto|].
  rewrite mexec_app, Hexec, mexec_app, Hexec1, Hexec2, Ht2.
  assert (Hall : forall n, forallb is_finished (replicate n Finished) = true)
    by (induction n; [done|exact IHn]).
  rewrite Hall. eauto.
Qed.

Lemma RunAll_never_stuck_witness :
  exists more out, RunAll two_runners ([Acquire 1] ++ more) true () = Ok out.
Proof.
  apply (RunAll_never_stuck two_runners [Acquire 1] true ()
           (mkMState (Chan [()] 4 false) (Chan [] 2 false) [Waiting; Active]
                     () (bucket.mkConfig 0 0 0) true [])).
  - cbn. lia.
  - cbn. lia.
  - intros p cx c w0 Hp. cbn in Hp.
    apply elem_of_cons in Hp as [->|Hp]; [by eexists|].
    apply elem_of_cons in Hp as [->|Hp]; [by eexists|].
    by apply elem_of_nil in Hp.
  - reflexivity.
Defined.

(** * The benchmark processor *)

Section TransformProperties.
Context {Time float64 JSON : Type}.
Variable json_Marshal_coordinates : float64 -> float64 -> JSON.
Variable json_Marshal_strings : list string -> JSON.
Variable json_Marshal_notifications : benchmark.NotificationSettings.t -> JSON.

Abbreviation Transform :=
  (benchmark.Transform json_Marshal_coordinates json_Marshal_strings
     json_Marshal_notifications).

(** The loop over the messages, as two maps. *)
Lemma messages_and_attachments_eq (user : benchmark.User.t Time float64) :
  benchmark.messages_and_attachments user
  = (map (fun msg =>
            benchmark.PGMessages.mk (benchmark.Message.ID msg)
              (benchmark.User.ID user) (benchmark.Message.From msg)
              (benchmark.Message.To msg) (benchmark.Message.Subject msg)
              (benchmark.Message.Body msg) (benchmark.Message.Timestamp msg)
              (benchmark.Message.Read msg))
         (benchmark.User.Messages user),
     flat_map (fun msg =>
                 imap (fun idx att =>
                         benchmark.PGAttachments.mk
                           (benchmark.child_ID (benchmark.User.ID user) idx)
                           (benchmark.Message.ID msg)
                           (benchmark.Attachment.Name att)
                           (benchmark.Attachment.Size att)
                           (benchmark.Attachment.FileType att))
                      (benchmark.Message.Attachments msg))
              (benchmark.User.Messages user)).
Proof.
  unfold benchmark.messages_and_attachments.
  assert (Hloop : forall (f : benchmark.Message.t Time ->
                              benchmark.PGMessages.t Time)
                         (g : benchmark.Message.t Time ->
                              list benchmark.PGAttachments.t)
                         msgs messages attachments,
    fold_left (fun '(messages, attachments) msg =>
                 (messages ++ [f msg], attachments ++ g msg))
              msgs (messages, attachments)
    = (messages ++ map f msgs, attachments ++ flat_map g msgs)).
  { intros f g msgs. induction msgs as [|msg msgs IH];
      intros messages attachments; cbn [fold_left map flat_map].
    - by rewrite !app_nil_r.
    - rewrite IH. by rewrite <- !app_assoc. }
  apply Hloop.
Qed.


Lemma Transform_Attachments ctx (user : benchmark.User.t Time float64) :
  map benchmark.PGAttachments.ID
      (benchmark.TransformedUser.Attachments (Transform ctx user))
  = flat_map (fun msg =>
                child_IDs (benchmark.User.ID user)
                          (length (benchmark.Message.Attachments msg)))
             (benchmark.User.Messages user) /\
  map benchmark.PGAttachments.MessageID
      (benchmark.TransformedUser.Attachments (Transform ctx user))
  = flat_map (fun msg =>
                replicate (length (benchmark.Message.Attachments msg))
                          (benchmark.Message.ID msg))
             (benchmark.User.Messages user).
Proof.
  unfold benchmark.Transform. rewrite messages_and_attachments_eq.
  cbn [benchmark.TransformedUser.Attachments].
  induction (benchmark.User.Messages user) as [|msg msgs [IH1 IH2]];
    cbn [flat_map]; [done|].
  rewrite !map_app, IH1, IH2. split; f_equal.
  - change (map ?f ?l) with (f <$> l). rewrite fmap_imap.
    apply (imap_seq_0 _ (benchmark.child_ID (benchmark.User.ID user))).
  - change (map ?f ?l) with (f <$> l). rewrite fmap_imap.
    change (imap _ ?l) with (imap (const (fun _ : benchmark.Attachment.t =>
                                            benchmark.Message.ID msg)) l).
    rewrite imap_const. by apply const_fmap.
Qed.

(** The primary keys of the numbered child rows. *)
Lemma Transform_child_IDs ctx (user : benchmark.User.t Time float64) :
  let t := Transform ctx user in
  map benchmark.PGEducation.ID (benchmark.TransformedUser.Education t)
  = child_IDs (benchmark.User.ID user)
      (length (benchmark.Profile.Education (benchmark.User.Profile user))) /\
  map benchmark.PGExperience.ID (benchmark.TransformedUser.Experience t)
  = child_IDs (benchmark.User.ID user)
      (length (benchmark.Profile.Experience (benchmark.User.Profile user))) /\
  map benchmark.PGSettings.ID (benchmark.TransformedUser.Settings t)
  = child_IDs (benchmark.User.ID user)
      (length (benchmark.Preferences.Settings (benchmark.User.Preferences user))) /\
  map benchmark.PGActivityLog.ID (benchmark.TransformedUser.ActivityLog t)
  = child_IDs (benchmark.User.ID user)
      (length (benchmark.User.ActivityLog user)) /\
  map benchmark.PGTransactions.ID (benchmark.TransformedUser.Transactions t)
  = child_IDs (benchmark.User.ID user)
      (length (benchmark.User.Transactions user)) /\
  map benchmark.PGPosts.ID (benchmark.TransformedUser.Posts t)
  = child_IDs (benchmark.User.ID user)
      (length (benchmark.SocialMedia.Posts (benchmark.User.SocialMedia user))).
Proof.
  unfold benchmark.Transform. rewrite messages_and_attachments_eq.
  cbn zeta beta iota delta [benchmark.TransformedUser.Education
    benchmark.TransformedUser.Experience benchmark.TransformedUser.Settings
    benchmark.TransformedUser.ActivityLog
    benchmark.TransformedUser.Transactions benchmark.TransformedUser.Posts].
  unfold child_IDs. change (map ?f ?l) with (f <$> l).
  rewrite !fmap_imap.
  split_and!;
    apply (imap_seq_0 _ (benchmark.child_ID (benchmark.User.ID user))).
Qed.



End TransformProperties.

(** [int64] arithmetic. *)
Lemma int64_small (z : Z) : (- 2 ^ 63 <= z < 2 ^ 63)%Z -> int64 z = z.
Proof. intros Hz. unfold int64. rewrite Z.mod_small; lia. Qed.

Lemma int64_congr (a b : Z) :
  (a mod 2 ^ 64 = b mod 2 ^ 64)%Z -> int64 a = int64 b.
Proof.
  intros Hab. unfold int64.
  rewrite <- (Zplus_mod_idemp_l a), <- (Zplus_mod_idemp_l b), Hab. done.
Qed.

Lemma int64_mod (z : Z) : (int64 z mod 2 ^ 64 = z mod 2 ^ 64)%Z.
Proof.
  unfold int64.
  rewrite <- Zminus_mod_idemp_l, Z.mod_mod by lia.
  rewrite Zminus_mod_idemp_l. f_equal. lia.
Qed.

Lemma child_ID_exact (user_ID : Z) (idx : nat) :
  in_range user_ID -> (Z.of_nat idx < 10000)%Z ->
  benchmark.child_ID user_ID idx = (user_ID * 10000 + Z.of_nat idx)%Z.
Proof.
  intros [Hlo Hhi] Hidx. unfold benchmark.child_ID.
  rewrite (int64_small (user_ID * 10000)) by lia.
  apply int64_small. lia.
Qed.

Lemma elem_of_child_IDs (user_ID : Z) (n : nat) (x : Z) :
  in_range user_ID -> (Z.of_nat n <= 10000)%Z ->
  x ∈ child_IDs user_ID n ->
  exists idx, idx < n /\ x = (user_ID * 10000 + Z.of_nat idx)%Z.
Proof.
  intros Hr Hn Hx. unfold child_IDs in Hx.
  change (map ?f ?l) with (f <$> l) in Hx.
  apply list_elem_of_fmap in Hx as (idx & -> & Hidx).
  apply elem_of_seq in Hidx. exists idx. split; [lia|].
  apply child_ID_exact; [done|lia].
Qed.

Lemma child_IDs_NoDup (user_ID : Z) (n : nat) :
  in_range user_ID -> (Z.of_nat n <= 10000)%Z -> NoDup (child_IDs user_ID n).
Proof.
  intros Hr Hn. unfold child_IDs. change (map ?f ?l) with (f <$> l).
  apply NoDup_fmap_2_strong; [|apply NoDup_seq].
  intros i j Hi%elem_of_seq Hj%elem_of_seq.
  rewrite !child_ID_exact by (done || lia). lia.
Qed.

(** The numbered child rows of users with different ids have different
    primary keys. *)
Lemma child_IDs_flat_NoDup {A} (ID : A -> Z) (count : A -> nat) (l : list A) :
  NoDup (map ID l) ->
  Forall (fun a => in_range (ID a) /\ (Z.of_nat (count a) <= 10000)%Z) l ->
  NoDup (flat_map (fun a => child_IDs (ID a) (count a)) l).
Proof.
  induction l as [|a l IH]; cbn [map flat_map]; [constructor|].
  intros [Hnew Hnd]%NoDup_cons [[Hr Hn] Hall]%Forall_cons.
  apply NoDup_app. split_and!; [by apply child_IDs_NoDup| |by apply IH].
  intros x Hx Hx'.
  apply elem_of_child_IDs in Hx as (i & Hi & ->); [|done|done].
  apply list_elem_of_In, in_flat_map in Hx' as (b & Hb%list_elem_of_In & Hx').
  apply list_elem_of_In in Hx'.
  pose proof (proj1 (Forall_forall _ _) Hall b Hb) as [Hrb Hnb].
  apply elem_of_child_IDs in Hx' as (j & Hj & Heq); [|done|done].
  assert (ID a = ID b) as Hab by lia.
  apply Hnew. rewrite Hab. change (map ?f ?l) with (f <$> l).
  apply list_elem_of_fmap. eauto.
Qed.

Lemma keys_of_batch {A B C} (tr : A -> B) (rows : B -> list C) (key : C -> Z)
    (ids : A -> list Z) (l : list A) :
  (forall a, map key (rows (tr a)) = ids a) ->
  map key (flat_map rows (map tr l)) = flat_map ids l.
Proof.
  intros Hkeys. induction l as [|a l IH]; cbn [map flat_map]; [done|].
  by rewrite map_app, Hkeys, IH.
Qed.

Lemma flat_map_clash {A B} (f : A -> list B) (l : list A) i j x y b :
  i < j -> l !! i = Some x -> l !! j = Some y -> b ∈ f x -> b ∈ f y ->
  ~ NoDup (flat_map f l).
Proof.
  intros Hij Hi Hj Hx Hy Hnd.
  rewrite <- (take_drop_middle l i x Hi), flat_map_app in Hnd.
  cbn [flat_map] in Hnd.
  apply NoDup_app in Hnd as (_ & _ & Hnd).
  apply NoDup_app in Hnd as (_ & Hdisj & _).
  apply (Hdisj b Hx).
  apply list_elem_of_In, in_flat_map. exists y.
  split; [|by apply list_elem_of_In].
  apply list_elem_of_In. apply (list_elem_of_lookup_2 _ (j - S i)).
  rewrite lookup_drop. rewrite <- Hj. f_equal. lia.
Qed.


(** X15.  Primary keys within a batch.  For users with pairwise different
    ids, each small enough for [ID*10000 + 9999] not to overflow [int64]:
    in each of the six tables whose rows [Transform] numbers (education,
    experience, settings, activity log, transactions, posts), the rows of the
    whole batch have pairwise different primary keys, as long as no user has
    more than 10000 entries of that kind. *)
Theorem numbered_keys_unique_in_a_batch {Time float64 JSON}
    (json_Marshal_coordinates : float64 -> float64 -> JSON)
    (json_Marshal_strings : list string -> JSON)
    (json_Marshal_notifications : benchmark.NotificationSettings.t -> JSON)
    (ctx : bool) (users : list (benchmark.User.t Time float64)) :
  NoDup (map benchmark.User.ID users) ->
  Forall (fun user => in_range (benchmark.User.ID user)) users ->
  let items := map (benchmark.Transform json_Marshal_coordinates
                      json_Marshal_strings json_Marshal_notifications ctx)
                   users in
  let few {A} (entries : benchmark.User.t Time float64 -> list A) :=
    Forall (fun user => (Z.of_nat (length (entries user)) <= 10000)%Z) users in
  (few (fun user => benchmark.Profile.Education (benchmark.User.Profile user)) ->
   NoDup (map benchmark.PGEducation.ID
              (flat_map benchmark.TransformedUser.Education items))) /\
  (few (fun user => benchmark.Profile.Experience (benchmark.User.Profile user)) ->
   NoDup (map benchmark.PGExperience.ID
              (flat_map benchmark.TransformedUser.Experience items))) /\
  (few (fun user =>
          benchmark.Preferences.Settings (benchmark.User.Preferences user)) ->
   NoDup (map benchmark.PGSettings.ID
              (flat_map benchmark.TransformedUser.Settings items))) /\
  (few benchmark.User.ActivityLog ->
   NoDup (map benchmark.PGActivityLog.ID
              (flat_map benchmark.TransformedUser.ActivityLog items))) /\
  (few benchmark.User.Transactions ->
   NoDup (map benchmark.PGTransactions.ID
              (flat_map benchmark.TransformedUser.Transactions items))) /\
  (few (fun user =>
          benchmark.SocialMedia.Posts (benchmark.User.SocialMedia user)) ->
   NoDup (map benchmark.PGPosts.ID
              (flat_map benchmark.TransformedUser.Posts items))).
Proof.
  intros Hnd Hrange. cbv zeta.
  assert (Hgo : forall A (entries : benchmark.User.t Time float64 -> list A),
    Forall (fun user => (Z.of_nat (length (entries user)) <= 10000)%Z) users ->
    NoDup (flat_map (fun user => child_IDs (benchmark.User.ID user)
                                           (length (entries user))) users)).
  { intros A entries Hfew.
    apply (child_IDs_flat_NoDup benchmark.User.ID
             (fun user => length (entries user))); [done|].
    apply Forall_forall. intros user Hin. split.
    - by apply (proj1 (Forall_forall _ _) Hrange).
    - by apply (proj1 (Forall_forall _ _) Hfew). }
  split_and!; intros Hfew;
    match type of Hfew with
    | Forall (fun user => (Z.of_nat (length (@?entries user)) <= _)%Z) _ =>
        rewrite (keys_of_batch _ _ _
                   (fun user => child_IDs (benchmark.User.ID user)
                                          (length (entries user))));
        [ by apply Hgo
        | intros user;
          apply (Transform_child_IDs json_Marshal_coordinates
                   json_Marshal_strings json_Marshal_notifications ctx user) ]
    end.
Qed.

Lemma numbered_keys_unique_in_a_batch_witness :
  NoDup [10000; 10001; 20000]%Z.
Proof.
  exact (proj1 (numbered_keys_unique_in_a_batch
                  (fun _ _ => ()) (fun _ => ()) (fun _ => ()) false
                  [plain_user 1 [school "a"; school "b"] [];
                   plain_user 2 [school "c"] []]
                  ltac:(cbn; compute_done)
                  ltac:(repeat constructor; cbn; lia))
           ltac:(repeat constructor; cbn; lia)).
Defined.

(** X16.  Primary keys that clash.  [Transform] numbers the attachments of
    each message from 0 again: a user with two messages that both have an
    attachment gets two attachment rows with the same primary key.  And the
    numbering of the child rows leaves room for 10000 entries only: the
    entry of index 10000 of a user has the primary key of the entry of index
    0 of the user with the next id. *)
Theorem attachment_keys_clash {Time float64 JSON}
    (json_Marshal_coordinates : float64 -> float64 -> JSON)
    (json_Marshal_strings : list string -> JSON)
    (json_Marshal_notifications : benchmark.NotificationSettings.t -> JSON)
    (ctx : bool) :
  (forall (user : benchmark.User.t Time float64) i j mi mj,
     i <> j ->
     benchmark.User.Messages user !! i = Some mi ->
     benchmark.User.Messages user !! j = Some mj ->
     benchmark.Message.Attachments mi <> [] ->
     benchmark.Message.Attachments mj <> [] ->
     ~ NoDup (map benchmark.PGAttachments.ID
                  (benchmark.TransformedUser.Attachments
                     (benchmark.Transform json_Marshal_coordinates
                        json_Marshal_strings json_Marshal_notifications
                        ctx user)))) /\
  (forall user_ID : Z,
     benchmark.child_ID user_ID (Z.to_nat 10000)
     = benchmark.child_ID (int64 (user_ID + 1)) 0).
Proof.
  split.
  - intros user i j mi mj Hij Hi Hj Hmi Hmj.
    rewrite (proj1 (Transform_Attachments _ _ _ ctx user)).
    assert (Hfirst : forall m : benchmark.Message.t Time,
      benchmark.Message.Attachments m <> [] ->
      benchmark.child_ID (benchmark.User.ID user) 0
      ∈ child_IDs (benchmark.User.ID user)
                  (length (benchmark.Message.Attachments m))).
    { intros m Hm. destruct (benchmark.Message.Attachments m); [done|].
      cbn. left. }
    destruct (Nat.lt_total i j) as [Hlt|[->|Hlt]]; [|done|].
    + eapply (flat_map_clash _ _ i j); eauto.
    + eapply (flat_map_clash _ _ j i); eauto.
  - intros user_ID. unfold benchmark.child_ID.
    apply int64_congr.
    rewrite <- Zplus_mod_idemp_l, int64_mod, Zplus_mod_idemp_l.
    rewrite <- (Zplus_mod_idemp_l (int64 _)), int64_mod.
    rewrite <- (Zmult_mod_idemp_l (int64 _)), int64_mod.
    rewrite Zmult_mod_idemp_l, Zplus_mod_idemp_l.
    f_equal. change (Z.of_nat 0) with 0%Z. rewrite Z2Nat.id by lia.
    lia.
Qed.

Lemma attachment_keys_clash_witness :
  map benchmark.PGAttachments.ID
      (benchmark.TransformedUser.Attachments
         (plain_Transform (plain_user 7 [] [letter "m1"; letter "m2"])))
  = [70000; 70000]%Z /\
  ~ NoDup [70000; 70000]%Z.
Proof.
  split; [reflexivity|].
  exact (proj1 (attachment_keys_clash (fun _ _ => ()) (fun _ => ())
                  (fun _ => ()) false)
           (plain_user 7 [] [letter "m1"; letter "m2"]) 0 1
           (letter "m1") (letter "m2")
           ltac:(lia) eq_refl eq_refl ltac:(discriminate)
           ltac:(discriminate)).
Defined.

Section LoadProperties.
Context {Time JSON Mongo DB : Type}.
Variable CreateInBatches :
  @benchmark.Rows Time JSON -> Z -> DB -> DB * option error.

(** [Load] is its steps, run one after the other. *)
Lemma Load_run ctx (items : list (benchmark.TransformedUser.t Time JSON))
    (w : @benchmark.World Mongo DB) :
  benchmark.Load CreateInBatches ctx items w
  = if (length items =? 0)%nat then (w, None)
    else run CreateInBatches (Load_steps items)
           (fun w1 =>
              (benchmark.Print w1
                 ("✓ Batch inserted " +:+ pretty (length items)
                  +:+ " users with all related data!
"), None)) w.
Proof. reflexivity. Qed.

Lemma insert_recording (s : @step Time JSON) next
    (w : @benchmark.World Mongo (DB * list call)) :
  (exists w1,
     benchmark.insert (recording CreateInBatches) (step_rows s)
       (size (step_rows s)) (step_what s) (step_table s) next w = next w1 /\
     calls w1 = calls w ++ [accepted s]) \/
  (exists err w1,
     benchmark.insert (recording CreateInBatches) (step_rows s)
       (size (step_rows s)) (step_what s) (step_table s) next w
     = (w1, Some (WrapError ("failed to insert " +:+ step_table s +:+ ": ")
                            err)) /\
     calls w1 = calls w ++ [mkCall (step_rows s) 500 (Some err)]).
Proof.
  unfold benchmark.insert, recording. cbn [benchmark.Print
    benchmark.receiver benchmark.postgresDB].
  destruct (CreateInBatches (step_rows s) 500
              (benchmark.postgresDB (benchmark.receiver w)).1)
    as [db' [err|]].
  - right. eexists _, _. split; reflexivity.
  - left. eexists. split; reflexivity.
Qed.

Lemma run_recording (steps : list (@step Time JSON)) final :
  forall w : @benchmark.World Mongo (DB * list call),
    (exists w1,
       run (recording CreateInBatches) steps final w = final w1 /\
       calls w1 = calls w ++ map accepted (List.filter due steps)) \/
    (exists pre s post err w1,
       List.filter due steps = pre ++ s :: post /\
       run (recording CreateInBatches) steps final w
       = (w1, Some (WrapError ("failed to insert " +:+ step_table s +:+ ": ")
                              err)) /\
       calls w1
       = calls w ++ map accepted pre ++ [mkCall (step_rows s) 500 (Some err)]).
Proof.
  induction steps as [|s steps IH]; intros w.
  - left. exists w. cbn. by rewrite app_nil_r.
  - assert (Hdue : due s = true ->
      (exists w1,
         run (recording CreateInBatches) (s :: steps) final w = final w1 /\
         calls w1 = calls w ++ map accepted (List.filter due (s :: steps))) \/
      (exists pre s0 post err w1,
         List.filter due (s :: steps) = pre ++ s0 :: post /\
         run (recording CreateInBatches) (s :: steps) final w
         = (w1, Some (WrapError ("failed to insert " +:+ step_table s0
                                 +:+ ": ") err)) /\
         calls w1
         = calls w ++ map accepted pre
           ++ [mkCall (step_rows s0) 500 (Some err)])).
    { intros Hs.
      assert (Hrun : run (recording CreateInBatches) (s :: steps) final w
                     = benchmark.insert (recording CreateInBatches)
                         (step_rows s) (size (step_rows s)) (step_what s)
                         (step_table s)
                         (run (recording CreateInBatches) steps final) w).
      { cbn [run]. unfold due in Hs. destruct (step_presence s); [done|].
        unfold benchmark.insert_if_any. by rewrite Hs. }
      rewrite Hrun. cbn [List.filter]. rewrite Hs.
      destruct (insert_recording s (run (recording CreateInBatches) steps final)
                  w) as [(w1 & -> & Hc1)|(err & w1 & -> & Hc1)].
      - destruct (IH w1) as [(w2 & -> & Hc2)|(pre & s0 & post & err & w2 & Hf
                                               & -> & Hc2)].
        + left. exists w2. split; [done|].
          rewrite Hc2, Hc1. cbn [map]. by rewrite <- app_assoc.
        + right. exists (s :: pre), s0, post, err, w2.
          split_and!; [by rewrite Hf|done|].
          rewrite Hc2, Hc1. cbn [map]. by rewrite <- !app_assoc.
      - right. exists [], s, (List.filter due steps), err, w1.
        split_and!; done. }
    destruct (due s) eqn:Hs; [by apply Hdue|].
    assert (Hrun : run (recording CreateInBatches) (s :: steps) final w
                   = run (recording CreateInBatches) steps final w).
    { cbn [run]. unfold due in Hs. destruct (step_presence s); [done|].
      unfold benchmark.insert_if_any. by rewrite Hs. }
    rewrite Hrun. cbn [List.filter]. rewrite Hs. apply IH.
Qed.

End LoadProperties.

(** X17.  [Load] stops at the first failure.  On an empty batch [Load] does
    nothing and returns nil.  On any other batch it inserts table by table in
    the order users, addresses, profiles, education, experience, preferences,
    settings, activity log, transactions, messages, attachments, social
    media, posts, groups, large data, each in one call of [CreateInBatches]
    with batch size 500 on all the rows of the batch for that table, and
    skipping the dependent tables for which the batch has no row.  It returns
    nil when every call succeeded; when a call fails it makes no further
    call, the earlier inserts are not taken back, and it returns the error of
    that call under "failed to insert <table>: ". *)
Theorem Load_stops_at_first_failure {Time JSON Mongo DB}
    (CreateInBatches : @benchmark.Rows Time JSON -> Z -> DB -> DB * option error)
    (ctx : bool) (items : list (benchmark.TransformedUser.t Time JSON))
    (w : @benchmark.World Mongo (DB * list call)) :
  benchmark.Load (recording CreateInBatches) ctx [] w = (w, None) /\
  (items <> [] ->
   let w' := (benchmark.Load (recording CreateInBatches) ctx items w).1 in
   match (benchmark.Load (recording CreateInBatches) ctx items w).2 with
   | None => calls w' = calls w ++ map accepted (plan items)
   | Some e =>
       exists pre s post err,
         plan items = pre ++ s :: post /\
         calls w'
         = calls w ++ map accepted pre
           ++ [mkCall (step_rows s) 500 (Some err)] /\
         e = WrapError ("failed to insert " +:+ step_table s +:+ ": ") err
   end).
Proof.
  split; [reflexivity|]. intros Hne. cbv zeta. rewrite Load_run.
  destruct items as [|item items]; [done|]. cbn [length Nat.eqb].
  match goal with
  | |- context [run _ ?steps ?final w] =>
      destruct (run_recording CreateInBatches steps final w)
        as [(w1 & -> & Hc)|(pre & s & post & err & w1 & Hplan & -> & Hc)]
  end.
  - cbn [fst snd]. exact Hc.
  - cbn [fst snd]. exists pre, s, post, err. done.
Qed.

Lemma Load_stops_at_first_failure_witness :
  exists pre s post err,
    plan one_user = pre ++ s :: post /\
    calls (benchmark.Load (recording no_profiles) false one_user
             (benchmark.mkWorld (benchmark.mkUserETL () ((), [])) [])).1
    = [] ++ map accepted pre ++ [mkCall (step_rows s) 500 (Some err)] /\
    WrapError "failed to insert profiles: " (ErrorString "duplicate key")
    = WrapError ("failed to insert " +:+ step_table s +:+ ": ") err.
Proof.
  exact (proj2 (Load_stops_at_first_failure no_profiles false one_user
                  (benchmark.mkWorld (benchmark.mkUserETL () ((), [])) []))
           ltac:(discriminate)).
Defined.

(** X18.  [main] does not look at the result of [RunAll].  When [main]
    comes to its end, its exit status is 1 exactly when a URL is missing, a
    connection, "cpu.prof" or the CPU profiler fails, or "mem.prof" cannot
    be created; otherwise it is 0.  The error returned by [RunAll] is
    overwritten by the result of creating "mem.prof" before it is tested:
    when the pipeline fails and "mem.prof" is created, [main] prints the
    performance report and exits with status 0. *)
Theorem main_ignores_the_result_of_RunAll {E T S} (env : benchmark.Env)
    (userETL : ETLProcessor E T S) (sched : list maction)
    (run : list (@etl.action E)) (world : S) (exit : benchmark.Exit) :
  benchmark.main env userETL sched run world = Ok exit ->
  (benchmark.status exit = 1%Z <->
   benchmark.MONGODB_URL env = "" \/ benchmark.POSTGRES_URL env = "" \/
   benchmark.connectMongoDB env <> None \/
   benchmark.connectPostgres env <> None \/
   benchmark.os_Create_cpu_prof env <> None \/
   benchmark.pprof_StartCPUProfile env <> None \/
   benchmark.os_Create_mem_prof env <> None) /\
  (benchmark.status exit <> 1%Z ->
   benchmark.status exit = 0%Z /\
   exists out,
     RunAll (main_manager env userETL run) sched false world = Ok out /\
     exists before,
       benchmark.printed exit = before ++ benchmark.performance_report env).
Proof.
  unfold benchmark.main, main_manager.
  destruct (String.eqb_spec (benchmark.MONGODB_URL env) "") as [Hm|Hm];
    cbn [orb].
  { intros [= <-]. cbn. split; [tauto|done]. }
  destruct (String.eqb_spec (benchmark.POSTGRES_URL env) "") as [Hp|Hp].
  { intros [= <-]. cbn. split; [tauto|done]. }
  destruct (benchmark.connectMongoDB env) as [e1|] eqn:H1.
  { intros [= <-]. cbn. split; [|done]. split; [intros _|done].
    right; right; left. done. }
  destruct (benchmark.connectPostgres env) as [e2|] eqn:H2.
  { intros [= <-]. cbn. split; [|done]. split; [intros _|done].
    do 3 right; left. done. }
  destruct (benchmark.os_Create_cpu_prof env) as [e3|] eqn:H3.
  { intros [= <-]. cbn. split; [|done]. split; [intros _|done].
    do 4 right; left. done. }
  destruct (benchmark.pprof_StartCPUProfile env) as [e4|] eqn:H4.
  { intros [= <-]. cbn. split; [|done]. split; [intros _|done].
    do 5 right; left. done. }
  cbv zeta. cbn [NewManager snd].
  destruct (RunAll _ sched false world) as [out| |] eqn:Hrun; try done.
  destruct (benchmark.os_Create_mem_prof env) as [e5|] eqn:H5.
  { intros [= <-]. cbn. split; [|done]. split; [intros _|done].
    do 6 right. done. }
  intros [= <-]. cbn [benchmark.status benchmark.printed]. split.
  - split; [done|]. intros [?|[?|[?|[?|[?|[?|?]]]]]]; done.
  - intros _. split; [done|]. exists out. split; [done|]. eauto.
Qed.

Lemma main_ignores_the_result_of_RunAll_witness :
  benchmark.status healthy_exit = 0%Z /\
  exists out,
    RunAll (main_manager healthy (logging "B" true) two_worker_run)
           [Acquire 0; Finish 0] false [] = Ok out /\
    returned out
    = Some (WrapError "pipeline user_migration_pipeline failed: "
              (WrapError "ETL run failed: "
                 (WrapError "failed to run ETL: "
                    (WrapError "worker 0: " (ErrorString "load failed"))))).
Proof.
  destruct (proj2 (main_ignores_the_result_of_RunAll healthy
                     (logging "B" true) [Acquire 0; Finish 0] two_worker_run
                     [] healthy_exit eq_refl)
              ltac:(discriminate))
    as (Hstatus & out & Hrun & _).
  split; [exact Hstatus|]. exists out. split; [exact Hrun|].
  vm_compute in Hrun. by injection Hrun as <-.
Defined.

(** * The shared bucket configuration *)

Lemma defaults_idempotent (c : bucket.Config) :
  defaults (defaults c) = defaults c.
Proof.
  destruct c as [bs to wn]. unfold defaults, New.
  cbn [BatchSize Timeout bucket.WorkerNum fst snd].
  repeat (match goal with
          | |- context [(?a <=? 0)%Z] => destruct (Z.leb_spec a 0)
          end; cbn [BatchSize Timeout bucket.WorkerNum fst snd] in *);
    unfold Second in *; first [reflexivity | exfalso; lia].
Qed.

Lemma adapter_writes_defaults {E T S} (p : ETLProcessor E T S) (n : string)
    (sched : list (@etl.action E)) :
  writes_defaults
    (mkRunner (pipelineAdapter_Name (mkAdapter (NewETL p) n))
              (pipelineAdapter_Run sched (mkAdapter (NewETL p) n))).
Proof.
  intros ctx c w w' c' r. cbn [Run].
  unfold pipelineAdapter_Run, ETL_PreProcess, ETL_PostProcess, ETL_Run.
  cbn [etl NewETL processor].
  destruct (PreProcess p ctx w) as [s1 [err|]].
  { intros [= <- <- <-]. split; [by left|done]. }
  destruct (PreProcess p ctx s1) as [s2 [err|]]; cbn beta iota zeta.
  { intros [= <- <- <-]. split; [by left|done]. }
  assert (HN : (New E c).1.1 = defaults c) by reflexivity.
  destruct (New E c) as [[cfg1 b] [err|]]; cbn [fst snd] in HN; subst cfg1;
    cbn beta iota zeta.
  { intros [= <- <- <-]. split; [by right|done]. }
  destruct (Extract p ctx s2) as [s3 [extr [err|]]]; cbn beta iota zeta.
  { intros [= <- <- <-]. split; [by right|done]. }
  destruct (etl.exec _ _ _) as [st| |]; try done.
  destruct (Run_result (engine st)) as [[err|]|]; cbn beta iota zeta; try done.
  { intros [= <- <- <-]. split; [by right|done]. }
  destruct (PostProcess p _ _) as [s4 [err|]]; cbn beta iota zeta.
  { intros [= <- <- <-]. split; [by right|done]. }
  destruct (PostProcess p _ _) as [s5 [err|]]; cbn beta iota zeta;
    intros [= <- <- <-]; (split; [by right|done]).
Qed.

Lemma registered_write_defaults {U} (regs : list (registration U))
    (m : Manager U) :
  Forall writes_defaults (pipelines m) ->
  Forall writes_defaults (pipelines (fold_left register regs m)) /\
  bucketConfig (fold_left register regs m) = bucketConfig m /\
  length (pipelines (fold_left register regs m))
  = length (pipelines m) + length regs.
Proof.
  revert m. induction regs as [|r regs IH]; intros m Hm; cbn [fold_left].
  - split_and!; [done|done|cbn; lia].
  - destruct (IH (register m r)) as (Hall & Hc & Hlen).
    + unfold register, AddPipelineGeneric, addPipelineInternal.
      cbn [pipelines]. apply Forall_app. split; [done|].
      apply Forall_singleton, adapter_writes_defaults.
    + split_and!; [done|by rewrite Hc|]. rewrite Hlen.
      unfold register, AddPipelineGeneric, addPipelineInternal.
      cbn [pipelines length]. rewrite length_app. cbn. lia.
Qed.

Lemma mstep_shared {W} (m : Manager W) a (st st' : @mstate W) :
  Forall writes_defaults (pipelines m) ->
  shared m st -> mstep m a st = Ok st' -> shared m st'.
Proof.
  intros Hall [Hcfg Hok]. destruct a as [|i|i]; cbn.
  - by intros [= <-].
  - destruct (tasks st !! i) as [[| |]|]; try done.
    destruct (chan_send _ _); try done. by intros [= <-].
  - destruct (tasks st !! i) as [[| |]|]; try done.
    destruct (pipelines m !! i) as [p|] eqn:Hp; try done.
    destruct (Run p (mctx st) (bcfg st) (world st)) as [[[w' c'] r]| |] eqn:Hrun;
      try done.
    destruct (chan_send _ _); try done.
    destruct (chan_recv _) as [[? ?]| |]; try done.
    intros [= <-]. unfold shared; cbn.
    pose proof (proj1 (Forall_forall _ _) Hall p
                  (list_elem_of_lookup_2 _ _ _ Hp)) as Hw.
    destruct (Hw _ _ _ _ _ _ Hrun) as [Hc' Hnil].
    assert (Hstay : bcfg st = defaults (bucketConfig m) ->
                    c' = defaults (bucketConfig m)).
    { intros Hd. destruct Hc' as [-> | ->]; [done|].
      by rewrite Hd, defaults_idempotent. }
    split.
    + destruct Hcfg as [Hb|Hb]; [|right; auto].
      destruct Hc' as [-> | ->]; [by left|right; by rewrite Hb].
    + intros (r0 & [Hin| ->%list_elem_of_singleton]%elem_of_app & Hr0).
      * apply Hstay, Hok. eauto.
      * cbn in Hr0. subst r. rewrite (Hnil eq_refl).
        destruct Hcfg as [-> | ->]; [done|apply defaults_idempotent].
Qed.

(** X19.  The bucket configuration is shared.  Every pipeline registered
    with [AddPipelineGeneric] runs on the one [bucket.Config] the manager
    was given, and [bucket.New] writes its defaults into it.  After [RunAll]
    that configuration is as the caller made it or holds the defaults, never
    anything else; it holds the defaults as soon as one pipeline has returned
    nil, in particular when [RunAll] returns nil; and writing the defaults
    twice changes nothing. *)
Theorem RunAll_writes_the_bucket_defaults {U} (regs : list (registration U))
    (c : etl.Config) (bc : bucket.Config) (sched : list maction) (ctx : bool)
    (w : U) (out : @outcome U) :
  RunAll (fold_left register regs (NewManager U c bc).2) sched ctx w = Ok out ->
  (final_bcfg out = bc \/ final_bcfg out = defaults bc) /\
  ((exists r, r ∈ completed out /\ ran_result r = None) ->
   final_bcfg out = defaults bc) /\
  (returned out = None -> final_bcfg out = defaults bc) /\
  defaults (defaults bc) = defaults bc.
Proof.
  intros Hrun.
  destruct (registered_write_defaults regs (NewManager U c bc).2)
    as (Hall & Hbc & _); [by constructor|].
  set (m := fold_left register regs (NewManager U c bc).2) in *.
  change (bucketConfig m = bc) in Hbc.
  assert (Hshared : (final_bcfg out = bc \/ final_bcfg out = defaults bc) /\
                    ((exists r, r ∈ completed out /\ ran_result r = None) ->
                     final_bcfg out = defaults bc)).
  { revert Hrun. unfold RunAll.
    destruct (length (pipelines m) =? 0)%nat.
    { intros [= <-]. cbn. rewrite Hbc. split; [by left|].
      by intros (r & ?%elem_of_nil & _). }
    destruct (mexec m sched (RunAll_start m ctx w)) as [st| |] eqn:Hexec;
      try done.
    destruct (forallb is_finished (tasks st)); try done.
    intros [= <-]. cbn. rewrite <- Hbc.
    revert Hexec.
    assert (Hstart : shared m (RunAll_start m ctx w)).
    { split; [by left|]. by intros (r & ?%elem_of_nil & _). }
    revert Hstart. generalize (RunAll_start m ctx w).
    induction sched as [|a sched IH]; intros st0 Hs; cbn.
    - by intros [= <-].
    - destruct (mstep m a st0) as [st1| |] eqn:Hstep; try done.
      apply IH. by eapply mstep_shared. }
  destruct Hshared as [Hcfg Hok].
  split_and!; [done|done| |apply defaults_idempotent].
  intros Hnil. apply Hok.
  destruct (Nat.eq_dec (length (pipelines m)) 0) as [Hz|Hnz].
  { unfold RunAll in Hrun. rewrite Hz in Hrun. cbn in Hrun.
    injection Hrun as <-. done. }
  destruct (returned_RunAll_accounts m sched ctx w out ltac:(lia) Hrun)
    as (_ & Hperm & _ & _ & _ & Hnone).
  assert (Hin : 0 ∈ map ran_index (completed out)).
  { rewrite Hperm. apply elem_of_seq. lia. }
  change (map ?f ?l) with (f <$> l) in Hin.
  apply list_elem_of_fmap in Hin as (r & _ & Hr).
  exists r. split; [done|]. by apply Hnone.
Qed.

Lemma RunAll_writes_the_bucket_defaults_witness :
  final_bcfg one_registered_outcome = bucket.mkConfig 100 (5 * Second) 1.
Proof.
  exact (proj1 (proj2 (proj2 (RunAll_writes_the_bucket_defaults one_registered
                                (etl.mkConfig 0) (bucket.mkConfig 0 0 0)
                                [Acquire 0; Finish 0] false []
                                one_registered_outcome eq_refl)))
           eq_refl).
Defined.
